(** * Verification of the interaction-automation engine

    A shallow embedding of the TypeScript sources (group discovery and
    ranking, selection parsing, session store, group join flow and the
    batch orchestrator) together with the properties stated for them.

    Conventions of the embedding:
    - a JavaScript string is a [string] whose characters are code units
      below 256 (Latin-1); [toLowerCase] and [trim] follow the ECMAScript
      tables on that range;
    - a JavaScript number holding an integer is a [Z]; the decimal numbers
      read by [parseFloat] are kept exact (a mantissa and a count of
      fractional digits);
    - [Set<string>] is a [gset string]; arrays are lists, and the result
      arrays that the managers keep and hand out are references into a
      heap of lists; objects are records passed by value;
    - asynchronous code is explicit state passing over a [World] whose
      answers come from an oracle indexed by the history of actions;
      logging is left out. *)

From Stdlib Require Import ZArith Ascii String List Bool Lia Sorting.Sorted.
From stdpp Require Import base gmap sets list strings sorting pretty.

Local Open Scope string_scope.
Local Open Scope list_scope.
Local Open Scope Z_scope.

(** ** JavaScript string primitives *)

Module JsString.

Definition code (c : ascii) : Z := Z.of_N (N_of_ascii c).

(** [String.prototype.toLowerCase] on one code unit below 256:
    A-Z and the Latin-1 capitals U+00C0..U+00DE (without the
    multiplication sign U+00D7) move up by 32. *)
Definition toLowerChar (c : ascii) : ascii :=
  let n := code c in
  if ((65 <=? n) && (n <=? 90))
     || ((192 <=? n) && (n <=? 222) && negb (n =? 215))
  then ascii_of_N (Z.to_N (n + 32))
  else c.

Fixpoint toLowerCase (s : string) : string :=
  match s with
  | EmptyString => EmptyString
  | String c s' => String (toLowerChar c) (toLowerCase s')
  end.

(** [s.startsWith(p)] *)
Fixpoint startsWith (p s : string) : bool :=
  match p, s with
  | EmptyString, _ => true
  | String _ _, EmptyString => false
  | String a p', String b s' => if Ascii.eqb a b then startsWith p' s' else false
  end.

(** [s.includes(sub)] *)
Fixpoint includes (s sub : string) : bool :=
  match s with
  | EmptyString => startsWith sub EmptyString
  | String _ s' => startsWith sub s || includes s' sub
  end.

(** [s.split(sep)] for a one-character separator; the result is never
    empty: splitting the empty string gives one empty piece. *)
Fixpoint split (sep : ascii) (s : string) : list string :=
  match s with
  | EmptyString => [EmptyString]
  | String c s' =>
      match split sep s' with
      | [] => [EmptyString]
      | hd :: tl =>
          if Ascii.eqb c sep then EmptyString :: hd :: tl
          else String c hd :: tl
      end
  end.

(** White space and line terminators removed by [trim] and skipped by
    [parseInt]: TAB, LF, VT, FF, CR, SP and NBSP. *)
Definition isWhite (c : ascii) : bool :=
  let n := code c in
  ((9 <=? n) && (n <=? 13)) || (n =? 32) || (n =? 160).

Fixpoint trimStart (s : string) : string :=
  match s with
  | EmptyString => EmptyString
  | String c s' => if isWhite c then trimStart s' else s
  end.

(** [trimEnd] keeps a character when it is not white space or when
    something non-white follows it. *)
Fixpoint trimEnd (s : string) : string :=
  match s with
  | EmptyString => EmptyString
  | String c s' =>
      match trimEnd s' with
      | EmptyString => if isWhite c then EmptyString else String c EmptyString
      | rest => String c rest
      end
  end.

Definition trim (s : string) : string := trimEnd (trimStart s).

Definition isDigit (c : ascii) : bool :=
  let n := code c in (48 <=? n) && (n <=? 57).

Definition digitVal (c : ascii) : Z := code c - 48.

(** Longest prefix of decimal digits, and what follows it. *)
Fixpoint takeDigits (s : string) : string * string :=
  match s with
  | EmptyString => (EmptyString, EmptyString)
  | String c s' =>
      if isDigit c
      then let '(ds, rest) := takeDigits s' in (String c ds, rest)
      else (EmptyString, s)
  end.

(** Value of a string of decimal digits read left to right. *)
Fixpoint digitsValue (acc : Z) (ds : string) : Z :=
  match ds with
  | EmptyString => acc
  | String c ds' => digitsValue (acc * 10 + digitVal c) ds'
  end.

End JsString.

(** ** Group discovery and ranking ([GroupDiscovery], [GroupInfo]) *)

Module Discovery.
Import JsString.

(** [GroupInfo]; the optional fields are [None] when absent. *)
Record GroupInfo := {
  url : string;
  name : string;
  memberCount : Z;
  isJoined : bool;
  relevanceScore : option Z;
  searchKeyword : option string
}.

(** A decimal number [mant / 10 ^ frac], as [parseFloat] reads it from a
    text made of digits and dots. *)
Record Decimal := { mant : Z; frac : nat }.

(** [text.replace(/[^0-9.]/g, '')] *)
Fixpoint keepNumeric (s : string) : string :=
  match s with
  | EmptyString => EmptyString
  | String c s' =>
      if isDigit c || Ascii.eqb c "."%char
      then String c (keepNumeric s')
      else keepNumeric s'
  end.

(** [parseFloat] on a text of digits and dots: the longest prefix of the
    form [digits], [digits.digits], [digits.] or [.digits]; [None] is
    NaN. *)
Definition parseFloat (s : string) : option Decimal :=
  let '(ip, rest) := takeDigits s in
  match rest with
  | String "."%char rest' =>
      let '(fp, _) := takeDigits rest' in
      match ip, fp with
      | EmptyString, EmptyString => None
      | _, _ =>
          Some {| mant := digitsValue (digitsValue 0 ip) fp;
                  frac := String.length fp |}
      end
  | _ =>
      match ip with
      | EmptyString => None
      | _ => Some {| mant := digitsValue 0 ip; frac := 0 |}
      end
  end.

(** [Math.floor(num * multiplier)], on the exact decimal.  The code
    multiplies doubles: for a number that is not a double, such as 4.1,
    its product can round below the exact one and the floor be one
    less. *)
Definition floorScaled (num : Decimal) (multiplier : Z) : Z :=
  (mant num * multiplier) / 10 ^ Z.of_nat (frac num).

Definition parseMemberCount (text : string) : Z :=
  match text with
  | EmptyString => 0
  | _ =>
      let textLower := toLowerCase text in
      let multiplier := 1 in
      let multiplier := if includes textLower "k" then 1000 else multiplier in
      let multiplier := if includes textLower "m" then 1000000 else multiplier in
      match parseFloat (keepNumeric text) with
      | None => 0
      | Some num => floorScaled num multiplier
      end
  end.

Definition calculateRelevanceScore (group : GroupInfo) (keyword : string) : Z :=
  let score := 0 in
  let name := toLowerCase (name group) in
  let kw := toLowerCase keyword in
  let score := if includes name kw then score + 50 else score in
  let score :=
    fold_left (fun score word => if includes name word then score + 10 else score)
              (split " "%char kw) score in
  let score :=
    if memberCount group >? 50000 then score + 20
    else if memberCount group >? 10000 then score + 10
    else score in
  Z.min score 100.

(** The filter callback of [removeDuplicateGroups] run over the array,
    with the [seen] set it updates threaded through. *)
Fixpoint filterSeen (seen : gset string) (groups : list GroupInfo) : list GroupInfo :=
  match groups with
  | [] => []
  | group :: rest =>
      let url := url group in
      if decide (url ∈ seen) then filterSeen seen rest
      else group :: filterSeen ({[url]} ∪ seen) rest
  end.

Definition removeDuplicateGroups (groups : list GroupInfo) : list GroupInfo :=
  filterSeen ∅ groups.

(** *** The statements of the specification, in its own words *)

(** Relevance: 50 for a full keyword match, 10 per keyword word found in
    the name, a member bonus of 20 above 50,000 or 10 above 10,000, and
    a cap at 100. Matching ignores case. *)
Definition containsIgnoringCase (text part : string) : bool :=
  includes (toLowerCase text) (toLowerCase part).

Definition keywordWords (keyword : string) : list string :=
  split " "%char (toLowerCase keyword).

Definition memberBonus (members : Z) : Z :=
  if 50000 <? members then 20 else if 10000 <? members then 10 else 0.

Definition relevanceSpec (group : GroupInfo) (keyword : string) : Z :=
  let full := if containsIgnoringCase (name group) keyword then 50 else 0 in
  let words :=
    10 * Z.of_nat (length (filter (fun w => includes (toLowerCase (name group)) w = true)
                                  (keywordWords keyword))) in
  Z.min (full + words + memberBonus (memberCount group)) 100.

(** Dedup: the candidate at a position is kept exactly when no earlier
    candidate of the input carries the same URL. *)
Fixpoint keepFirstOccurrences (earlier groups : list GroupInfo) : list GroupInfo :=
  match groups with
  | [] => []
  | g :: rest =>
      if decide (url g ∈ url <$> earlier)
      then keepFirstOccurrences (earlier ++ [g]) rest
      else g :: keepFirstOccurrences (earlier ++ [g]) rest
  end.

End Discovery.

(** ** Selection parsing ([GroupSelector.parseSelection]) *)

Module Selection.
Import JsString.

Definition hexVal (c : ascii) : option Z :=
  let n := code c in
  if (48 <=? n) && (n <=? 57) then Some (n - 48)
  else if (97 <=? n) && (n <=? 102) then Some (n - 87)
  else if (65 <=? n) && (n <=? 70) then Some (n - 55)
  else None.

(** Value of the longest prefix of hexadecimal digits, with the number
    of digits read. *)
Fixpoint hexPrefix (acc : Z) (count : nat) (s : string) : Z * nat :=
  match s with
  | EmptyString => (acc, count)
  | String c s' =>
      match hexVal c with
      | Some d => hexPrefix (acc * 16 + d) (S count) s'
      | None => (acc, count)
      end
  end.

(** [parseInt(s)] without a radix: leading white space is skipped, a
    sign is read, a [0x] or [0X] prefix selects radix 16, and the
    longest prefix of digits is the value; [None] is NaN.  The value
    is the exact integer; the code has the nearest double, which is the
    same number below [2^53]. *)
Definition parseInt (s : string) : option Z :=
  let s := trimStart s in
  let '(sign, s) :=
    match s with
    | String "-"%char r => (-1, r)
    | String "+"%char r => (1, r)
    | _ => (1, s)
    end in
  let hex (r : string) :=
    match hexPrefix 0 0 r with
    | (_, O) => None
    | (v, S _) => Some (sign * v)
    end in
  let dec (r : string) :=
    match takeDigits r with
    | (EmptyString, _) => None
    | (ds, _) => Some (sign * digitsValue 0 ds)
    end in
  match s with
  | String "0"%char (String "x"%char r) => hex r
  | String "0"%char (String "X"%char r) => hex r
  | _ => dec s
  end.

(** JavaScript truthiness of a number: NaN and 0 are falsy. *)
Definition truthy (n : option Z) : bool :=
  match n with
  | None => false
  | Some v => negb (v =? 0)
  end.

(** [Set<number>.add]: a set keeps insertion order and no duplicates. *)
Definition setAdd (i : Z) (indices : list Z) : list Z :=
  if decide (i ∈ indices) then indices else indices ++ [i].

(** [for (let i = start; i <= end; i++) indices.add(i)], by the number
    of iterations left. *)
Fixpoint addRange (iterations : nat) (i : Z) (indices : list Z) : list Z :=
  match iterations with
  | O => indices
  | S n => addRange n (i + 1) (setAdd i indices)
  end.

(** The body of the loop over [parts]. *)
Definition addPart (maxIndex : Z) (indices : list Z) (part : string) : list Z :=
  if includes part "-" then
    let nums := map (fun num => parseInt (trim num)) (split "-"%char part) in
    let start := nth 0 nums None in
    let end_ := nth 1 nums None in
    match start, end_ with
    | Some s, Some e =>
        if truthy start && truthy end_ && (s <=? e) && (1 <=? s) && (e <=? maxIndex)
        then addRange (Z.to_nat (e - s + 1)) s indices
        else indices
    | _, _ => indices
    end
  else
    let num := parseInt part in
    match num with
    | Some n =>
        if truthy num && (1 <=? n) && (n <=? maxIndex)
        then setAdd n indices
        else indices
    | None => indices
    end.

Definition parseSelection (input : string) (maxIndex : Z) : list Z :=
  let parts := map trim (split ","%char input) in
  let indices := fold_left (addPart maxIndex) parts [] in
  merge_sort Z.le indices.

(** *** Tokens that the specification says contribute nothing *)

Definition isRange (part : string) : bool := includes part "-".

Definition rangeStart (part : string) : option Z :=
  nth 0 (map (fun num => parseInt (trim num)) (split "-"%char part)) None.

Definition rangeEnd (part : string) : option Z :=
  nth 1 (map (fun num => parseInt (trim num)) (split "-"%char part)) None.

(** A number is unusable when it is malformed (no integer can be read),
    zero, negative or above [maxIndex]. *)
Definition unusable (maxIndex : Z) (n : option Z) : Prop :=
  match n with
  | None => True
  | Some v => v = 0 \/ v < 0 \/ maxIndex < v
  end.

Definition rejected (maxIndex : Z) (part : string) : Prop :=
  if isRange part
  then unusable maxIndex (rangeStart part) \/ unusable maxIndex (rangeEnd part)
  else unusable maxIndex (parseInt part).

(** What the index set of [parseSelection] satisfies at every moment: no
    index twice, every index between 1 and [maxIndex]. *)
Definition indexSet (maxIndex : Z) (indices : list Z) : Prop :=
  NoDup indices /\ Forall (fun i => 1 <= i <= maxIndex) indices.

End Selection.

(** ** Effects: the browser, the file system, the clock and other tasks

    Every call that leaves the program (a Playwright call, a timer, a
    file read, [Math.random]) is an [action].  The world answers through
    an oracle [Env] that sees the whole history of actions, so a page may
    change between any two queries.  While an awaited action is pending,
    other tasks run: time passes, [stop()] may be called and the
    intervention monitor may raise or clear its flag. *)

Module Effects.

Inductive action :=
| Goto (url : string)
| Reload
| IsVisible (selector : string)
| ScrollIntoView (selector : string)
| BoundingBox (selector : string)
| MouseMove (steps : Z)
| Click (selector : string)
| LocatorAll (selector : string)
| LocatorCount (selector : string)
| InputClick (selector : string) (index : nat)
| InputFill (selector : string) (index : nat) (text : string)
| KeyboardType (text : string)
| KeyboardPress (key : string)
| MouseWheel (deltaY : Z)
| SetInputFiles (selector : string) (paths : list string)
| OverlayExists
| PageUrl
| MathRandom
| SetTimeout (ms : Z)
| PathExists (file : string)
| ReadJson (file : string)
| AddCookies (cookies : list string)
| SetLocalStorage (entries : list (string * string))
| SetSessionStorage (entries : list (string * string)).

(** What a [catch] clause receives: an [Error] with its message, or any
    other thrown value. *)
Inductive thrown :=
| ErrorObject (message : string)
| OtherValue.

(** [SessionData] as stored in the session file.  [timestamp] is the
    result of [new Date(timestamp).getTime()]: milliseconds, or [None]
    when the text is not a date (NaN).  A storage object that the file
    lacks is [None]; a missing cookie array is the empty list. *)
Record SessionData := {
  cookies : list string;
  localStorage : option (list (string * string));
  sessionStorage : option (list (string * string));
  sessionUrl : string;
  timestamp : option Z;
  userAgent : string
}.

(** The oracle.  Each field is asked with the history whose head is the
    action being answered; [resolvePath] is [path.resolve]. *)
Record Env := {
  fails : list action -> option thrown;
  saysBool : list action -> bool;
  saysN : list action -> N;
  saysString : list action -> string;
  saysSession : list action -> SessionData;
  lag : list action -> N;
  stopCalled : list action -> bool;
  monitorFlag : list action -> bool;
  resolvePath : string -> string
}.

(** [trace] has the newest action first.  [shouldStop] is the
    orchestrator's stop signal and [interventionRequired] the monitor's
    flag; both are written by other tasks only. *)
Record World := {
  trace : list action;
  clock : Z;
  shouldStop : bool;
  interventionRequired : bool
}.

Inductive Res (A : Type) :=
| Ok (a : A)
| Thrown (e : thrown)
| OutOfFuel.
Arguments Ok {A} a.
Arguments Thrown {A} e.
Arguments OutOfFuel {A}.

(** State passing with exceptions over a state [S]. *)
Definition Eff (S A : Type) : Type := S -> Res A * S.

Definition ret {S A} (a : A) : Eff S A := fun s => (Ok a, s).

Definition throw {S A} (e : thrown) : Eff S A := fun s => (Thrown e, s).

Definition bind {S A B} (m : Eff S A) (k : A -> Eff S B) : Eff S B :=
  fun s =>
    match m s with
    | (Ok a, s') => k a s'
    | (Thrown e, s') => (Thrown e, s')
    | (OutOfFuel, s') => (OutOfFuel, s')
    end.

(** [try { body } catch (error) { handler }] *)
Definition tryCatch {S A} (body : Eff S A) (handler : thrown -> Eff S A) : Eff S A :=
  fun s =>
    match body s with
    | (Thrown e, s') => handler e s'
    | r => r
    end.

Definition get {S} : Eff S S := fun s => (Ok s, s).

(** [error instanceof Error ? error.message : fallback] *)
Definition messageOr (e : thrown) (fallback : string) : string :=
  match e with
  | ErrorObject m => m
  | OtherValue => fallback
  end.

Definition duration (a : action) : Z :=
  match a with
  | SetTimeout ms => Z.max 0 ms
  | _ => 0
  end.

Section WithEnv.
Context (env : Env).

(** An awaited action: it is recorded, time passes, other tasks run. *)
Definition step (a : action) (w : World) : World :=
  let h := a :: trace w in
  {| trace := h;
     clock := clock w + duration a + Z.of_N (lag env h);
     shouldStop := shouldStop w || stopCalled env h;
     interventionRequired := monitorFlag env h |}.

(** A synchronous call: only recorded. *)
Definition stepSync (a : action) (w : World) : World :=
  {| trace := a :: trace w;
     clock := clock w;
     shouldStop := shouldStop w;
     interventionRequired := interventionRequired w |}.

Definition perform {A} (a : action) (answer : list action -> A) : Eff World A :=
  fun w =>
    let w' := step a w in
    match fails env (trace w') with
    | Some e => (Thrown e, w')
    | None => (Ok (answer (trace w')), w')
    end.

Definition performUnit (a : action) : Eff World unit :=
  perform a (fun _ => tt).

(** [Date.now()] *)
Definition dateNow : Eff World Z := fun w => (Ok (clock w), w).

(** [Math.random()] as a fraction [k / 2^53] with [0 <= k < 2^53]. *)
Definition mathRandom : Eff World Z :=
  fun w =>
    let w' := stepSync MathRandom w in
    (Ok (Z.of_N (saysN env (trace w')) mod 2 ^ 53), w').

(** [await new Promise(resolve => setTimeout(resolve, ms))] *)
Definition sleep (ms : Z) : Eff World unit :=
  fun w => (Ok tt, step (SetTimeout ms) w).

(** [page.url()] *)
Definition pageUrl : Eff World string :=
  fun w => let w' := stepSync PageUrl w in (Ok (saysString env (trace w')), w').

End WithEnv.

End Effects.

Notation "'let*' x ':=' m 'in' k" := (Effects.bind m (fun x => k))
  (at level 10, x name, m at level 100, k at level 200, only parsing).
Notation "m ';;;' k" := (Effects.bind m (fun _ => k))
  (at level 100, k at level 200, right associativity, only parsing).

(** ** Static selector configuration ([FACEBOOK_SELECTORS], [SELECTOR_UTILS]) *)

Module Selectors.
Import JsString.

(** [q s] is [s] between double quotes. *)
Definition dq : string := String (ascii_of_nat 34) EmptyString.
Definition q (s : string) : string := dq +:+ s +:+ dq.

Definition testid (id : string) : string := "[data-testid=" +:+ q id +:+ "]".
Definition hasText (element text : string) : string :=
  element +:+ ":has-text(" +:+ q text +:+ ")".
Definition roleButton : string := "div[role=" +:+ q "button" +:+ "]".
Definition ariaLabel (label : string) : string := "[aria-label=" +:+ q label +:+ "]".

Definition LOGIN_loginForm : string := "#loginform".

(** [FACEBOOK_SELECTORS.GROUPS], in the order of its keys. *)
Definition GROUPS : list (string * string) :=
  [ ("joinButton", testid "group_mall_post_button");
    ("joinButtonAlt", hasText roleButton "Join Group");
    ("joinButtonAlt2", hasText roleButton "Join");
    ("postButton", testid "group_mall_post_button");
    ("postButtonAlt", hasText roleButton "Write something");
    ("createPostButton", testid "status-attachment-mentions-input");
    ("membershipQuestions", testid "group_questions_card");
    ("submitQuestions", hasText roleButton "Submit");
    ("skipQuestions", hasText roleButton "Skip");
    ("JOINED_GROUP_ITEM", "a[href*=" +:+ q "/groups/" +:+ "]");
    ("JOINED_GROUP_NAME", "span");
    ("SEARCH_RESULT_ITEM", "div[role=" +:+ q "article" +:+ "]");
    ("SEARCH_GROUP_NAME", "a[href*=" +:+ q "/groups/" +:+ "] > span");
    ("SEARCH_MEMBER_COUNT", hasText "div > span" "members") ].

Definition GROUPS_membershipQuestions : string := testid "group_questions_card".
Definition GROUPS_submitQuestions : string := hasText roleButton "Submit".
Definition GROUPS_skipQuestions : string := hasText roleButton "Skip".

Definition BLOCKS_blocked : string := hasText "div" "blocked".
Definition BLOCKS_restricted : string := hasText "div" "restricted".

(** [categorySelectors?.[element]] for the keys that the table itself
    defines; the names that every object inherits (toString,
    constructor) are not looked up. *)
Fixpoint lookupKey (key : string) (table : list (string * string)) : option string :=
  match table with
  | [] => None
  | (k, v) :: rest => if String.eqb k key then Some v else lookupKey key rest
  end.

(** [SELECTOR_UTILS.getMultipleSelectors] on an already chosen
    category: every entry whose key starts with [element]. *)
Definition getMultipleSelectors (category : list (string * string)) (element : string)
  : list string :=
  match lookupKey element category with
  | None => []
  | Some EmptyString => []
  | Some baseSelector =>
      let alternatives :=
        map snd (filter (fun kv => startsWith element (fst kv) = true) category) in
      match alternatives with
      | [] => [baseSelector]
      | _ => alternatives
      end
  end.

End Selectors.

(** ** Human-behaviour utilities ([DELAYS], [MOUSE], [SCROLL], [VALIDATION]) *)

Module Utils.
Import Effects.

Section WithEnv.
Context (env : Env).

(** [Math.floor(Math.random() * n)], with the exact product.  The code
    rounds the product to a double before the floor, which for some
    draws gives one more; the results range over 0 to [n - 1] either
    way. *)
Definition randomBelow (n : Z) : Eff World Z :=
  let* r := mathRandom env in
  ret (r * n / 2 ^ 53).

(** [DELAYS.random(min, max)] *)
Definition DELAYS_random (min max : Z) : Eff World unit :=
  let* r := randomBelow (max - min + 1) in
  let delay := r + min in
  sleep env delay.

Definition DELAYS_short : Eff World unit := DELAYS_random 500 1500.
Definition DELAYS_medium : Eff World unit := DELAYS_random 1500 3500.
Definition DELAYS_long : Eff World unit := DELAYS_random 3000 6000.

(** [VALIDATION.isElementVisible]: a failing query counts as hidden. *)
Definition isElementVisible (selector : string) : Eff World bool :=
  tryCatch (perform env (IsVisible selector) (saysBool env))
           (fun _ => ret false).

(** The loop [for (const selector of selectors) if (await
    isElementVisible(page, selector)) return true], ending in
    [false]. *)
Fixpoint anyVisible (selectors : list string) : Eff World bool :=
  match selectors with
  | [] => ret false
  | selector :: rest =>
      let* visible := isElementVisible selector in
      if visible then ret true else anyVisible rest
  end.

(** [MOUSE.moveToElement]; [boundingBox()] answers [true] when the
    element has a box.  The two coordinates and the step count each
    draw one random number. *)
Definition moveToElement (selector : string) : Eff World unit :=
  let* box := perform env (BoundingBox selector) (saysBool env) in
  if box then
    let* _ := mathRandom env in
    let* _ := mathRandom env in
    let* r := randomBelow 10 in
    performUnit env (MouseMove (r + 5)) ;;;
    DELAYS_random 100 300
  else ret tt.

(** [MOUSE.humanClick] *)
Definition humanClick (selector : string) : Eff World unit :=
  moveToElement selector ;;;
  performUnit env (Click selector).

(** [SCROLL.natural]: [Math.floor(distance / 50)] wheel steps. *)
Fixpoint wheelLoop (steps : nat) : Eff World unit :=
  match steps with
  | O => ret tt
  | S steps' =>
      performUnit env (MouseWheel 50) ;;;
      DELAYS_random 50 150 ;;;
      wheelLoop steps'
  end.

Definition SCROLL_natural (distance : Z) : Eff World unit :=
  wheelLoop (Z.to_nat (distance / 50)).

(** [TYPING.randomDelay] *)
Definition TYPING_randomDelay (min max : Z) : Eff World unit :=
  let* r := randomBelow (max - min + 1) in
  sleep env (r + min).

(** [Math.random() < percent / 100] *)
Definition randomLess (percent : Z) : Eff World bool :=
  let* r := mathRandom env in
  ret (r * 100 <? percent * 2 ^ 53).

(** The loop of [TYPING.humanType] over the characters of the text;
    [percent] is [mistakeProbability] in hundredths. *)
Fixpoint typeLoop (minDelay maxDelay : Z) (mistakes : bool) (percent : Z)
         (chars : list ascii) : Eff World unit :=
  match chars with
  | [] => ret tt
  | char :: rest =>
      let one (c : ascii) := String c EmptyString in
      let* slip :=
        if mistakes
        then let* low := randomLess percent in
             ret (low && negb (Ascii.eqb char " "%char))
        else ret false in
      (if slip then
         let wrongChar := ascii_of_N (N.succ (N_of_ascii char) mod 256) in
         performUnit env (KeyboardType (one wrongChar)) ;;;
         TYPING_randomDelay minDelay maxDelay ;;;
         performUnit env (KeyboardPress "Backspace") ;;;
         TYPING_randomDelay (minDelay * 2) (maxDelay * 2)
       else ret tt) ;;;
      performUnit env (KeyboardType (one char)) ;;;
      (if Ascii.eqb char " "%char
       then TYPING_randomDelay (minDelay * 2) (maxDelay * 2)
       else if Ascii.eqb char "."%char || Ascii.eqb char "!"%char
               || Ascii.eqb char "?"%char
       then TYPING_randomDelay (minDelay * 3) (maxDelay * 3)
       else TYPING_randomDelay minDelay maxDelay) ;;;
      typeLoop minDelay maxDelay mistakes percent rest
  end.

(** [TYPING.humanType] *)
Definition humanType (selector text : string) (minDelay maxDelay : Z)
           (mistakes : bool) (percent : Z) : Eff World unit :=
  performUnit env (Click selector) ;;;
  DELAYS_short ;;;
  typeLoop minDelay maxDelay mistakes percent (list_ascii_of_string text).

(** [SCROLL.toElement] *)
Definition SCROLL_toElement (selector : string) : Eff World unit :=
  performUnit env (ScrollIntoView selector) ;;;
  DELAYS_short.

(** The world after [DELAYS.random(min, max)]. *)
Definition afterDelay (min max : Z) (w : World) : World :=
  (DELAYS_random min max w).2.

(** The answer of [isElementVisible] when it is asked after the history
    [h]. *)
Definition answersVisible (h : list action) (selector : string) : bool :=
  match fails env (IsVisible selector :: h) with
  | Some _ => false
  | None => saysBool env (IsVisible selector :: h)
  end.

(** The element is visible whenever it is looked for after [h]. *)
Definition shownFrom (h : list action) (selector : string) : Prop :=
  forall later, answersVisible (later ++ h) selector = true.

(** The element is never visible when looked for after [h]. *)
Definition hiddenFrom (h : list action) (selector : string) : Prop :=
  forall later, answersVisible (later ++ h) selector = false.

End WithEnv.

End Utils.

(** ** Arrays as heap objects

    An array is a reference into a heap of lists, so that two names for
    one array see each other's writes and a copy does not.  The elements
    are values: a spread copies the array, not the objects in it. *)

Module Arrays.

Definition loc := positive.

Section WithElem.
Context {A : Type}.

(** [new Array(...xs)]: a reference that the heap does not hold yet. *)
Definition alloc (xs : list A) (h : gmap loc (list A)) : loc * gmap loc (list A) :=
  let l := fresh (dom h) in (l, <[l := xs]> h).

(** The elements of the array at [l]. *)
Definition elems (l : loc) (h : gmap loc (list A)) : list A :=
  default [] (h !! l).

(** [array.push(x)] *)
Definition push (l : loc) (x : A) (h : gmap loc (list A)) : gmap loc (list A) :=
  alter (fun xs => xs ++ [x]) l h.

(** [[...array]]: a new array with the same elements. *)
Definition spread (l : loc) (h : gmap loc (list A)) : loc * gmap loc (list A) :=
  alloc (elems l h) h.

(** Any in-place change of the array at [l]: [push], [pop], [sort],
    [splice], an index assignment, [length = 0]. *)
Definition mutate (l : loc) (f : list A -> list A) (h : gmap loc (list A))
  : gmap loc (list A) :=
  alter f l h.

(** [l] in [h'] is a copy of the array [src] of [h]: a reference that
    [h] did not hold, with the same elements, and such that no in-place
    change of it is seen through a reference of [h]. *)
Definition isCopyOf (src : loc) (h : gmap loc (list A)) (l : loc) (h' : gmap loc (list A))
  : Prop :=
  (l ∉ dom h) /\
  elems l h' = elems src h /\
  forall r f, r ∈ dom h -> elems r (mutate l f h') = elems r h.

End WithElem.

End Arrays.

(** ** Group join flow ([GroupManager]) *)

Module GroupManager.
Import JsString Effects Utils Selectors Arrays.

(** [JoinGroupOptions]: a field left out is [None]. *)
Record JoinGroupOptions := {
  skipQuestions : option bool;
  questionAnswers : option (gmap string string);
  maxWaitTime : option Z
}.

(** [timestamp] holds the clock reading behind [new Date().toISOString()]. *)
Record GroupJoinResult := {
  url : string;
  success : bool;
  status : string;
  message : string;
  timestamp : Z
}.

Record GroupStatus := { blocked : bool; reason : option string }.

Record MembershipStatus := { isMember : bool }.

(** [ClickResult] and [HandleQuestionsResult] have the same shape. *)
Record ClickResult := { clickSuccess : bool; clickError : option string }.

(** The two fields of the class hold array references. *)
Record Fields := { joinedGroups : loc; failedGroups : loc }.

Record State := {
  this : Fields;
  heap : gmap loc (list GroupJoinResult);
  world : World
}.

(** [a || b] on strings that may be undefined. *)
Definition orElse (a : option string) (b : string) : string :=
  match a with
  | Some (String c s) => String c s
  | _ => b
  end.

Definition blockIndicators : list (string * string) :=
  [ (BLOCKS_blocked, "Group is blocked or private");
    (BLOCKS_restricted, "Access restricted");
    (hasText "div" "This content isn't available", "Group not found or deleted");
    (hasText "div" "Private group", "Private group - access denied") ].

Definition memberIndicators : list string :=
  [ hasText roleButton "Write something";
    testid "group_mall_post_button";
    hasText "div" "You're a member";
    hasText roleButton "Leave Group" ].

Definition joinSelectors : list string :=
  getMultipleSelectors GROUPS "joinButton" ++
  [ hasText roleButton "Join Group";
    hasText roleButton "Join";
    hasText roleButton "Request to Join";
    ariaLabel "Join Group";
    ariaLabel "Join" ].

Definition alternativeSubmits : list string :=
  [ hasText roleButton "Submit";
    hasText roleButton "Send";
    hasText roleButton "Continue" ].

Definition successIndicators : list string :=
  [ hasText "div" "Welcome to the group";
    hasText "div" "You joined";
    hasText "div" "Request sent";
    testid "group_mall_post_button" ].

Definition questionInputs : string := "textarea, input[type=" +:+ q "text" +:+ "]".

(** [defaultAnswers[i]] after the spread of [questionAnswers]. *)
Definition defaultAnswers (questionAnswers : gmap string string) (i : nat) : option string :=
  match questionAnswers !! pretty i with
  | Some a => Some a
  | None =>
      match i with
      | 0%nat => Some "I'm interested in joining this community to learn and share experiences."
      | 1%nat => Some "Web developer looking to connect with like-minded professionals."
      | 2%nat => Some "I will follow all group rules and contribute positively."
      | _ => None
      end
  end.

Section WithEnv.
Context (env : Env).

(** The loop over [blockIndicators]; [Some] is the early return. *)
Fixpoint blockLoop (indicators : list (string * string)) : Eff World (option GroupStatus) :=
  match indicators with
  | [] => ret None
  | (selector, why) :: rest =>
      let* visible := isElementVisible env selector in
      if visible then ret (Some {| blocked := true; reason := Some why |})
      else blockLoop rest
  end.

Definition checkGroupStatus : Eff World GroupStatus :=
  tryCatch
    (DELAYS_short env ;;;
     let* found := blockLoop blockIndicators in
     match found with
     | Some st => ret st
     | None =>
         let* groupLoaded := isElementVisible env ("[role=" +:+ q "main" +:+ "]") in
         if negb groupLoaded
         then ret {| blocked := true; reason := Some "Group page failed to load" |}
         else ret {| blocked := false; reason := None |}
     end)
    (fun _ => ret {| blocked := true; reason := Some "Error checking group status" |}).

Definition checkMembershipStatus : Eff World MembershipStatus :=
  tryCatch
    (DELAYS_short env ;;;
     let* found := anyVisible env memberIndicators in
     ret {| isMember := found |})
    (fun _ => ret {| isMember := false |}).

(** The loop of [clickJoinButton]; a failure inside one round moves
    on to the next selector. *)
Fixpoint joinLoop (selectors : list string) : Eff World (option ClickResult) :=
  match selectors with
  | [] => ret None
  | selector :: rest =>
      let* clicked :=
        tryCatch
          (let* visible := isElementVisible env selector in
           if visible then
             SCROLL_toElement env selector ;;;
             DELAYS_short env ;;;
             humanClick env selector ;;;
             DELAYS_medium env ;;;
             ret (Some {| clickSuccess := true; clickError := None |})
           else ret None)
          (fun _ => ret None) in
      match clicked with
      | Some r => ret (Some r)
      | None => joinLoop rest
      end
  end.

Definition clickJoinButton : Eff World ClickResult :=
  tryCatch
    (let* clicked := joinLoop joinSelectors in
     match clicked with
     | Some r => ret r
     | None => ret {| clickSuccess := false; clickError := Some "Join button not found" |}
     end)
    (fun error =>
       ret {| clickSuccess := false;
              clickError := Some (messageOr error "An unknown error occurred") |}).

(** The loop over [alternativeSubmits]. *)
Fixpoint submitLoop (selectors : list string) : Eff World (option ClickResult) :=
  match selectors with
  | [] => ret None
  | selector :: rest =>
      let* visible := isElementVisible env selector in
      if visible then
        humanClick env selector ;;;
        DELAYS_long env ;;;
        ret (Some {| clickSuccess := true; clickError := None |})
      else submitLoop rest
  end.

Definition submitQuestions : Eff World ClickResult :=
  tryCatch
    (let* submitButton := isElementVisible env GROUPS_submitQuestions in
     if submitButton then
       humanClick env GROUPS_submitQuestions ;;;
       DELAYS_long env ;;;
       ret {| clickSuccess := true; clickError := None |}
     else
       let* sent := submitLoop alternativeSubmits in
       match sent with
       | Some r => ret r
       | None => ret {| clickSuccess := false; clickError := Some "Submit button not found" |}
       end)
    (fun error =>
       ret {| clickSuccess := false;
              clickError := Some (messageOr error "An unknown error occurred") |}).

(** The method [skipQuestions()]; the name is taken by the option. *)
Definition skipQuestionsStep : Eff World ClickResult :=
  tryCatch
    (let* skipButton := isElementVisible env GROUPS_skipQuestions in
     if skipButton then
       humanClick env GROUPS_skipQuestions ;;;
       DELAYS_medium env ;;;
       ret {| clickSuccess := true; clickError := None |}
     else submitQuestions)
    (fun error =>
       ret {| clickSuccess := false;
              clickError := Some (messageOr error "An unknown error occurred") |}).

(** [for (let i = 0; i < questionInputs.length; i++)], by the number
    of inputs left. *)
Fixpoint answerLoop (answers : gmap string string) (left : nat) (i : nat) : Eff World unit :=
  match left with
  | O => ret tt
  | S left' =>
      let answer :=
        orElse (defaultAnswers answers i) ("Answer to question " +:+ pretty (S i)) in
      performUnit env (InputClick questionInputs i) ;;;
      DELAYS_short env ;;;
      performUnit env (InputFill questionInputs i answer) ;;;
      DELAYS_short env ;;;
      answerLoop answers left' (S i)
  end.

Definition answerQuestions (answers : gmap string string) : Eff World ClickResult :=
  tryCatch
    (let* count := perform env (LocatorAll questionInputs)
                           (fun h => N.to_nat (saysN env h)) in
     match count with
     | O => submitQuestions
     | S _ =>
         answerLoop answers count 0 ;;;
         submitQuestions
     end)
    (fun error =>
       ret {| clickSuccess := false;
              clickError := Some (messageOr error "An unknown error occurred") |}).

Definition handleMembershipQuestions (skip : bool) (answers : gmap string string)
  : Eff World ClickResult :=
  tryCatch
    (DELAYS_medium env ;;;
     let* questionsVisible := isElementVisible env GROUPS_membershipQuestions in
     if negb questionsVisible
     then ret {| clickSuccess := true; clickError := None |}
     else if skip then skipQuestionsStep else answerQuestions answers)
    (fun error =>
       ret {| clickSuccess := false;
              clickError := Some (messageOr error "An unknown error occurred") |}).

(** [while (Date.now() - startTime < maxWaitTime)]; [rounds] bounds
    the number of times the body runs. *)
Fixpoint confirmationLoop (rounds : nat) (startTime maxWait : Z) : Eff World bool :=
  let* now := dateNow in
  if now - startTime <? maxWait then
    match rounds with
    | O => fun w => (OutOfFuel, w)
    | S rounds' =>
        let* found := anyVisible env successIndicators in
        if found then ret true
        else DELAYS_short env ;;; confirmationLoop rounds' startTime maxWait
    end
  else ret false.

(** Every round sleeps for at least 500 ms, so [maxWait / 500 + 1]
    rounds are never used up (see [confirmationLoop_returns]). *)
Definition waitForJoinConfirmation (maxWait : Z) : Eff World bool :=
  tryCatch
    (let* startTime := dateNow in
     confirmationLoop (Z.to_nat (maxWait / 500 + 1)) startTime maxWait)
    (fun _ => ret false).

(** A page operation run by a method of the class. *)
Definition onPage {A} (m : Eff World A) : Eff State A :=
  fun s =>
    let '(r, w) := m (world s) in
    (r, {| this := this s; heap := heap s; world := w |}).

(** [this.joinedGroups.push(result)] *)
Definition pushJoined (result : GroupJoinResult) : Eff State unit :=
  fun s =>
    (Ok tt, {| this := this s;
               heap := push (joinedGroups (this s)) result (heap s);
               world := world s |}).

(** [this.failedGroups.push(result)] *)
Definition pushFailed (result : GroupJoinResult) : Eff State unit :=
  fun s =>
    (Ok tt, {| this := this s;
               heap := push (failedGroups (this s)) result (heap s);
               world := world s |}).

Definition withOutcome (result : GroupJoinResult) (ok : bool) (st msg : string)
  : GroupJoinResult :=
  {| url := url result; success := ok; status := st; message := msg;
     timestamp := timestamp result |}.

(** [joinGroup].  The statements of the [try] block that can throw
    run before [result] is first written, so the handler sees the
    initial [result]. *)
Definition joinGroup (groupUrl : string) (options : JoinGroupOptions)
  : Eff State GroupJoinResult :=
  let skip := default false (skipQuestions options) in
  let answers := default ∅ (questionAnswers options) in
  let maxWait := default 30000 (maxWaitTime options) in
  let* now := onPage dateNow in
  let result :=
    {| url := groupUrl; success := false; status := "pending";
       message := EmptyString; timestamp := now |} in
  tryCatch
    (onPage (performUnit env (Goto groupUrl)) ;;;
     onPage (DELAYS_medium env) ;;;
     let* groupStatus := onPage checkGroupStatus in
     if blocked groupStatus then
       let result :=
         withOutcome result false "blocked"
                     (orElse (reason groupStatus) "Group is blocked or private") in
       pushFailed result ;;; ret result
     else
     let* membershipStatus := onPage checkMembershipStatus in
     if isMember membershipStatus then
       let result :=
         withOutcome result true "already_member" "Already a member of this group" in
       pushJoined result ;;; ret result
     else
     let* joinResult := onPage clickJoinButton in
     if negb (clickSuccess joinResult) then
       let result :=
         withOutcome result false "join_failed"
                     (orElse (clickError joinResult) "Join button not found") in
       pushFailed result ;;; ret result
     else
     onPage (DELAYS_medium env) ;;;
     let* questionsHandled := onPage (handleMembershipQuestions skip answers) in
     if negb (clickSuccess questionsHandled) then
       let result :=
         withOutcome result false "questions_failed"
                     (orElse (clickError questionsHandled)
                             "Failed to handle membership questions") in
       pushFailed result ;;; ret result
     else
     let* joinConfirmed := onPage (waitForJoinConfirmation maxWait) in
     if joinConfirmed then
       let result := withOutcome result true "joined" "Successfully joined group" in
       pushJoined result ;;; ret result
     else
       let result :=
         withOutcome result true "pending_approval"
                     "Join request submitted, awaiting approval" in
       pushJoined result ;;; ret result)
    (fun error =>
       let result :=
         withOutcome result false "error" (messageOr error "An unknown error occurred") in
       pushFailed result ;;; ret result).

(** [getJoinedGroups]: [return [...this.joinedGroups]] *)
Definition getJoinedGroups : Eff State loc :=
  fun s =>
    let '(l, h) := spread (joinedGroups (this s)) (heap s) in
    (Ok l, {| this := this s; heap := h; world := world s |}).

(** [getFailedGroups]: [return [...this.failedGroups]] *)
Definition getFailedGroups : Eff State loc :=
  fun s =>
    let '(l, h) := spread (failedGroups (this s)) (heap s) in
    (Ok l, {| this := this s; heap := h; world := world s |}).

End WithEnv.

(** [new GroupManager(page)]: two new empty arrays. *)
Definition create (h : gmap loc (list GroupJoinResult)) (w : World) : State :=
  let '(j, h1) := alloc [] h in
  let '(f, h2) := alloc [] h1 in
  {| this := {| joinedGroups := j; failedGroups := f |}; heap := h2; world := w |}.

(** [reset()] *)
Definition reset (s : State) : State := create (heap s) (world s).

(** The two fields refer to two different arrays of the heap. *)
Definition wellFormed (s : State) : Prop :=
  (joinedGroups (this s) ∈ dom (heap s)) /\
  (failedGroups (this s) ∈ dom (heap s)) /\
  joinedGroups (this s) <> failedGroups (this s).

(** The results recorded so far, in each list. *)
Definition joined (s : State) : list GroupJoinResult :=
  elems (joinedGroups (this s)) (heap s).

Definition failed (s : State) : list GroupJoinResult :=
  elems (failedGroups (this s)) (heap s).

(** A method that leaves the fields and both lists alone. *)
Definition keepsLists {A} (m : Eff State A) : Prop :=
  forall s res s', m s = (res, s') -> this s' = this s /\ heap s' = heap s.

(** The result [r] has been appended to the joined list when it is a
    success and to the failure list when it is not. *)
Definition recorded (r : GroupJoinResult) (s s' : State) : Prop :=
  this s' = this s /\
  ((success r = true /\ heap s' = push (joinedGroups (this s)) r (heap s)) \/
   (success r = false /\ heap s' = push (failedGroups (this s)) r (heap s))).

(** A piece of [joinGroup]: a returned result has been recorded, and a
    failure left the lists alone. *)
Definition recordsResult (m : Eff State GroupJoinResult) : Prop :=
  forall s res s',
    m s = (res, s') ->
    match res with
    | Ok r => recorded r s s'
    | _ => this s' = this s /\ heap s' = heap s
    end.

(** An action on a join control: a query for one of [joinSelectors], or
    any scroll, pointer move or click. *)
Definition joinControlAction (a : action) : bool :=
  match a with
  | IsVisible selector => bool_decide (selector ∈ joinSelectors)
  | ScrollIntoView _ | BoundingBox _ | MouseMove _ | Click _ => true
  | _ => false
  end.

End GroupManager.

(** ** Session store ([SessionManager]) *)

Module SessionManager.
Import JsString Effects Utils Selectors.

Record State := {
  sessionFile : string;
  session : option SessionData;
  world : World
}.

(** [24 * 60 * 60 * 1000] *)
Definition maxAge : Z := 24 * 60 * 60 * 1000.

Definition loggedInIndicators : list string :=
  [ testid "blue_bar"; "[role=" +:+ q "banner" +:+ "]";
    testid "news_feed"; testid "left_nav_menu" ].

Definition loggedInUrls : list string :=
  [ "facebook.com/home"; "facebook.com/?sk="; "facebook.com/profile" ].

(** [sessionAge > maxAge]; a comparison with NaN is false. *)
Definition tooOld (now : Z) (sessionData : SessionData) : bool :=
  match timestamp sessionData with
  | Some t => now - t >? maxAge
  | None => false
  end.

Section WithEnv.
Context (env : Env).

Definition verifyLogin : Eff World bool :=
  tryCatch
    (DELAYS_short env ;;;
     let* loginForm := isElementVisible env LOGIN_loginForm in
     if loginForm then ret false
     else
       let* shown := anyVisible env loggedInIndicators in
       if shown then ret true
       else
         let* url := pageUrl env in
         ret (existsb (fun pattern => includes url pattern) loggedInUrls))
    (fun _ => ret false).

Definition onPage {A} (m : Eff World A) : Eff State A :=
  fun s =>
    let '(r, w) := m (world s) in
    (r, {| sessionFile := sessionFile s; session := session s; world := w |}).

(** [this.session = sessionData] *)
Definition setSession (sessionData : SessionData) : Eff State unit :=
  fun s =>
    (Ok tt, {| sessionFile := sessionFile s; session := Some sessionData;
               world := world s |}).

Definition loadSession : Eff State bool :=
  tryCatch
    (let* file := (fun s => (Ok (sessionFile s), s)) in
     let* found := onPage (perform env (PathExists file) (saysBool env)) in
     if negb found then ret false
     else
     let* sessionData := onPage (perform env (ReadJson file) (saysSession env)) in
     let* now := onPage dateNow in
     if tooOld now sessionData then ret false
     else
     (match cookies sessionData with
      | [] => ret tt
      | cs => onPage (performUnit env (AddCookies cs))
      end) ;;;
     onPage (performUnit env (Goto "https://www.facebook.com")) ;;;
     onPage (DELAYS_medium env) ;;;
     (match localStorage sessionData with
      | Some entries => onPage (performUnit env (SetLocalStorage entries))
      | None => ret tt
      end) ;;;
     (match sessionStorage sessionData with
      | Some entries => onPage (performUnit env (SetSessionStorage entries))
      | None => ret tt
      end) ;;;
     onPage (performUnit env Reload) ;;;
     onPage (DELAYS_long env) ;;;
     let* isLoggedIn := onPage verifyLogin in
     if isLoggedIn then setSession sessionData ;;; ret true
     else ret false)
    (fun _ => ret false).

End WithEnv.

(** The actions by which [loadSession] puts stored state back into the
    browser. *)
Definition restores (a : action) : bool :=
  match a with
  | AddCookies _ | SetLocalStorage _ | SetSessionStorage _ | Goto _ | Reload => true
  | _ => false
  end.

End SessionManager.

(** ** Post creation ([PostManager]) *)

Module PostManager.
Import JsString Effects Utils Selectors Arrays.

(** [PostData]: a field left out is [None]. *)
Record PostData := {
  postMessage : option string;
  imagePaths : option (list string);
  groupUrl : option string;
  waitForConfirmation : option bool
}.

Record PostResult := {
  success : bool;
  message : string;
  timestamp : Z;
  postData : PostData;
  error : option string
}.

Record ClickResult := { clickSuccess : bool; clickError : option string }.

Record Fields := { createdPosts : loc; failedPosts : loc }.

Record State := {
  this : Fields;
  heap : gmap loc (list PostResult);
  world : World
}.

Definition contentEditable : string := "[contenteditable=" +:+ q "true" +:+ "]".
Definition roleTextbox : string := "[role=" +:+ q "textbox" +:+ "]".
Definition fileInputImage : string :=
  "input[type=" +:+ q "file" +:+ "][accept*=" +:+ q "image" +:+ "]".
Definition spinner : string := "[role=" +:+ q "progressbar" +:+ "]".

Definition postSelectors : list string :=
  [ testid "status-attachment-mentions-input";
    testid "group_mall_post_button";
    hasText roleButton "Write something";
    hasText roleButton "Write something";
    hasText roleButton "What's on your mind";
    testid "status-attachment-mentions-input";
    "div" +:+ contentEditable;
    "[data-pagelet=" +:+ q "FeedComposer" +:+ "]" ].

Definition textSelectors : list string :=
  [ testid "status-attachment-mentions-input";
    "div" +:+ roleTextbox +:+ testid "status-attachment-mentions-input";
    "div" +:+ contentEditable +:+ roleTextbox;
    "div" +:+ roleTextbox +:+ contentEditable;
    "textarea[placeholder*=" +:+ q "mind" +:+ "]";
    "div" +:+ testid "status-attachment-mentions-input" ].

Definition photoButtonSelectors : list string :=
  [ testid "mwthreadcomposer-photo-video-attachment";
    testid "mwthreadcomposer-photo-video-attachment";
    roleButton +:+ "[aria-label*=" +:+ q "Photo" +:+ "]";
    roleButton +:+ "[aria-label*=" +:+ q "photo" +:+ "]";
    fileInputImage ].

Definition fileInputSelectors : list string :=
  [ fileInputImage; "input[type=" +:+ q "file" +:+ "]"; fileInputImage ].

Definition postButtonSelectors : list string :=
  [ testid "react-composer-post-button";
    hasText roleButton "Post";
    hasText roleButton "Post";
    hasText roleButton "Share";
    testid "react-composer-post-button" ].

Definition succeeded : ClickResult := {| clickSuccess := true; clickError := None |}.
Definition failedWith (msg : string) : ClickResult :=
  {| clickSuccess := false; clickError := Some msg |}.

Section WithEnv.
Context (env : Env).

(** [navigateToGroup]: the handler logs and throws again. *)
Definition navigateToGroup (url : string) : Eff World unit :=
  tryCatch
    (performUnit env (Goto url) ;;;
     DELAYS_medium env ;;;
     SCROLL_natural env 200)
    (fun error => throw error).

Fixpoint postButtonLoop (selectors : list string) : Eff World (option ClickResult) :=
  match selectors with
  | [] => ret None
  | selector :: rest =>
      let* clicked :=
        tryCatch
          (let* visible := isElementVisible env selector in
           if visible then
             SCROLL_toElement env selector ;;;
             DELAYS_short env ;;;
             humanClick env selector ;;;
             DELAYS_long env ;;;
             ret (Some succeeded)
           else ret None)
          (fun _ => ret None) in
      match clicked with
      | Some r => ret (Some r)
      | None => postButtonLoop rest
      end
  end.

Definition findAndClickPostButton : Eff World ClickResult :=
  tryCatch
    (let* clicked := postButtonLoop postSelectors in
     match clicked with
     | Some r => ret r
     | None => ret (failedWith "Post creation button not found")
     end)
    (fun error => ret (failedWith (messageOr error "An unknown error occurred"))).

(** The loop of [typePostMessage]; the result is [textAreaFound]. *)
Fixpoint textAreaLoop (text : string) (selectors : list string) : Eff World bool :=
  match selectors with
  | [] => ret false
  | selector :: rest =>
      let* typed :=
        tryCatch
          (let* visible := isElementVisible env selector in
           if visible then
             performUnit env (Click selector) ;;;
             DELAYS_short env ;;;
             performUnit env (KeyboardPress "Control+a") ;;;
             DELAYS_short env ;;;
             humanType env selector text 50 150 true 1 ;;;
             ret true
           else ret false)
          (fun _ => ret false) in
      if typed then ret true else textAreaLoop text rest
  end.

Definition typePostMessage (text : string) : Eff World ClickResult :=
  tryCatch
    (let* textAreaFound := textAreaLoop text textSelectors in
     if negb textAreaFound then ret (failedWith "Text input area not found")
     else DELAYS_medium env ;;; ret succeeded)
    (fun error => ret (failedWith (messageOr error "An unknown error occurred"))).

(** [findFileInput] *)
Fixpoint findFileInput (selectors : list string) : Eff World (option string) :=
  match selectors with
  | [] => ret None
  | selector :: rest =>
      let* visible := isElementVisible env selector in
      if visible then ret (Some selector) else findFileInput rest
  end.

(** [uploadToFileInput]: the handler logs and throws again. *)
Definition uploadToFileInput (selector : string) (paths : list string) : Eff World unit :=
  tryCatch
    (let absolutePaths := map (resolvePath env) paths in
     performUnit env (SetInputFiles selector absolutePaths) ;;;
     DELAYS_long env)
    (fun error => throw error).

(** The disjunction polled by [waitForImageUpload], left to right. *)
Definition uploadComplete : Eff World bool :=
  let* sprouts := perform env (LocatorCount (testid "media-sprout")) (saysN env) in
  if (0 <? sprouts)%N then ret true
  else
    let* imgs := perform env (LocatorCount ".img") (saysN env) in
    if (0 <? imgs)%N then ret true
    else
      let* spinning := isElementVisible env spinner in
      ret (negb spinning).

(** A bounded poll: [while (Date.now() - startTime < maxWait)] around
    a check and a short delay. *)
Fixpoint pollLoop (check : Eff World bool) (rounds : nat) (startTime maxWait : Z)
  : Eff World bool :=
  let* now := dateNow in
  if now - startTime <? maxWait then
    match rounds with
    | O => fun w => (OutOfFuel, w)
    | S rounds' =>
        let* done := check in
        if done then ret true
        else DELAYS_short env ;;; pollLoop check rounds' startTime maxWait
    end
  else ret false.

Definition waitForImageUpload : Eff World bool :=
  tryCatch
    (let maxWait := 30000 in
     let* startTime := dateNow in
     pollLoop uploadComplete (Z.to_nat (maxWait / 500 + 1)) startTime maxWait)
    (fun _ => ret false).

(** The validation loop of [uploadImages]; [Some] is the early
    return. *)
Fixpoint missingImage (paths : list string) : Eff World (option ClickResult) :=
  match paths with
  | [] => ret None
  | imagePath :: rest =>
      let* found := perform env (PathExists imagePath) (saysBool env) in
      if negb found then ret (Some (failedWith ("Image not found: " +:+ imagePath)))
      else missingImage rest
  end.

(** The loop over [photoButtonSelectors]; the result is
    [photoButtonFound]. *)
Fixpoint photoLoop (paths : list string) (selectors : list string) : Eff World bool :=
  match selectors with
  | [] => ret false
  | selector :: rest =>
      let* used :=
        tryCatch
          (let* visible := isElementVisible env selector in
           if visible then
             if includes selector ("input[type=" +:+ q "file" +:+ "]") then
               uploadToFileInput selector paths ;;; ret true
             else
               humanClick env selector ;;;
               DELAYS_medium env ;;;
               let* fileInput := findFileInput fileInputSelectors in
               match fileInput with
               | Some input => uploadToFileInput input paths ;;; ret true
               | None => ret false
               end
           else ret false)
          (fun _ => ret false) in
      if used then ret true else photoLoop paths rest
  end.

Definition uploadImages (paths : list string) : Eff World ClickResult :=
  tryCatch
    (let* missing := missingImage paths in
     match missing with
     | Some r => ret r
     | None =>
         let* photoButtonFound := photoLoop paths photoButtonSelectors in
         if negb photoButtonFound then ret (failedWith "Photo upload button not found")
         else waitForImageUpload ;;; ret succeeded
     end)
    (fun error => ret (failedWith (messageOr error "An unknown error occurred"))).

Fixpoint submitLoop (selectors : list string) : Eff World (option ClickResult) :=
  match selectors with
  | [] => ret None
  | selector :: rest =>
      let* clicked :=
        tryCatch
          (let* visible := isElementVisible env selector in
           if visible then
             humanClick env selector ;;;
             DELAYS_long env ;;;
             ret (Some succeeded)
           else ret None)
          (fun _ => ret None) in
      match clicked with
      | Some r => ret (Some r)
      | None => submitLoop rest
      end
  end.

Definition submitPost : Eff World ClickResult :=
  tryCatch
    (let* clicked := submitLoop postButtonSelectors in
     match clicked with
     | Some r => ret r
     | None => ret (failedWith "Post submit button not found")
     end)
    (fun error => ret (failedWith (messageOr error "An unknown error occurred"))).

(** The disjunction polled by [waitForPostConfirmation]. *)
Definition posted : Eff World bool :=
  let* published := isElementVisible env (hasText "div" "Your post is now published") in
  if published then ret true
  else
    let* seen := isElementVisible env (hasText "div" "Posted") in
    if seen then ret true
    else
      let* spinning := isElementVisible env spinner in
      ret (negb spinning).

Definition waitForPostConfirmation : Eff World bool :=
  tryCatch
    (let maxWait := 20000 in
     let* startTime := dateNow in
     pollLoop posted (Z.to_nat (maxWait / 500 + 1)) startTime maxWait)
    (fun _ => ret false).

Definition onPage {A} (m : Eff World A) : Eff State A :=
  fun s =>
    let '(r, w) := m (world s) in
    (r, {| this := this s; heap := heap s; world := w |}).

(** [this.createdPosts.push(result)] *)
Definition pushCreated (result : PostResult) : Eff State unit :=
  fun s =>
    (Ok tt, {| this := this s;
               heap := push (createdPosts (this s)) result (heap s);
               world := world s |}).

(** [this.failedPosts.push(result)] *)
Definition pushFailed (result : PostResult) : Eff State unit :=
  fun s =>
    (Ok tt, {| this := this s;
               heap := push (failedPosts (this s)) result (heap s);
               world := world s |}).

Definition withError (result : PostResult) (e : option string) : PostResult :=
  {| success := success result; message := message result;
     timestamp := timestamp result; postData := postData result; error := e |}.

Definition withSuccess (result : PostResult) (msg : string) : PostResult :=
  {| success := true; message := msg;
     timestamp := timestamp result; postData := postData result;
     error := error result |}.

(** JavaScript truthiness of a string that may be null. *)
Definition nonEmpty (s : option string) : option string :=
  match s with
  | Some (String c r) => Some (String c r)
  | _ => None
  end.

(** [createPost].  As in [joinGroup], whatever throws inside the
    [try] block does so before [result] is first written. *)
Definition createPost (data : PostData) : Eff State PostResult :=
  let text := default EmptyString (postMessage data) in
  let paths := default [] (imagePaths data) in
  let confirm := default true (waitForConfirmation data) in
  let* now := onPage dateNow in
  let result :=
    {| success := false; message := EmptyString; timestamp := now;
       postData := data; error := None |} in
  tryCatch
    ((match nonEmpty (groupUrl data) with
      | Some url => onPage (navigateToGroup url)
      | None => ret tt
      end) ;;;
     let* postButtonResult := onPage findAndClickPostButton in
     if negb (clickSuccess postButtonResult) then
       let result := withError result (clickError postButtonResult) in
       pushFailed result ;;; ret result
     else
     onPage (DELAYS_medium env) ;;;
     let* messageResult :=
       match text with
       | EmptyString => ret succeeded
       | _ => onPage (typePostMessage text)
       end in
     if negb (clickSuccess messageResult) then
       let result := withError result (clickError messageResult) in
       pushFailed result ;;; ret result
     else
     let* imageResult :=
       match paths with
       | [] => ret succeeded
       | _ => onPage (uploadImages paths)
       end in
     if negb (clickSuccess imageResult) then
       let result := withError result (clickError imageResult) in
       pushFailed result ;;; ret result
     else
     onPage (DELAYS_medium env) ;;;
     let* submitResult := onPage submitPost in
     if negb (clickSuccess submitResult) then
       let result := withError result (clickError submitResult) in
       pushFailed result ;;; ret result
     else
     let* result :=
       if confirm then
         let* confirmed := onPage waitForPostConfirmation in
         if confirmed
         then ret (withSuccess result "Post created and confirmed successfully")
         else ret (withSuccess result "Post submitted but confirmation timeout")
       else ret (withSuccess result "Post submitted successfully") in
     pushCreated result ;;; ret result)
    (fun error =>
       let result :=
         withError result (Some (messageOr error "An unknown error occurred")) in
       pushFailed result ;;; ret result).

(** [getCreatedPosts]: [return [...this.createdPosts]] *)
Definition getCreatedPosts : Eff State loc :=
  fun s =>
    let '(l, h) := spread (createdPosts (this s)) (heap s) in
    (Ok l, {| this := this s; heap := h; world := world s |}).

(** [getFailedPosts]: [return [...this.failedPosts]] *)
Definition getFailedPosts : Eff State loc :=
  fun s =>
    let '(l, h) := spread (failedPosts (this s)) (heap s) in
    (Ok l, {| this := this s; heap := h; world := world s |}).

End WithEnv.

(** [new PostManager(page)] *)
Definition create (h : gmap loc (list PostResult)) (w : World) : State :=
  let '(c, h1) := alloc [] h in
  let '(f, h2) := alloc [] h1 in
  {| this := {| createdPosts := c; failedPosts := f |}; heap := h2; world := w |}.

(** [reset()] *)
Definition reset (s : State) : State := create (heap s) (world s).

(** The two fields refer to two different arrays of the heap. *)
Definition wellFormed (s : State) : Prop :=
  (createdPosts (this s) ∈ dom (heap s)) /\
  (failedPosts (this s) ∈ dom (heap s)) /\
  createdPosts (this s) <> failedPosts (this s).

(** The results recorded so far, in each list. *)
Definition created (s : State) : list PostResult :=
  elems (createdPosts (this s)) (heap s).

Definition failed (s : State) : list PostResult :=
  elems (failedPosts (this s)) (heap s).

(** A method that leaves the fields and both lists alone. *)
Definition keepsLists {A} (m : Eff State A) : Prop :=
  forall s res s', m s = (res, s') -> this s' = this s /\ heap s' = heap s.

(** The result [r] has been appended to the created list when it is a
    success and to the failure list when it is not. *)
Definition recorded (r : PostResult) (s s' : State) : Prop :=
  this s' = this s /\
  ((success r = true /\ heap s' = push (createdPosts (this s)) r (heap s)) \/
   (success r = false /\ heap s' = push (failedPosts (this s)) r (heap s))).

Definition recordsResult (m : Eff State PostResult) : Prop :=
  forall s res s',
    m s = (res, s') ->
    match res with
    | Ok r => recorded r s s'
    | _ => this s' = this s /\ heap s' = heap s
    end.

End PostManager.

(** ** Intervention monitor ([AlertSystem]): waiting for a resolution

    Seen from the monitor's task the intervention flag is a field that it
    writes; the [World] field of the same name is how the orchestrator's
    task sees it. *)

Module AlertSystem.
Import Effects.

Inductive AlertPriority := critical | high | medium | low.

(** The [action] of a [ResolutionAction]. *)
Inductive ResolutionAction := continue | stop | timeout.

(** What [getUserInput] may return besides [null]. *)
Inductive UserInput := inputContinue | inputStop.

Record State := {
  isMonitoring : bool;
  interventionRequired : bool;
  interventionTimeout : Z;
  world : World
}.

Definition onPage {A} (m : Eff World A) : Eff State A :=
  fun s =>
    let '(r, w) := m (world s) in
    (r, {| isMonitoring := isMonitoring s;
           interventionRequired := interventionRequired s;
           interventionTimeout := interventionTimeout s;
           world := w |}).

(** [this.interventionRequired = false] *)
Definition clearFlag : Eff State unit :=
  fun s =>
    (Ok tt, {| isMonitoring := isMonitoring s;
               interventionRequired := false;
               interventionTimeout := interventionTimeout s;
               world := world s |}).

(** [this.isMonitoring = false] *)
Definition stopMonitoringFlag : Eff State unit :=
  fun s =>
    (Ok tt, {| isMonitoring := false;
               interventionRequired := interventionRequired s;
               interventionTimeout := interventionTimeout s;
               world := world s |}).

Section WithEnv.
Context (env : Env).

(** [getUserInput]: the overlay check, then the closing [return]. *)
Definition getUserInput : Eff State (option UserInput) :=
  let* early :=
    tryCatch
      (let* overlayExists := onPage (perform env OverlayExists (saysBool env)) in
       if negb overlayExists then ret (Some (Some inputContinue)) else ret None)
      (fun _ => ret (Some (Some inputContinue))) in
  match early with
  | Some answer => ret answer
  | None => ret (Some inputContinue)
  end.

(** [checkResolution], which re-arms itself with a timer of one second;
    [fuel] bounds the number of timers. *)
Fixpoint checkResolution (fuel : nat) (startTime : Z) : Eff State ResolutionAction :=
  let* input := getUserInput in
  match input with
  | Some inputStop =>
      stopMonitoringFlag ;;; clearFlag ;;; ret stop
  | Some inputContinue =>
      clearFlag ;;; ret continue
  | None =>
      let* now := onPage dateNow in
      let* limit := (fun s => (Ok (interventionTimeout s), s)) in
      if now - startTime >? limit then clearFlag ;;; ret timeout
      else
        match fuel with
        | O => fun s => (OutOfFuel, s)
        | S fuel' => onPage (sleep env 1000) ;;; checkResolution fuel' startTime
        end
  end.

Definition waitForManualResolution (fuel : nat) (priority : AlertPriority)
  : Eff State ResolutionAction :=
  let* startTime := onPage dateNow in
  match priority with
  | low => clearFlag ;;; ret continue
  | _ => checkResolution fuel startTime
  end.

End WithEnv.

End AlertSystem.

(** ** Task orchestrator ([FacebookAutomation]) *)

Module Orchestrator.
Import Effects Utils Arrays.

Record AutomationStats := {
  groupsJoined : Z;
  postsCreated : Z;
  errors : Z;
  interventions : Z
}.

(** The orchestrator after [initialize()]: both managers exist.  The
    stop signal and the monitor's flag are in the [World], because
    other tasks write them. *)
Record State := {
  stats : AutomationStats;
  groupManager : GroupManager.Fields;
  groupHeap : gmap loc (list GroupManager.GroupJoinResult);
  postManager : PostManager.Fields;
  postHeap : gmap loc (list PostManager.PostResult);
  world : World
}.

Definition onWorld {A} (m : Eff World A) : Eff State A :=
  fun s =>
    let '(r, w) := m (world s) in
    (r, {| stats := stats s;
           groupManager := groupManager s; groupHeap := groupHeap s;
           postManager := postManager s; postHeap := postHeap s;
           world := w |}).

(** A call of a method of [this.groupManager]. *)
Definition withGroupManager {A} (m : Eff GroupManager.State A) : Eff State A :=
  fun s =>
    let '(r, g) :=
      m {| GroupManager.this := groupManager s;
           GroupManager.heap := groupHeap s;
           GroupManager.world := world s |} in
    (r, {| stats := stats s;
           groupManager := GroupManager.this g; groupHeap := GroupManager.heap g;
           postManager := postManager s; postHeap := postHeap s;
           world := GroupManager.world g |}).

(** A call of a method of [this.postManager]. *)
Definition withPostManager {A} (m : Eff PostManager.State A) : Eff State A :=
  fun s =>
    let '(r, p) :=
      m {| PostManager.this := postManager s;
           PostManager.heap := postHeap s;
           PostManager.world := world s |} in
    (r, {| stats := stats s;
           groupManager := groupManager s; groupHeap := groupHeap s;
           postManager := PostManager.this p; postHeap := PostManager.heap p;
           world := PostManager.world p |}).

Definition setStats (f : AutomationStats -> AutomationStats) : Eff State unit :=
  fun s =>
    (Ok tt, {| stats := f (stats s);
               groupManager := groupManager s; groupHeap := groupHeap s;
               postManager := postManager s; postHeap := postHeap s;
               world := world s |}).

(** [this.stats.groupsJoined++] *)
Definition countGroupJoined (st : AutomationStats) : AutomationStats :=
  {| groupsJoined := groupsJoined st + 1; postsCreated := postsCreated st;
     errors := errors st; interventions := interventions st |}.

(** [this.stats.postsCreated++] *)
Definition countPostCreated (st : AutomationStats) : AutomationStats :=
  {| groupsJoined := groupsJoined st; postsCreated := postsCreated st + 1;
     errors := errors st; interventions := interventions st |}.

(** [this.stats.errors++] *)
Definition countError (st : AutomationStats) : AutomationStats :=
  {| groupsJoined := groupsJoined st; postsCreated := postsCreated st;
     errors := errors st + 1; interventions := interventions st |}.

(** [this.shouldStop] *)
Definition readShouldStop : Eff State bool :=
  fun s => (Ok (shouldStop (world s)), s).

(** [this.alertSystem.isWaitingForIntervention()] *)
Definition isWaitingForIntervention : Eff World bool :=
  fun w => (Ok (interventionRequired w), w).

Section WithEnv.
Context (env : Env).

(** [while (this.alertSystem.isWaitingForIntervention()) await
    DELAYS.medium()]; nothing in the loop bounds it, so [fuel] does. *)
Fixpoint interventionWait (fuel : nat) : Eff World unit :=
  let* waiting := isWaitingForIntervention in
  if waiting then
    match fuel with
    | O => fun w => (OutOfFuel, w)
    | S fuel' => DELAYS_medium env ;;; interventionWait fuel'
    end
  else ret tt.

(** One round of the loop of [joinGroups], after the stop check. *)
Definition joinItem (fuel : nat) (options : GroupManager.JoinGroupOptions)
           (n i : nat) (groupUrl : string) : Eff State unit :=
  onWorld (interventionWait fuel) ;;;
  tryCatch
    (let* result := withGroupManager (GroupManager.joinGroup env groupUrl options) in
     (if GroupManager.success result
      then setStats countGroupJoined
      else setStats countError) ;;;
     if Z.of_nat i <? Z.of_nat n - 1
     then onWorld (DELAYS_random env 3000 8000)
     else ret tt)
    (fun _ => setStats countError).

(** [for (let i = 0; i < groupUrls.length; i++)] over the URLs from
    index [i] on; [n] is [groupUrls.length]. *)
Fixpoint joinLoop (fuel : nat) (options : GroupManager.JoinGroupOptions)
         (n i : nat) (rest : list string) : Eff State unit :=
  match rest with
  | [] => ret tt
  | groupUrl :: rest' =>
      let* stop := readShouldStop in
      if stop then ret tt
      else
        joinItem fuel options n i groupUrl ;;;
        joinLoop fuel options n (S i) rest'
  end.

Definition joinGroups (fuel : nat) (groupUrls : list string)
           (options : GroupManager.JoinGroupOptions) : Eff State unit :=
  tryCatch
    (joinLoop fuel options (length groupUrls) 0 groupUrls)
    (fun _ => ret tt).

(** [{ ...postTemplate, groupUrl: groupUrl }] *)
Definition preparePost (postTemplate : PostManager.PostData) (groupUrl : string)
  : PostManager.PostData :=
  {| PostManager.postMessage := PostManager.postMessage postTemplate;
     PostManager.imagePaths := PostManager.imagePaths postTemplate;
     PostManager.groupUrl := Some groupUrl;
     PostManager.waitForConfirmation := PostManager.waitForConfirmation postTemplate |}.

(** One round of the loop of [createPosts], after the stop check. *)
Definition postItem (fuel : nat) (postTemplate : PostManager.PostData)
           (n i : nat) (groupUrl : string) : Eff State unit :=
  onWorld (interventionWait fuel) ;;;
  tryCatch
    (let postData := preparePost postTemplate groupUrl in
     let* result := withPostManager (PostManager.createPost env postData) in
     (if PostManager.success result
      then setStats countPostCreated
      else setStats countError) ;;;
     if Z.of_nat i <? Z.of_nat n - 1
     then onWorld (DELAYS_random env 5000 12000)
     else ret tt)
    (fun _ => setStats countError).

Fixpoint postLoop (fuel : nat) (postTemplate : PostManager.PostData)
         (n i : nat) (rest : list string) : Eff State unit :=
  match rest with
  | [] => ret tt
  | groupUrl :: rest' =>
      let* stop := readShouldStop in
      if stop then ret tt
      else
        postItem fuel postTemplate n i groupUrl ;;;
        postLoop fuel postTemplate n (S i) rest'
  end.

Definition createPosts (fuel : nat) (groupUrls : list string)
           (postTemplate : PostManager.PostData) : Eff State unit :=
  tryCatch
    (postLoop fuel postTemplate (length groupUrls) 0 groupUrls)
    (fun _ => ret tt).

(** The rounds of [joinGroups] for the URLs of a list, from index [i]
    on, have run one after the other: each began with a stop check that
    saw no stop signal and ran to its end. *)
Inductive joinedThrough (fuel : nat) (options : GroupManager.JoinGroupOptions) (n : nat)
  : nat -> list string -> State -> State -> Prop :=
| joinedNone (i : nat) (s : State) :
    joinedThrough fuel options n i [] s s
| joinedNext (i : nat) (groupUrl : string) (rest : list string) (s s1 s2 : State) :
    shouldStop (world s) = false ->
    joinItem fuel options n i groupUrl s = (Ok tt, s1) ->
    joinedThrough fuel options n (S i) rest s1 s2 ->
    joinedThrough fuel options n i (groupUrl :: rest) s s2.

(** The same for the rounds of [createPosts]. *)
Inductive postedThrough (fuel : nat) (postTemplate : PostManager.PostData) (n : nat)
  : nat -> list string -> State -> State -> Prop :=
| postedNone (i : nat) (s : State) :
    postedThrough fuel postTemplate n i [] s s
| postedNext (i : nat) (groupUrl : string) (rest : list string) (s s1 s2 : State) :
    shouldStop (world s) = false ->
    postItem fuel postTemplate n i groupUrl s = (Ok tt, s1) ->
    postedThrough fuel postTemplate n (S i) rest s1 s2 ->
    postedThrough fuel postTemplate n i (groupUrl :: rest) s s2.

End WithEnv.

(** The orchestrator's state as each manager sees it. *)
Definition groupView (s : State) : GroupManager.State :=
  {| GroupManager.this := groupManager s;
     GroupManager.heap := groupHeap s;
     GroupManager.world := world s |}.

Definition postView (s : State) : PostManager.State :=
  {| PostManager.this := postManager s;
     PostManager.heap := postHeap s;
     PostManager.world := world s |}.

(** All join results and all post results produced so far. *)
Definition joinResults (s : State) : list GroupManager.GroupJoinResult :=
  GroupManager.joined (groupView s) ++ GroupManager.failed (groupView s).

Definition postResults (s : State) : list PostManager.PostResult :=
  PostManager.created (postView s) ++ PostManager.failed (postView s).

End Orchestrator.

(** ** Concrete scenarios

    Small worlds in which the flows can be run from start to end. *)

Module Scenarios.
Import Effects Selectors.

(** An environment in which no call fails and every call returns at
    once; [visible] says which selectors are on the page, [fileExists]
    answers every path check, [stored] is the content of the session
    file and [stop] tells when [stop()] is called. *)
Definition quiet (visible : string -> bool) (fileExists : bool)
           (stored : SessionData) (stop : list action -> bool) : Env :=
  {| fails := fun _ => None;
     saysBool := fun h =>
       match h with
       | IsVisible selector :: _ => visible selector
       | BoundingBox _ :: _ => true
       | PathExists _ :: _ => fileExists
       | _ => false
       end;
     saysN := fun _ => 0%N;
     saysString := fun _ => EmptyString;
     saysSession := fun _ => stored;
     lag := fun _ => 0%N;
     stopCalled := stop;
     monitorFlag := fun _ => false;
     resolvePath := fun p => p |}.

Definition never (h : list action) : bool := false.

(** The clock reads 1,700,000,000,000 ms at the start. *)
Definition start : World :=
  {| trace := []; clock := 1700000000000; shouldStop := false;
     interventionRequired := false |}.

Definition recordOf (capturedAt : Z) : SessionData :=
  {| cookies := ["c_user=1"]; localStorage := Some [("k", "v")];
     sessionStorage := None; sessionUrl := "https://www.facebook.com/";
     timestamp := Some capturedAt; userAgent := "Mozilla/5.0" |}.

(** A record captured 25 hours before [start], one captured an hour
    before it. *)
Definition staleRecord : SessionData := recordOf (1700000000000 - 25 * 3600000).
Definition freshRecord : SessionData := recordOf (1700000000000 - 3600000).

Definition nothingVisible (selector : string) : bool := false.

Definition envStale : Env := quiet nothingVisible true staleRecord never.
Definition envAbsent : Env := quiet nothingVisible false staleRecord never.

(** The top bar of a logged-in page is visible. *)
Definition envLoggedIn : Env :=
  quiet (fun selector => String.eqb selector (testid "blue_bar")) true freshRecord never.

Definition sessionStart : SessionManager.State :=
  {| SessionManager.sessionFile := "fb-session.json";
     SessionManager.session := None;
     SessionManager.world := start |}.

(** The page shows the restricted notice. *)
Definition restrictedPage (selector : string) : bool :=
  String.eqb selector BLOCKS_restricted.

Definition envBlocked : Env := quiet restrictedPage true staleRecord never.

(** The page of a group with a Join button and no confirmation. *)
Definition joinablePage (selector : string) : bool :=
  String.eqb selector (hasText roleButton "Join")
  || String.eqb selector ("[role=" +:+ q "main" +:+ "]").

Definition envJoinable : Env := quiet joinablePage true staleRecord never.

Definition noOptions : GroupManager.JoinGroupOptions :=
  {| GroupManager.skipQuestions := None;
     GroupManager.questionAnswers := None;
     GroupManager.maxWaitTime := None |}.

Definition groupStart : GroupManager.State := GroupManager.create ∅ start.

Definition postStart : PostManager.State := PostManager.create ∅ start.

(** [stop()] is called during the pause that follows the second item of
    a batch: the pause is the only timer of 3000 ms (joins) or 5000 ms
    (posts) in these scenarios. *)
Fixpoint gotos (h : list action) : nat :=
  match h with
  | [] => 0
  | Goto _ :: earlier => S (gotos earlier)
  | _ :: earlier => gotos earlier
  end.

Definition stopAfterSecond (h : list action) : bool :=
  match h with
  | SetTimeout ms :: earlier =>
      ((ms =? 3000) || (ms =? 5000)) && Nat.eqb (gotos earlier) 2
  | _ => false
  end.

Definition envStopped : Env := quiet restrictedPage true staleRecord stopAfterSecond.

Definition batchStart : Orchestrator.State :=
  {| Orchestrator.stats :=
       {| Orchestrator.groupsJoined := 0; Orchestrator.postsCreated := 0;
          Orchestrator.errors := 0; Orchestrator.interventions := 0 |};
     Orchestrator.groupManager := GroupManager.this groupStart;
     Orchestrator.groupHeap := GroupManager.heap groupStart;
     Orchestrator.postManager := PostManager.this postStart;
     Orchestrator.postHeap := PostManager.heap postStart;
     Orchestrator.world := start |}.

Definition textPost : PostManager.PostData :=
  {| PostManager.postMessage := Some "hello";
     PostManager.imagePaths := None;
     PostManager.groupUrl := None;
     PostManager.waitForConfirmation := None |}.

Definition candidate (u n : string) (members : Z) : Discovery.GroupInfo :=
  {| Discovery.url := u; Discovery.name := n; Discovery.memberCount := members;
     Discovery.isJoined := false; Discovery.relevanceScore := None;
     Discovery.searchKeyword := None |}.

(** The same URL twice, with different names and sizes. *)
Definition candidates : list Discovery.GroupInfo :=
  [ candidate "/groups/1" "Web Developers" 1200;
    candidate "/groups/2" "React" 50;
    candidate "/groups/1" "Web Devs (mirror)" 7 ].

End Scenarios.

(** ** Error classification ([ERROR_HANDLER]) *)

Module ErrorHandler.
Import JsString.

Definition recoverableErrors : list string :=
  [ "timeout"; "navigation"; "network"; "element not found" ].

(** [ERROR_HANDLER.isRecoverable], on the message of the error. *)
Definition isRecoverable (message : string) : bool :=
  existsb (fun type => includes (toLowerCase message) type) recoverableErrors.

End ErrorHandler.

(** ** Interactive group selection ([GroupSelector])

    The terminal is the sequence of lines that the user types: [lines n]
    answers the question number [n], and [asked] counts the questions put
    so far. *)

Module GroupSelector.
Import JsString Discovery Selection Effects.

Record Console := { lines : nat -> string; asked : nat }.

Definition nl : string := String (ascii_of_nat 10) EmptyString.

(** [askQuestion]: the question is printed, the answer comes back
    trimmed. *)
Definition askQuestion (question : string) : Eff Console string :=
  fun c =>
    (Ok (trim (lines c (asked c))), {| lines := lines c; asked := S (asked c) |}).

(** JavaScript truthiness of a string. *)
Definition notEmpty (s : string) : bool :=
  match s with
  | EmptyString => false
  | String _ _ => true
  end.

Definition groupsPath : string := "facebook.com/groups/".

(** [extractUrls] *)
Definition extractUrls (groups : list GroupInfo) : list string :=
  filter (fun url => notEmpty url && includes url groupsPath = true)
         (map url groups).

(** [getManualGroupInput] *)
Definition getManualGroupInput : Eff Console (list string) :=
  tryCatch
    (let* input := askQuestion (nl +:+ "Group URLs: ") in
     if negb (notEmpty input) then ret []
     else
       let urls :=
         filter (fun url =>
                   (0 <? Z.of_nat (String.length url)) && includes url groupsPath = true)
                (map trim (split ","%char input)) in
       ret urls)
    (fun _ => ret []).

(** [groups[index]]: [undefined] outside the array. *)
Definition at_ (groups : list GroupInfo) (index : Z) : option GroupInfo :=
  if index <? 0 then None else groups !! Z.to_nat index.

(** [interactiveSelection]; [filter(Boolean)] drops the indices that
    found no group. *)
Definition interactiveSelection (groups : list GroupInfo) : Eff Console (list string) :=
  tryCatch
    (match groups with
     | [] => ret []
     | _ =>
         let* input := askQuestion (nl +:+ "Enter your selection: ") in
         if String.eqb (toLowerCase input) "all" then ret (extractUrls groups)
         else if String.eqb (toLowerCase input) "none" then ret []
         else
           let selectedIndices := parseSelection input (Z.of_nat (length groups)) in
           let selectedGroups := omap (fun index => at_ groups (index - 1)) selectedIndices in
           ret (extractUrls selectedGroups)
     end)
    (fun _ => ret []).

(** [selectGroups] *)
Definition selectGroups (joinedGroups discoveredGroups : list GroupInfo)
  : Eff Console (list string) :=
  tryCatch
    (if (Z.of_nat (length joinedGroups) =? 0) && (Z.of_nat (length discoveredGroups) =? 0)
     then getManualGroupInput
     else
       let* choice := askQuestion (nl +:+ "Select option (1-5): ") in
       if String.eqb choice "1" then ret (extractUrls joinedGroups)
       else if String.eqb choice "2" then ret (extractUrls discoveredGroups)
       else if String.eqb choice "3"
       then interactiveSelection (joinedGroups ++ discoveredGroups)
       else if String.eqb choice "4"
       then ret (extractUrls (joinedGroups ++ discoveredGroups))
       else if String.eqb choice "5" then getManualGroupInput
       else ret (extractUrls (joinedGroups ++ discoveredGroups)))
    (fun _ => getManualGroupInput).

(** A URL as [getManualGroupInput] gives it back: not empty, without
    white space at either end and without a comma. *)
Definition plain (url : string) : Prop :=
  url <> EmptyString /\ trim url = url /\ includes url "," = false.

(** The indices that one token of a selection stands for: a token with
    a dash stands for the integers from its start to its end, any other
    token for the integer it reads as; both only within 1 and
    [maxIndex]. *)
Definition selects (maxIndex : Z) (part : string) (i : Z) : Prop :=
  if isRange part
  then exists s e,
      rangeStart part = Some s /\ rangeEnd part = Some e /\
      1 <= s /\ s <= i <= e /\ e <= maxIndex
  else parseInt part = Some i /\ 1 <= i <= maxIndex.

End GroupSelector.

(** ** Manual login and session validity ([SessionManager], continued) *)

Module Login.
Import JsString Effects Utils Selectors SessionManager.

(** [300000] and [5000] of [performLogin] *)
Definition maxWaitTime : Z := 300000.
Definition checkInterval : Z := 5000.

Section WithEnv.
Context (env : Env).

(** [while (waitTime < maxWaitTime)] of [performLogin]; [rounds]
    bounds the number of times the body runs. *)
Fixpoint loginLoop (rounds : nat) (waitTime : Z) : Eff World bool :=
  if waitTime <? maxWaitTime then
    match rounds with
    | O => fun w => (OutOfFuel, w)
    | S rounds' =>
        sleep env checkInterval ;;;
        let waitTime := waitTime + checkInterval in
        let* loggedIn := verifyLogin env in
        if loggedIn then
          DELAYS_medium env ;;;
          ret true
        else loginLoop rounds' waitTime
    end
  else ret false.

(** [performLogin]; the counter goes up by [checkInterval] in every
    round, so [maxWaitTime / checkInterval] rounds are never used up. *)
Definition performLogin : Eff World bool :=
  tryCatch
    (performUnit env (Goto "https://www.facebook.com/login") ;;;
     DELAYS_medium env ;;;
     let* already := verifyLogin env in
     if already then ret true
     else
       let waitTime := 0 in
       loginLoop (Z.to_nat (maxWaitTime / checkInterval)) waitTime)
    (fun _ => ret false).

(** [sessionAge <= maxAge]; a comparison with NaN is false. *)
Definition youngEnough (now : Z) (sessionData : SessionData) : bool :=
  match timestamp sessionData with
  | Some t => now - t <=? maxAge
  | None => false
  end.

(** [hasValidSession] *)
Definition hasValidSession : Eff State bool :=
  tryCatch
    (let* file := (fun s => (Ok (sessionFile s), s)) in
     let* found := onPage (perform env (PathExists file) (saysBool env)) in
     if negb found then ret false
     else
     let* sessionData := onPage (perform env (ReadJson file) (saysSession env)) in
     let* now := onPage dateNow in
     ret (youngEnough now sessionData))
    (fun _ => ret false).

(** [getSessionInfo] *)
Definition getSessionInfo : Eff State (option SessionData) :=
  fun s => (Ok (session s), s).

End WithEnv.

(** A check of the file system. *)
Definition isFileCheck (a : action) : Prop :=
  match a with
  | PathExists _ | ReadJson _ => True
  | _ => False
  end.

End Login.

(** ** Searching for groups ([GroupDiscovery.searchGroups])

    How a result page is read into group records is left open: the
    search is modelled for any [extractGroupsFromSearchPage]. *)

Module Search.
Import JsString Discovery Effects Utils.

(** The two list fields of the class, by value. *)
Record State := {
  joinedGroups : list GroupInfo;
  discoveredGroups : list GroupInfo;
  world : World
}.

(** [encodeURIComponent] on code units below 256: letters, digits and
    the marks [- _ . ! ~ * ' ( )] stay, any other character becomes the
    bytes of its UTF-8 encoding, each as a percent sign and two upper
    case hexadecimal digits. *)
Definition unreserved (c : ascii) : bool :=
  let n := code c in
  ((65 <=? n) && (n <=? 90)) || ((97 <=? n) && (n <=? 122)) || ((48 <=? n) && (n <=? 57))
  || existsb (Ascii.eqb c) (list_ascii_of_string "-_.!~*'()").

Definition hexDigit (n : Z) : ascii :=
  ascii_of_N (Z.to_N (if n <? 10 then 48 + n else 55 + n)).

Definition percent (byte : Z) : string :=
  String "%"%char (String (hexDigit (byte / 16)) (String (hexDigit (byte mod 16)) EmptyString)).

Definition encodeChar (c : ascii) : string :=
  let n := code c in
  if unreserved c then String c EmptyString
  else if n <? 128 then percent n
  else percent (192 + n / 64) +:+ percent (128 + n mod 64).

Fixpoint encodeURIComponent (s : string) : string :=
  match s with
  | EmptyString => EmptyString
  | String c rest => encodeChar c +:+ encodeURIComponent rest
  end.

(** [b.relevanceScore || 0] *)
Definition scoreOf (group : GroupInfo) : Z := default 0 (relevanceScore group).

(** The comparator [(a, b) => (b.relevanceScore || 0) - (a.relevanceScore || 0)]. *)
Definition byScore (a b : GroupInfo) : Z := scoreOf b - scoreOf a.

(** [array.sort(compare)]: the sort is stable, so for a comparator that
    orders by a key the result is the one of insertion from the right,
    each element going in front of the first element that must not
    come before it. *)
Fixpoint insertSorted {A : Type} (compare : A -> A -> Z) (x : A) (sorted : list A) : list A :=
  match sorted with
  | [] => [x]
  | y :: rest =>
      if compare x y <=? 0 then x :: y :: rest
      else y :: insertSorted compare x rest
  end.

Fixpoint sortWith {A : Type} (compare : A -> A -> Z) (array : list A) : list A :=
  match array with
  | [] => []
  | x :: rest => insertSorted compare x (sortWith compare rest)
  end.

(** [{ ...group, searchKeyword: keyword, relevanceScore: ... }] *)
Definition withKeyword (keyword : string) (group : GroupInfo) : GroupInfo :=
  {| url := url group; name := name group; memberCount := memberCount group;
     isJoined := isJoined group;
     relevanceScore := Some (calculateRelevanceScore group keyword);
     searchKeyword := Some keyword |}.

Definition onPage {A} (m : Eff World A) : Eff State A :=
  fun s =>
    let '(r, w) := m (world s) in
    (r, {| joinedGroups := joinedGroups s; discoveredGroups := discoveredGroups s;
           world := w |}).

(** [this.discoveredGroups = sortedGroups] *)
Definition setDiscovered (groups : list GroupInfo) : Eff State unit :=
  fun s =>
    (Ok tt, {| joinedGroups := joinedGroups s; discoveredGroups := groups;
               world := world s |}).

Section WithEnv.
Context (env : Env) (extractGroupsFromSearchPage : Eff World (list GroupInfo)).

(** The loop of [scrollToLoadGroups], by the number of cycles left. *)
Fixpoint scrollLoop (cycles : nat) : Eff World unit :=
  match cycles with
  | O => ret tt
  | S cycles' =>
      SCROLL_natural env 800 ;;;
      DELAYS_random env 1000 2000 ;;;
      scrollLoop cycles'
  end.

Definition scrollToLoadGroups (scrollCount : Z) : Eff World unit :=
  tryCatch (scrollLoop (Z.to_nat scrollCount)) (fun _ => ret tt).

(** The loop over the keywords of [searchGroups], with [allGroups]
    threaded through. *)
Fixpoint searchLoop (keywords : list string) (allGroups : list GroupInfo)
  : Eff World (list GroupInfo) :=
  match keywords with
  | [] => ret allGroups
  | keyword :: rest =>
      performUnit env (Goto ("https://www.facebook.com/search/groups/?q="
                             +:+ encodeURIComponent keyword)) ;;;
      DELAYS_long env ;;;
      scrollToLoadGroups 3 ;;;
      let* searchGroups := extractGroupsFromSearchPage in
      let keywordGroups := map (withKeyword keyword) searchGroups in
      let allGroups := allGroups ++ keywordGroups in
      DELAYS_random env 2000 4000 ;;;
      searchLoop rest allGroups
  end.

Definition searchGroups (keywords : list string) : Eff State (list GroupInfo) :=
  tryCatch
    (let* allGroups := onPage (searchLoop keywords []) in
     let uniqueGroups := removeDuplicateGroups allGroups in
     let sortedGroups := sortWith byScore uniqueGroups in
     setDiscovered sortedGroups ;;;
     ret sortedGroups)
    (fun _ => ret []).

End WithEnv.



End Search.

(** ** Outcomes of effectful code *)

Module Outcome.
Import Effects.

(** [m] always ends with a value: it neither throws nor uses up the
    rounds of a bounded loop. *)
Definition returns {S A : Type} (m : Eff S A) : Prop :=
  forall s, exists a s', m s = (Ok a, s').

(** [m] ends with a value or throws. *)
Definition settles {S A : Type} (m : Eff S A) : Prop :=
  forall s, (m s).1 <> OutOfFuel.

(** Every value that [m] ends with satisfies [P]. *)
Definition yields {S A : Type} (P : A -> Prop) (m : Eff S A) : Prop :=
  forall s a s', m s = (Ok a, s') -> P a.

(** However [m] ends, the worlds before and after it are related by
    [R]. *)
Definition always {A : Type} (R : World -> World -> Prop) (m : Eff World A) : Prop :=
  forall w r w', m w = (r, w') -> R w w'.

(** The second world has the history of the first with more actions,
    all satisfying [P], on top. *)
Definition adds (P : action -> Prop) (w w' : World) : Prop :=
  exists new, trace w' = new ++ trace w /\ Forall P new.

(** However [m] ends, it has added to the trace only actions that
    satisfy [P]. *)
Definition emits {A : Type} (P : action -> Prop) (m : Eff World A) : Prop :=
  always (adds P) m.

(** Time has not gone back. *)
Definition notBefore (w w' : World) : Prop := clock w <= clock w'.

(** The text in the focused field after the key events of a history:
    typing appends, Backspace deletes the last character. *)
Fixpoint removeLast (s : string) : string :=
  match s with
  | EmptyString => EmptyString
  | String c EmptyString => EmptyString
  | String c rest => String c (removeLast rest)
  end.

Fixpoint typedText (h : list action) : string :=
  match h with
  | [] => EmptyString
  | KeyboardType text :: earlier => typedText earlier +:+ text
  | KeyboardPress key :: earlier =>
      if String.eqb key "Backspace" then removeLast (typedText earlier)
      else typedText earlier
  | _ :: earlier => typedText earlier
  end.

(** The distance scrolled by the wheel events of a history. *)
Fixpoint scrolled (h : list action) : Z :=
  match h with
  | [] => 0
  | MouseWheel deltaY :: earlier => scrolled earlier + deltaY
  | _ :: earlier => scrolled earlier
  end.

(** When [m] ends with a value, the worlds before and after it are
    related by [R]. *)
Definition relates {A : Type} (R : World -> World -> Prop) (m : Eff World A) : Prop :=
  forall w a w', m w = (Ok a, w') -> R w w'.

(** Between the two worlds the keyboard has added [text] to the field. *)
Definition types (text : string) (w w' : World) : Prop :=
  typedText (trace w') = typedText (trace w) +:+ text.

(** Between the two worlds the wheel has scrolled by [distance]. *)
Definition scrolls (distance : Z) (w w' : World) : Prop :=
  scrolled (trace w') = scrolled (trace w) + distance.

(** A visibility query, which changes nothing on the page. *)
Definition isQuery (a : action) : Prop :=
  match a with
  | IsVisible _ => True
  | _ => False
  end.

End Outcome.

(** ** What the managers record *)

Module Records.
Import Arrays.

(** The statuses that [joinGroup] gives a result, each with the value of
    the success flag that it sets with it. *)
Definition joinStatuses : list (string * bool) :=
  [ ("blocked", false); ("already_member", true); ("join_failed", false);
    ("questions_failed", false); ("joined", true); ("pending_approval", true);
    ("error", false) ].

(** The joined list holds successes only, the failure list failures
    only. *)
Definition joinsBySuccess (s : GroupManager.State) : Prop :=
  Forall (fun r => GroupManager.success r = true) (GroupManager.joined s) /\
  Forall (fun r => GroupManager.success r = false) (GroupManager.failed s).

(** The same for posts; a failed post carries an error text or the
    [undefined] of a step that gave none, a created post carries
    none. *)
Definition postsBySuccess (s : PostManager.State) : Prop :=
  Forall (fun r => PostManager.success r = true) (PostManager.created s) /\
  Forall (fun r => PostManager.success r = false) (PostManager.failed s).

(** The three messages of a created post. *)
Definition createdMessages : list string :=
  [ "Post created and confirmed successfully";
    "Post submitted but confirmation timeout";
    "Post submitted successfully" ].

(** A step of [createPost] that fails says why. *)
Definition explained (r : PostManager.ClickResult) : Prop :=
  PostManager.clickSuccess r = true \/ exists why, PostManager.clickError r = Some why.

End Records.

(** ** Statistics against result lists *)

Module Tally.
Import Orchestrator.

(** By how much each counter of the statistics exceeds the number of
    results that it counts: joined groups, created posts, and failed
    joins and posts together. *)
Definition surplus (s : State) : Z * Z * Z :=
  (groupsJoined (stats s) - Z.of_nat (length (GroupManager.joined (groupView s))),
   postsCreated (stats s) - Z.of_nat (length (PostManager.created (postView s))),
   errors (stats s)
   - Z.of_nat (length (GroupManager.failed (groupView s)))
   - Z.of_nat (length (PostManager.failed (postView s)))).

(** Both managers are well formed. *)
Definition wellFormed (s : State) : Prop :=
  GroupManager.wellFormed (groupView s) /\ PostManager.wellFormed (postView s).

End Tally.

(** ** Waiting for an intervention ([FacebookAutomation] and
    [AlertSystem], continued) *)

Module Intervention.
Import Effects Utils.

(** [new AlertSystem(page, options)]: the timeout is
    [options.interventionTimeout || 300000]. *)
Definition create (interventionTimeout : option Z) (w : World) : AlertSystem.State :=
  {| AlertSystem.isMonitoring := false;
     AlertSystem.interventionRequired := false;
     AlertSystem.interventionTimeout :=
       match interventionTimeout with
       | Some limit => if limit =? 0 then 300000 else limit
       | None => 300000
       end;
     AlertSystem.world := w |}.

(** The actions of one round of the wait loop of a batch item: the
    random draw and the timer of [DELAYS.medium()]. *)
Definition isPoll (a : action) : bool :=
  match a with
  | MathRandom => true
  | SetTimeout ms => (1500 <=? ms) && (ms <=? 3500)
  | _ => false
  end.

Section WithEnv.
Context (env : Env).

(** The world after [polls] rounds of the wait loop. *)
Definition polled (polls : nat) (w : World) : World :=
  Nat.iter polls (afterDelay env 1500 3500) w.

(** The loop reads the flag as set before each of its first [polls]
    rounds and as clear after them. *)
Definition clearsAt (polls : nat) (w : World) : Prop :=
  (forall earlier, (earlier < polls)%nat ->
                   interventionRequired (polled earlier w) = true) /\
  interventionRequired (polled polls w) = false.

End WithEnv.

End Intervention.

(** ** More scenarios *)

Module MoreScenarios.
Import Effects Selectors.

(** A terminal on which the user types the given lines, one per
    question, and empty lines after them. *)
Definition typing (answers : list string) : GroupSelector.Console :=
  {| GroupSelector.lines := fun n => nth n answers EmptyString;
     GroupSelector.asked := 0 |}.

Definition groupUrl (id : string) : string :=
  "https://www.facebook.com/groups/" +:+ id.

(** Three groups on offer, the second with a URL outside Facebook's
    groups. *)
Definition offered : list Discovery.GroupInfo :=
  [ Scenarios.candidate (groupUrl "123") "Web Developers" 1200;
    Scenarios.candidate "https://example.org/456" "React" 50;
    Scenarios.candidate (groupUrl "789") "Frontend" 70000 ].

(** A page that shows the login form together with the top bar. *)
Definition envLoginForm : Env :=
  Scenarios.quiet
    (fun selector =>
       String.eqb selector LOGIN_loginForm || String.eqb selector (testid "blue_bar"))
    true Scenarios.freshRecord Scenarios.never.


(** The restricted notice is on the page, but the navigation to a group
    times out. *)
Definition envUnreachable : Env :=
  {| fails := fun h =>
       match h with
       | Goto _ :: _ => Some (ErrorObject "page.goto: Timeout 30000ms exceeded")
       | _ => None
       end;
     saysBool := saysBool Scenarios.envBlocked;
     saysN := saysN Scenarios.envBlocked;
     saysString := saysString Scenarios.envBlocked;
     saysSession := saysSession Scenarios.envBlocked;
     lag := lag Scenarios.envBlocked;
     stopCalled := stopCalled Scenarios.envBlocked;
     monitorFlag := monitorFlag Scenarios.envBlocked;
     resolvePath := resolvePath Scenarios.envBlocked |}.

(** Every file exists but post2.jpeg. *)
Definition envSecondMissing : Env :=
  {| fails := fails Scenarios.envStale;
     saysBool := fun h =>
       match h with
       | PathExists path :: _ => negb (String.eqb path "post2.jpeg")
       | _ => saysBool Scenarios.envStale h
       end;
     saysN := saysN Scenarios.envStale;
     saysString := saysString Scenarios.envStale;
     saysSession := saysSession Scenarios.envStale;
     lag := lag Scenarios.envStale;
     stopCalled := stopCalled Scenarios.envStale;
     monitorFlag := monitorFlag Scenarios.envStale;
     resolvePath := resolvePath Scenarios.envStale |}.

Fixpoint timers (h : list action) : nat :=
  match h with
  | [] => 0
  | SetTimeout _ :: earlier => S (timers earlier)
  | _ :: earlier => timers earlier
  end.

(** The monitor's flag is found set until [held] timers have run: a
    popup that stays on the page is detected again after each
    resolution. *)
Definition envHeld (held : nat) : Env :=
  {| fails := fails Scenarios.envJoinable;
     saysBool := saysBool Scenarios.envJoinable;
     saysN := saysN Scenarios.envJoinable;
     saysString := saysString Scenarios.envJoinable;
     saysSession := saysSession Scenarios.envJoinable;
     lag := lag Scenarios.envJoinable;
     stopCalled := stopCalled Scenarios.envJoinable;
     monitorFlag := fun h => Nat.ltb (timers h) held;
     resolvePath := resolvePath Scenarios.envJoinable |}.

(** The flag is up when the batch item begins. *)
Definition raised : World :=
  {| trace := []; clock := 1700000000000; shouldStop := false;
     interventionRequired := true |}.

Definition batchRaised : Orchestrator.State :=
  {| Orchestrator.stats := Orchestrator.stats Scenarios.batchStart;
     Orchestrator.groupManager := Orchestrator.groupManager Scenarios.batchStart;
     Orchestrator.groupHeap := Orchestrator.groupHeap Scenarios.batchStart;
     Orchestrator.postManager := Orchestrator.postManager Scenarios.batchStart;
     Orchestrator.postHeap := Orchestrator.postHeap Scenarios.batchStart;
     Orchestrator.world := raised |}.

End MoreScenarios.

(** * Properties *)

(** ** Discovery and ranking *)

Section DiscoveryFacts.
Import JsString Discovery.

(** The word loop of [calculateRelevanceScore] adds 10 for each word that
    the name includes. *)
Lemma word_loop_counts (name : string) (words : list string) (score : Z) :
  fold_left (fun score word => if includes name word then score + 10 else score)
            words score
  = score + 10 * Z.of_nat (length (filter (fun w => includes name w = true) words)).
Proof.
  revert score.
  induction words as [|w ws IH]; intros score; simpl.
  - lia.
  - rewrite IH. rewrite filter_cons.
    destruct (includes name w) eqn:Hw.
    + rewrite decide_True by reflexivity. simpl length. lia.
    + rewrite decide_False by discriminate. lia.
Qed.

(** Whenever the lower-cased text includes the letter m, the count is
    scaled by one million, whatever [includes] says about the letter k. *)
Lemma parseMemberCount_m_wins (c : ascii) (rest : string) :
  includes (toLowerCase (String c rest)) "m" = true ->
  parseMemberCount (String c rest)
  = match parseFloat (keepNumeric (String c rest)) with
    | None => 0
    | Some num => floorScaled num 1000000
    end.
Proof.
  intros Hm. unfold parseMemberCount. rewrite Hm. reflexivity.
Qed.

(** [C1] The code evaluated on the three texts of the claim: a count
    written with a K and followed by the word members is scaled by one
    million, not by one thousand, because the lower-cased text includes
    the letter m of members; the other two texts give 3,000,000 and 0. *)
Theorem parseMemberCount_examples :
  parseMemberCount "1.2K members" = 1200000 /\
  parseMemberCount "3M members" = 3000000 /\
  parseMemberCount "members" = 0.
Proof. repeat split; vm_compute; reflexivity. Qed.

(** [C2] [calculateRelevanceScore] is 50 for a full keyword match, plus 10
    for each space-separated keyword word found in the name, plus the
    member bonus (20 above 50,000, else 10 above 10,000), capped at 100;
    a group named Web Development Group with 60,000 members scores 90 for
    the keyword web development. *)
Theorem calculateRelevanceScore_spec :
  (forall group keyword,
      calculateRelevanceScore group keyword = relevanceSpec group keyword) /\
  (forall u joined score kw,
      calculateRelevanceScore
        {| url := u; name := "Web Development Group"; memberCount := 60000;
           isJoined := joined; relevanceScore := score; searchKeyword := kw |}
        "web development" = 90).
Proof.
  split.
  - intros group keyword.
    unfold calculateRelevanceScore, relevanceSpec, containsIgnoringCase,
      keywordWords, memberBonus.
    rewrite word_loop_counts.
    rewrite !Z.gtb_ltb.
    destruct (includes (toLowerCase (name group)) (toLowerCase keyword));
      destruct (50000 <? memberCount group);
      destruct (10000 <? memberCount group); f_equal; lia.
  - intros. vm_compute. reflexivity.
Qed.

(** The [seen] set of [removeDuplicateGroups] holds the URLs of the
    candidates already visited. *)
Lemma filterSeen_keepFirst (groups earlier : list GroupInfo) (seen : gset string) :
  (forall u, u ∈ seen <-> u ∈ url <$> earlier) ->
  filterSeen seen groups = keepFirstOccurrences earlier groups.
Proof.
  revert earlier seen.
  induction groups as [|g rest IH]; intros earlier seen Hseen; simpl; [reflexivity|].
  destruct (decide (url g ∈ seen)) as [Hin|Hout].
  - rewrite decide_True by (apply Hseen; exact Hin).
    apply IH. intros u.
    rewrite fmap_app, elem_of_app, <- Hseen. simpl.
    rewrite list_elem_of_singleton.
    split; [tauto|]. intros [H| ->]; assumption.
  - rewrite decide_False by (rewrite <- Hseen; exact Hout).
    f_equal. apply IH. intros u.
    rewrite fmap_app, elem_of_app, <- Hseen. simpl.
    rewrite list_elem_of_singleton, elem_of_union, elem_of_singleton. tauto.
Qed.

Lemma filterSeen_sublist (groups : list GroupInfo) (seen : gset string) :
  sublist (filterSeen seen groups) groups.
Proof.
  revert seen. induction groups as [|g rest IH]; intros seen; simpl.
  - constructor.
  - destruct (decide (url g ∈ seen)).
    + apply sublist_cons. apply IH.
    + apply sublist_skip. apply IH.
Qed.

Lemma filterSeen_fresh (groups : list GroupInfo) (seen : gset string) (u : string) :
  u ∈ url <$> filterSeen seen groups -> u ∉ seen.
Proof.
  revert seen. induction groups as [|g rest IH]; intros seen; simpl.
  - intros H. inversion H.
  - destruct (decide (url g ∈ seen)) as [Hin|Hout].
    + apply IH.
    + rewrite fmap_cons, elem_of_cons. intros [->|H]; [exact Hout|].
      apply IH in H. rewrite elem_of_union in H. tauto.
Qed.

Lemma filterSeen_NoDup (groups : list GroupInfo) (seen : gset string) :
  NoDup (url <$> filterSeen seen groups).
Proof.
  revert seen. induction groups as [|g rest IH]; intros seen; simpl.
  - constructor.
  - destruct (decide (url g ∈ seen)) as [Hin|Hout].
    + apply IH.
    + rewrite fmap_cons. apply NoDup_cons. split; [|apply IH].
      intros H. apply filterSeen_fresh in H.
      rewrite elem_of_union, elem_of_singleton in H. tauto.
Qed.

Lemma filterSeen_covers (groups : list GroupInfo) (seen : gset string) (g : GroupInfo) :
  g ∈ groups -> url g ∉ seen -> url g ∈ url <$> filterSeen seen groups.
Proof.
  revert seen. induction groups as [|g0 rest IH]; intros seen Hg Hout; simpl.
  - inversion Hg.
  - apply elem_of_cons in Hg.
    destruct (decide (url g0 ∈ seen)) as [Hin|Hnew].
    + destruct Hg as [->|Hg]; [contradiction|]. apply IH; assumption.
    + rewrite fmap_cons, elem_of_cons.
      destruct (decide (url g = url g0)) as [Heq|Hne]; [left; exact Heq|].
      right. destruct Hg as [->|Hg]; [contradiction|].
      apply IH; [assumption|].
      rewrite elem_of_union, elem_of_singleton. tauto.
Qed.

(** [C3] [removeDuplicateGroups] keeps a candidate exactly when no earlier
    candidate of the input has the same URL, whatever its other fields;
    the kept candidates are in input order, no URL is kept twice and
    every URL of the input is kept once. *)
Theorem removeDuplicateGroups_first_occurrence (groups : list GroupInfo) :
  removeDuplicateGroups groups = keepFirstOccurrences [] groups /\
  sublist (removeDuplicateGroups groups) groups /\
  NoDup (url <$> removeDuplicateGroups groups) /\
  (forall g, g ∈ groups -> url g ∈ url <$> removeDuplicateGroups groups).
Proof.
  unfold removeDuplicateGroups. repeat split.
  - apply filterSeen_keepFirst. intros u. simpl.
    rewrite elem_of_empty, elem_of_nil. tauto.
  - apply filterSeen_sublist.
  - apply filterSeen_NoDup.
  - intros g Hg. apply filterSeen_covers; [exact Hg|]. apply not_elem_of_empty.
Qed.

End DiscoveryFacts.

(** ** Selection parsing *)

Section SelectionFacts.
Import JsString Selection.

Lemma setAdd_indexSet (maxIndex i : Z) (indices : list Z) :
  indexSet maxIndex indices -> 1 <= i <= maxIndex ->
  indexSet maxIndex (setAdd i indices).
Proof.
  intros [Hnd Hall] Hi. unfold setAdd.
  destruct (decide (i ∈ indices)) as [Hin|Hout]; [split; assumption|].
  split.
  - apply NoDup_app. repeat split; [assumption| |apply NoDup_singleton].
    intros x Hx Hx'. apply list_elem_of_singleton in Hx'. subst. contradiction.
  - apply Forall_app. split; [assumption|]. constructor; [assumption|constructor].
Qed.

Lemma addRange_indexSet (maxIndex : Z) (n : nat) (i : Z) (indices : list Z) :
  indexSet maxIndex indices -> 1 <= i -> i + Z.of_nat n - 1 <= maxIndex ->
  indexSet maxIndex (addRange n i indices).
Proof.
  revert i indices. induction n as [|n IH]; intros i indices Hset Hlo Hhi; simpl.
  - exact Hset.
  - apply IH; [|lia|lia]. apply setAdd_indexSet; [exact Hset|lia].
Qed.

Lemma addPart_indexSet (maxIndex : Z) (indices : list Z) (part : string) :
  indexSet maxIndex indices -> indexSet maxIndex (addPart maxIndex indices part).
Proof.
  intros Hset. unfold addPart.
  destruct (includes part "-").
  - destruct (nth 0 _ None) as [s|] eqn:Hs; [|exact Hset].
    destruct (nth 1 _ None) as [e|] eqn:He; [|exact Hset].
    destruct (truthy (Some s) && truthy (Some e) && (s <=? e) && (1 <=? s)
              && (e <=? maxIndex)) eqn:Hguard; [|exact Hset].
    repeat (apply andb_prop in Hguard; destruct Hguard as [Hguard ?]).
    apply addRange_indexSet; [exact Hset|lia|lia].
  - destruct (parseInt part) as [n|] eqn:Hn; [|exact Hset].
    destruct (truthy (Some n) && (1 <=? n) && (n <=? maxIndex)) eqn:Hguard;
      [|exact Hset].
    repeat (apply andb_prop in Hguard; destruct Hguard as [Hguard ?]).
    apply setAdd_indexSet; [exact Hset|lia].
Qed.

Lemma parts_indexSet (maxIndex : Z) (parts : list string) (indices : list Z) :
  indexSet maxIndex indices ->
  indexSet maxIndex (fold_left (addPart maxIndex) parts indices).
Proof.
  revert indices. induction parts as [|p ps IH]; intros indices Hset; simpl.
  - exact Hset.
  - apply IH, addPart_indexSet, Hset.
Qed.

(** An ascending list without repetition is strictly ascending. *)
Lemma ascending_NoDup_strict (l : list Z) :
  StronglySorted Z.le l -> NoDup l -> StronglySorted Z.lt l.
Proof.
  induction 1 as [|x l Hsorted IH Hx]; intros Hnd; [constructor|].
  apply NoDup_cons in Hnd. destruct Hnd as [Hout Hnd].
  constructor; [apply IH, Hnd|].
  rewrite Forall_forall in Hx |- *. intros y Hy.
  specialize (Hx y Hy).
  assert (x <> y) by (intros ->; contradiction). lia.
Qed.

(** A token that is malformed, zero, negative or out of range leaves the
    index set as it is. *)
Lemma rejected_adds_nothing (maxIndex : Z) (indices : list Z) (part : string) :
  rejected maxIndex part -> addPart maxIndex indices part = indices.
Proof.
  unfold rejected, addPart, isRange, rangeStart, rangeEnd.
  destruct (includes part "-").
  - destruct (nth 0 _ None) as [s|]; [|reflexivity].
    destruct (nth 1 _ None) as [e|]; [|reflexivity].
    simpl. intros Hrej.
    destruct (negb (s =? 0) && negb (e =? 0) && (s <=? e) && (1 <=? s)
              && (e <=? maxIndex)) eqn:Hguard; [|reflexivity].
    repeat (apply andb_prop in Hguard; destruct Hguard as [Hguard ?]).
    apply negb_true_iff in Hguard. apply negb_true_iff in H2. lia.
  - destruct (parseInt part) as [n|]; [|reflexivity].
    simpl. intros Hrej.
    destruct (negb (n =? 0) && (1 <=? n) && (n <=? maxIndex)) eqn:Hguard;
      [|reflexivity].
    repeat (apply andb_prop in Hguard; destruct Hguard as [Hguard ?]).
    lia.
Qed.


End SelectionFacts.

(** ** Result lists are handed out as copies *)

Section ArrayFacts.
Import Effects Arrays.
Context {A : Type}.

Lemma alloc_fresh (xs : list A) (h : gmap loc (list A)) :
  (alloc xs h).1 ∉ dom h.
Proof. unfold alloc. simpl. apply is_fresh. Qed.

Lemma elems_alloc_new (xs : list A) (h : gmap loc (list A)) :
  elems (alloc xs h).1 (alloc xs h).2 = xs.
Proof. unfold alloc, elems. simpl. rewrite lookup_insert_eq. reflexivity. Qed.

Lemma elems_alloc_old (xs : list A) (h : gmap loc (list A)) (r : loc) :
  r ∈ dom h -> elems r (alloc xs h).2 = elems r h.
Proof.
  intros Hr. unfold alloc, elems. simpl.
  rewrite lookup_insert_ne; [reflexivity|].
  intros <-. exact (is_fresh (dom h) Hr).
Qed.

Lemma elems_mutate_other (l r : loc) (f : list A -> list A) (h : gmap loc (list A)) :
  l <> r -> elems r (mutate l f h) = elems r h.
Proof. intros Hne. unfold elems, mutate. rewrite lookup_alter_ne; auto. Qed.

Lemma dom_alloc (xs : list A) (h : gmap loc (list A)) (r : loc) :
  r ∈ dom h -> r ∈ dom (alloc xs h).2.
Proof.
  intros Hr. unfold alloc. simpl. rewrite dom_insert_L, elem_of_union. tauto.
Qed.

Lemma elems_push_same (l : loc) (x : A) (h : gmap loc (list A)) :
  l ∈ dom h -> elems l (push l x h) = elems l h ++ [x].
Proof.
  intros Hl. apply elem_of_dom in Hl. destruct Hl as [xs Hxs].
  unfold elems, push. rewrite lookup_alter_eq, Hxs. reflexivity.
Qed.

Lemma elems_push_other (l r : loc) (x : A) (h : gmap loc (list A)) :
  l <> r -> elems r (push l x h) = elems r h.
Proof. intros Hne. unfold elems, push. rewrite lookup_alter_ne; auto. Qed.

Lemma dom_push (l : loc) (x : A) (h : gmap loc (list A)) :
  dom (push l x h) = dom h.
Proof. unfold push. apply dom_alter_L. Qed.

(** The spread of an array of the heap is a copy of it. *)
Lemma spread_isCopyOf (src : loc) (h : gmap loc (list A)) :
  src ∈ dom h -> isCopyOf src h (spread src h).1 (spread src h).2.
Proof.
  intros Hsrc. unfold isCopyOf, spread. repeat split.
  - apply alloc_fresh.
  - apply elems_alloc_new.
  - intros r f Hr. rewrite elems_mutate_other.
    + apply elems_alloc_old, Hr.
    + intros Heq. apply (alloc_fresh (elems src h) h). rewrite Heq. exact Hr.
Qed.

(** Two spreads in a row give two arrays with equal elements. *)
Lemma spread_twice (src : loc) (h : gmap loc (list A)) :
  src ∈ dom h ->
  let h1 := (spread src h).2 in
  let l1 := (spread src h).1 in
  let h2 := (spread src h1).2 in
  let l2 := (spread src h1).1 in
  l1 <> l2 /\ elems l1 h2 = elems l2 h2.
Proof.
  intros Hsrc h1 l1 h2 l2.
  assert (Hl1 : l1 ∈ dom h1).
  { unfold h1, l1, spread, alloc. simpl. rewrite dom_insert_L, elem_of_union,
      elem_of_singleton. tauto. }
  assert (Hsrc1 : src ∈ dom h1) by (apply dom_alloc, Hsrc).
  split.
  - intros Heq. apply (alloc_fresh (elems src h1) h1).
    fold (spread src h1). fold l2. rewrite <- Heq. exact Hl1.
  - unfold h2, l2, spread. rewrite elems_alloc_new, elems_alloc_old by exact Hl1.
    unfold l1, h1, spread. rewrite elems_alloc_new.
    symmetry. apply elems_alloc_old, Hsrc.
Qed.

(** What a caller of a spread can rely on. *)
Lemma spread_contract (src : loc) (h : gmap loc (list A)) :
  src ∈ dom h ->
  exists l h1,
    spread src h = (l, h1) /\ isCopyOf src h l h1 /\
    exists l2 h2,
      spread src h1 = (l2, h2) /\ l2 <> l /\ elems l2 h2 = elems l h2.
Proof.
  intros Hsrc.
  pose proof (spread_isCopyOf src h Hsrc) as Hcopy.
  pose proof (spread_twice src h Hsrc) as Htwice. cbv zeta in Htwice.
  destruct (spread src h) as [l h1] eqn:E. cbn [fst snd] in Hcopy, Htwice.
  exists l, h1. split; [reflexivity|]. split; [exact Hcopy|].
  destruct (spread src h1) as [l2 h2] eqn:E2. cbn [fst snd] in Htwice.
  exists l2, h2. split; [reflexivity|].
  destruct Htwice as [Hne Heq]. split; [congruence|symmetry; exact Heq].
Qed.

End ArrayFacts.

Section CopyFacts.
Import Effects Arrays.

(** [C9] [getJoinedGroups] and [getFailedGroups] return a new array with
    the elements of the manager's list: the fields and the world stay as
    they were, any in-place change of the returned array leaves both lists
    of the manager as before the call, and a second call right after the
    first returns an array with equal elements.  The same holds for
    [getCreatedPosts] and [getFailedPosts] of the post manager. *)
Theorem getters_return_copies :
  (forall s : GroupManager.State,
      GroupManager.wellFormed s ->
      (exists l s',
          GroupManager.getJoinedGroups s = (Ok l, s') /\
          GroupManager.this s' = GroupManager.this s /\
          GroupManager.world s' = GroupManager.world s /\
          isCopyOf (GroupManager.joinedGroups (GroupManager.this s))
                   (GroupManager.heap s) l (GroupManager.heap s') /\
          exists l2 s2,
            GroupManager.getJoinedGroups s' = (Ok l2, s2) /\ l2 <> l /\
            elems l2 (GroupManager.heap s2) = elems l (GroupManager.heap s2)) /\
      (exists l s',
          GroupManager.getFailedGroups s = (Ok l, s') /\
          GroupManager.this s' = GroupManager.this s /\
          GroupManager.world s' = GroupManager.world s /\
          isCopyOf (GroupManager.failedGroups (GroupManager.this s))
                   (GroupManager.heap s) l (GroupManager.heap s') /\
          exists l2 s2,
            GroupManager.getFailedGroups s' = (Ok l2, s2) /\ l2 <> l /\
            elems l2 (GroupManager.heap s2) = elems l (GroupManager.heap s2))) /\
  (forall s : PostManager.State,
      PostManager.wellFormed s ->
      (exists l s',
          PostManager.getCreatedPosts s = (Ok l, s') /\
          PostManager.this s' = PostManager.this s /\
          PostManager.world s' = PostManager.world s /\
          isCopyOf (PostManager.createdPosts (PostManager.this s))
                   (PostManager.heap s) l (PostManager.heap s') /\
          exists l2 s2,
            PostManager.getCreatedPosts s' = (Ok l2, s2) /\ l2 <> l /\
            elems l2 (PostManager.heap s2) = elems l (PostManager.heap s2)) /\
      (exists l s',
          PostManager.getFailedPosts s = (Ok l, s') /\
          PostManager.this s' = PostManager.this s /\
          PostManager.world s' = PostManager.world s /\
          isCopyOf (PostManager.failedPosts (PostManager.this s))
                   (PostManager.heap s) l (PostManager.heap s') /\
          exists l2 s2,
            PostManager.getFailedPosts s' = (Ok l2, s2) /\ l2 <> l /\
            elems l2 (PostManager.heap s2) = elems l (PostManager.heap s2))).
Proof.
  split; intros [this heap world] (Hj & Hf & _); simpl in Hj, Hf; split.
  - destruct (spread_contract _ _ Hj) as (l & h1 & E & Hcopy & l2 & h2 & E2 & Hne & Heq).
    unfold GroupManager.getJoinedGroups. cbn [GroupManager.this GroupManager.heap].
    rewrite E. eexists _, _. repeat (split; [reflexivity || exact Hcopy|]).
    cbn [GroupManager.this GroupManager.heap]. rewrite E2.
    eexists _, _. repeat (split; [reflexivity || exact Hne|]). exact Heq.
  - destruct (spread_contract _ _ Hf) as (l & h1 & E & Hcopy & l2 & h2 & E2 & Hne & Heq).
    unfold GroupManager.getFailedGroups. cbn [GroupManager.this GroupManager.heap].
    rewrite E. eexists _, _. repeat (split; [reflexivity || exact Hcopy|]).
    cbn [GroupManager.this GroupManager.heap]. rewrite E2.
    eexists _, _. repeat (split; [reflexivity || exact Hne|]). exact Heq.
  - destruct (spread_contract _ _ Hj) as (l & h1 & E & Hcopy & l2 & h2 & E2 & Hne & Heq).
    unfold PostManager.getCreatedPosts. cbn [PostManager.this PostManager.heap].
    rewrite E. eexists _, _. repeat (split; [reflexivity || exact Hcopy|]).
    cbn [PostManager.this PostManager.heap]. rewrite E2.
    eexists _, _. repeat (split; [reflexivity || exact Hne|]). exact Heq.
  - destruct (spread_contract _ _ Hf) as (l & h1 & E & Hcopy & l2 & h2 & E2 & Hne & Heq).
    unfold PostManager.getFailedPosts. cbn [PostManager.this PostManager.heap].
    rewrite E. eexists _, _. repeat (split; [reflexivity || exact Hcopy|]).
    cbn [PostManager.this PostManager.heap]. rewrite E2.
    eexists _, _. repeat (split; [reflexivity || exact Hne|]). exact Heq.
Qed.

End CopyFacts.

(** ** Running effectful code *)

Section EffectFacts.
Import Effects.
Context {S A B : Type}.

Lemma bind_run (m : Eff S A) (k : A -> Eff S B) (s s' : S) (a : A) :
  m s = (Ok a, s') -> bind m k s = k a s'.
Proof. intros H. unfold bind. rewrite H. reflexivity. Qed.

Lemma bind_thrown (m : Eff S A) (k : A -> Eff S B) (s s' : S) (e : thrown) :
  m s = (Thrown e, s') -> bind m k s = (Thrown e, s').
Proof. intros H. unfold bind. rewrite H. reflexivity. Qed.

Lemma bind_outOfFuel (m : Eff S A) (k : A -> Eff S B) (s s' : S) :
  m s = (OutOfFuel, s') -> bind m k s = (OutOfFuel, s').
Proof. intros H. unfold bind. rewrite H. reflexivity. Qed.

Lemma tryCatch_run (body : Eff S A) (handler : thrown -> Eff S A) (s s' : S) (a : A) :
  body s = (Ok a, s') -> tryCatch body handler s = (Ok a, s').
Proof. intros H. unfold tryCatch. rewrite H. reflexivity. Qed.

Lemma tryCatch_thrown (body : Eff S A) (handler : thrown -> Eff S A) (s s' : S)
      (e : thrown) :
  body s = (Thrown e, s') -> tryCatch body handler s = handler e s'.
Proof. intros H. unfold tryCatch. rewrite H. reflexivity. Qed.

Lemma tryCatch_outOfFuel (body : Eff S A) (handler : thrown -> Eff S A) (s s' : S) :
  body s = (OutOfFuel, s') -> tryCatch body handler s = (OutOfFuel, s').
Proof. intros H. unfold tryCatch. rewrite H. reflexivity. Qed.

(** What a bind returns came out of its continuation, or the first part
    stopped the run. *)
Lemma bind_inv (m : Eff S A) (k : A -> Eff S B) (s s2 : S) (r : Res B) :
  bind m k s = (r, s2) ->
  (exists a s1, m s = (Ok a, s1) /\ k a s1 = (r, s2)) \/
  (exists e, m s = (Thrown e, s2) /\ r = Thrown e) \/
  (m s = (OutOfFuel, s2) /\ r = OutOfFuel).
Proof.
  unfold bind. destruct (m s) as [[a|e|] s1]; intros H.
  - left. eauto.
  - right. left. inversion H. eauto.
  - right. right. inversion H. eauto.
Qed.

End EffectFacts.

Section UtilsFacts.
Import Effects Utils.
Context (env : Env).

Lemma mathRandom_range (w : World) :
  exists r, 0 <= r < 2 ^ 53 /\ mathRandom env w = (Ok r, stepSync MathRandom w).
Proof.
  eexists. split; [|reflexivity].
  apply Z.mod_pos_bound. lia.
Qed.

Lemma randomBelow_range (n : Z) (w : World) :
  0 < n ->
  exists r, 0 <= r < n /\ randomBelow env n w = (Ok r, stepSync MathRandom w).
Proof.
  intros Hn. destruct (mathRandom_range w) as (r & Hr & Hrun).
  exists (r * n / 2 ^ 53). split.
  - split.
    + apply Z.div_pos; [nia|lia].
    + apply Z.div_lt_upper_bound; [lia|nia].
  - unfold randomBelow. rewrite (bind_run _ _ _ _ _ Hrun). reflexivity.
Qed.

(** A delay never fails; it draws one random number and sets one timer
    of at least [min] ms. *)
Lemma DELAYS_random_run (min max : Z) (w : World) :
  DELAYS_random env min max w = (Ok tt, afterDelay env min max w).
Proof.
  unfold afterDelay, DELAYS_random, bind, randomBelow, mathRandom, ret, sleep.
  reflexivity.
Qed.

Lemma afterDelay_trace (min max : Z) (w : World) :
  exists d, trace (afterDelay env min max w) = SetTimeout d :: MathRandom :: trace w.
Proof. eexists. reflexivity. Qed.

Lemma afterDelay_clock (min max : Z) (w : World) :
  min <= max -> clock w + min <= clock (afterDelay env min max w).
Proof.
  intros Hle.
  destruct (randomBelow_range (max - min + 1) w) as (r & Hr & Hrun); [lia|].
  unfold afterDelay, DELAYS_random. rewrite (bind_run _ _ _ _ _ Hrun).
  unfold sleep, step. simpl. lia.
Qed.

Lemma afterDelay_flags (min max : Z) (w : World) :
  shouldStop w = true -> shouldStop (afterDelay env min max w) = true.
Proof. intros H. unfold afterDelay. simpl. rewrite H. reflexivity. Qed.

Lemma isElementVisible_run (selector : string) (w : World) :
  isElementVisible env selector w
  = (Ok (answersVisible env (trace w) selector), step env (IsVisible selector) w).
Proof.
  unfold isElementVisible, tryCatch, perform, answersVisible. simpl.
  destruct (fails env (IsVisible selector :: trace w)); reflexivity.
Qed.

Lemma shownFrom_later (h later : list action) (selector : string) :
  shownFrom env h selector -> shownFrom env (later ++ h) selector.
Proof. intros H more. rewrite app_assoc. apply H. Qed.

Lemma hiddenFrom_later (h later : list action) (selector : string) :
  hiddenFrom env h selector -> hiddenFrom env (later ++ h) selector.
Proof. intros H more. rewrite app_assoc. apply H. Qed.

Lemma step_clock (a : action) (w : World) : clock w <= clock (step env a w).
Proof.
  unfold step. cbn [clock]. destruct a; cbn [duration]; lia.
Qed.

(** The loop over selectors always returns; time does not go back and
    the trace only grows. *)
Lemma anyVisible_returns (selectors : list string) (w : World) :
  exists b w' new,
    anyVisible env selectors w = (Ok b, w') /\
    clock w <= clock w' /\
    trace w' = new ++ trace w.
Proof.
  revert w. induction selectors as [|selector rest IH]; intros w.
  - exists false, w, []. repeat split. lia.
  - cbn [anyVisible]. rewrite (bind_run _ _ _ _ _ (isElementVisible_run selector w)).
    destruct (answersVisible env (trace w) selector).
    + exists true, (step env (IsVisible selector) w), [IsVisible selector].
      repeat split. apply step_clock.
    + destruct (IH (step env (IsVisible selector) w)) as (b & w' & new & Hrun & Hclock & Htr).
      exists b, w', (new ++ [IsVisible selector]). repeat split.
      * exact Hrun.
      * pose proof (step_clock (IsVisible selector) w). lia.
      * rewrite Htr, <- app_assoc. reflexivity.
Qed.

(** When none of the selectors is ever visible the loop answers [false]. *)
Lemma anyVisible_hidden (selectors : list string) (w : World) :
  (forall selector, selector ∈ selectors -> hiddenFrom env (trace w) selector) ->
  exists w' new,
    anyVisible env selectors w = (Ok false, w') /\
    clock w <= clock w' /\
    trace w' = new ++ trace w.
Proof.
  revert w. induction selectors as [|selector rest IH]; intros w Hhid.
  - exists w, []. repeat split. lia.
  - cbn [anyVisible]. rewrite (bind_run _ _ _ _ _ (isElementVisible_run selector w)).
    pose proof (Hhid selector (list_elem_of_here _ _) []) as Hnow.
    cbn [app] in Hnow. rewrite Hnow.
    destruct (IH (step env (IsVisible selector) w)) as (w' & new & Hrun & Hclock & Htr).
    { intros sel Hsel.
      apply (hiddenFrom_later (trace w) [IsVisible selector]), Hhid.
      apply list_elem_of_further, Hsel. }
    exists w', (new ++ [IsVisible selector]). repeat split.
    + exact Hrun.
    + pose proof (step_clock (IsVisible selector) w). lia.
    + rewrite Htr, <- app_assoc. reflexivity.
Qed.

End UtilsFacts.

(** ** The join flow *)

Section JoinFacts.
Import Effects Utils Selectors Arrays GroupManager.
Context (env : Env).

(** The loop over the block indicators stops with a block at the first
    indicator found visible, having looked at indicators only. *)
Lemma blockLoop_shown (indicators : list (string * string)) (w : World) :
  (exists ind, ind ∈ indicators /\ shownFrom env (trace w) ind.1) ->
  exists why queries w',
    blockLoop env indicators w
    = (Ok (Some {| blocked := true; reason := Some why |}), w') /\
    why ∈ indicators.*2 /\
    trace w' = queries ++ trace w /\
    Forall (fun a => exists ind, ind ∈ indicators /\ a = IsVisible ind.1) queries.
Proof.
  revert w. induction indicators as [|[selector why] rest IH]; intros w (ind & Hin & Hshown).
  - inversion Hin.
  - cbn [blockLoop]. rewrite (bind_run _ _ _ _ _ (isElementVisible_run env selector w)).
    destruct (answersVisible env (trace w) selector) eqn:Hvis.
    + exists why, [IsVisible selector], (step env (IsVisible selector) w).
      repeat split.
      * rewrite fmap_cons. apply list_elem_of_here.
      * constructor; [|constructor]. exists (selector, why). split; [|reflexivity].
        apply list_elem_of_here.
    + apply elem_of_cons in Hin. destruct Hin as [->|Hin].
      { specialize (Hshown []). simpl in Hshown. congruence. }
      destruct (IH (step env (IsVisible selector) w)) as (why' & queries & w' & Hrun & Hwhy & Htr & Hq).
      { exists ind. split; [exact Hin|].
        apply (shownFrom_later env (trace w) [IsVisible selector]), Hshown. }
      exists why', (queries ++ [IsVisible selector]), w'. repeat split.
      * exact Hrun.
      * rewrite fmap_cons. apply list_elem_of_further, Hwhy.
      * rewrite Htr, <- app_assoc. reflexivity.
      * apply Forall_app. split.
        -- eapply Forall_impl; [exact Hq|]. intros a (i & Hi & ->).
           exists i. split; [apply list_elem_of_further, Hi|reflexivity].
        -- constructor; [|constructor]. exists (selector, why).
           split; [apply list_elem_of_here|reflexivity].
Qed.

(** When a block indicator is shown, [checkGroupStatus] reports the block
    with the reason of an indicator. *)
Lemma checkGroupStatus_shown (w : World) :
  (exists ind, ind ∈ blockIndicators /\ shownFrom env (trace w) ind.1) ->
  exists why new w',
    checkGroupStatus env w = (Ok {| blocked := true; reason := Some why |}, w') /\
    why ∈ blockIndicators.*2 /\
    trace w' = new ++ trace w /\
    Forall (fun a => joinControlAction a = false) new.
Proof.
  intros (ind & Hin & Hshown).
  destruct (afterDelay_trace env 500 1500 w) as (d & Hd).
  destruct (blockLoop_shown blockIndicators (afterDelay env 500 1500 w))
    as (why & queries & w' & Hrun & Hwhy & Htr & Hq).
  { exists ind. split; [exact Hin|]. rewrite Hd.
    apply (shownFrom_later env (trace w) [SetTimeout d; MathRandom]), Hshown. }
  exists why, (queries ++ [SetTimeout d; MathRandom]), w'. repeat split.
  - unfold checkGroupStatus. apply tryCatch_run.
    unfold DELAYS_short.
    rewrite (bind_run _ _ _ _ _ (DELAYS_random_run env 500 1500 w)).
    rewrite (bind_run _ _ _ _ _ Hrun). reflexivity.
  - exact Hwhy.
  - rewrite Htr, Hd, <- app_assoc. reflexivity.
  - apply Forall_app. split.
    + eapply Forall_impl; [exact Hq|]. intros a (i & Hi & ->).
      cbn [joinControlAction]. apply bool_decide_eq_false.
      revert i Hi. clear. intros i Hi.
      repeat (apply elem_of_cons in Hi; destruct Hi as [->|Hi];
              [vm_compute; intros H; repeat (apply elem_of_cons in H; destruct H as [H|H]; [discriminate H|]); inversion H|]).
      inversion Hi.
    + repeat constructor.
Qed.

(** The confirmation poll returns within the rounds it is given, provided
    they cover the time that is left; when it gives up, the wait is
    over. *)
Lemma confirmationLoop_returns (rounds : nat) (startTime maxWait : Z) (w : World) :
  maxWait - (clock w - startTime) <= 500 * Z.of_nat rounds ->
  exists b w' new,
    confirmationLoop env rounds startTime maxWait w = (Ok b, w') /\
    (b = false -> maxWait <= clock w' - startTime) /\
    clock w <= clock w' /\
    trace w' = new ++ trace w.
Proof.
  revert w. induction rounds as [|rounds IH]; intros w Hleft.
  - exists false, w, []. cbn [confirmationLoop]. unfold bind, dateNow.
    destruct (clock w - startTime <? maxWait) eqn:Hlt; [lia|].
    repeat split; lia.
  - cbn [confirmationLoop]. unfold bind at 1. unfold dateNow at 1.
    destruct (clock w - startTime <? maxWait) eqn:Hlt.
    2:{ exists false, w, []. repeat split; lia. }
    destruct (anyVisible_returns env successIndicators w)
      as (b & w1 & new1 & Hrun & Hclock & Htr).
    rewrite (bind_run _ _ _ _ _ Hrun).
    destruct b.
    + exists true, w1, new1. repeat split; [discriminate|exact Hclock|exact Htr].
    + unfold DELAYS_short.
      rewrite (bind_run _ _ _ _ _ (DELAYS_random_run env 500 1500 w1)).
      pose proof (afterDelay_clock env 500 1500 w1 ltac:(lia)) as Hsleep.
      destruct (afterDelay_trace env 500 1500 w1) as (d & Hd).
      destruct (IH (afterDelay env 500 1500 w1)) as (b & w' & new & Hloop & Hend & Hc & Ht).
      { lia. }
      exists b, w', (new ++ [SetTimeout d; MathRandom] ++ new1). repeat split.
      * exact Hloop.
      * exact Hend.
      * lia.
      * rewrite Ht, Hd, Htr, <- !app_assoc. reflexivity.
Qed.

(** With no success indicator ever visible the poll ends with [false]. *)
Lemma confirmationLoop_hidden (rounds : nat) (startTime maxWait : Z) (w : World) :
  maxWait - (clock w - startTime) <= 500 * Z.of_nat rounds ->
  (forall selector, selector ∈ successIndicators -> hiddenFrom env (trace w) selector) ->
  exists w' new,
    confirmationLoop env rounds startTime maxWait w = (Ok false, w') /\
    maxWait <= clock w' - startTime /\
    trace w' = new ++ trace w.
Proof.
  revert w. induction rounds as [|rounds IH]; intros w Hleft Hhid.
  - exists w, []. cbn [confirmationLoop]. unfold bind, dateNow.
    destruct (clock w - startTime <? maxWait) eqn:Hlt; [lia|].
    repeat split; lia.
  - cbn [confirmationLoop]. unfold bind at 1. unfold dateNow at 1.
    destruct (clock w - startTime <? maxWait) eqn:Hlt.
    2:{ exists w, []. repeat split; lia. }
    destruct (anyVisible_hidden env successIndicators w Hhid)
      as (w1 & new1 & Hrun & Hclock & Htr).
    rewrite (bind_run _ _ _ _ _ Hrun).
    unfold DELAYS_short.
    rewrite (bind_run _ _ _ _ _ (DELAYS_random_run env 500 1500 w1)).
    pose proof (afterDelay_clock env 500 1500 w1 ltac:(lia)) as Hsleep.
    destruct (afterDelay_trace env 500 1500 w1) as (d & Hd).
    destruct (IH (afterDelay env 500 1500 w1)) as (w' & new & Hloop & Hend & Ht).
    { lia. }
    { intros sel Hsel. rewrite Hd, Htr.
      apply (hiddenFrom_later env (trace w) ((SetTimeout d :: MathRandom :: new1))).
      apply Hhid, Hsel. }
    exists w', (new ++ [SetTimeout d; MathRandom] ++ new1). repeat split.
    + exact Hloop.
    + exact Hend.
    + rewrite Ht, Hd, Htr, <- !app_assoc. reflexivity.
Qed.

Lemma enough_rounds (maxWait : Z) :
  maxWait <= 500 * Z.of_nat (Z.to_nat (maxWait / 500 + 1)).
Proof.
  destruct (Z.le_gt_cases 0 maxWait) as [Hpos|Hneg]; [|lia].
  rewrite Z2Nat.id by (pose proof (Z.div_pos maxWait 500); lia).
  pose proof (Z.mod_pos_bound maxWait 500 ltac:(lia)).
  pose proof (Z.div_mod maxWait 500 ltac:(lia)). lia.
Qed.

(** [waitForJoinConfirmation] always returns, and a [false] comes no
    sooner than [maxWait] ms after it started. *)
Lemma waitForJoinConfirmation_returns (maxWait : Z) (w : World) :
  exists b w' new,
    waitForJoinConfirmation env maxWait w = (Ok b, w') /\
    (b = false -> maxWait <= clock w' - clock w) /\
    trace w' = new ++ trace w.
Proof.
  destruct (confirmationLoop_returns (Z.to_nat (maxWait / 500 + 1)) (clock w) maxWait w)
    as (b & w' & new & Hrun & Hend & _ & Htr).
  { pose proof (enough_rounds maxWait). lia. }
  exists b, w', new. repeat split; [|exact Hend|exact Htr].
  unfold waitForJoinConfirmation. apply tryCatch_run.
  unfold bind at 1. unfold dateNow at 1. exact Hrun.
Qed.

Lemma waitForJoinConfirmation_hidden (maxWait : Z) (w : World) :
  (forall selector, selector ∈ successIndicators -> hiddenFrom env (trace w) selector) ->
  exists w' new,
    waitForJoinConfirmation env maxWait w = (Ok false, w') /\
    maxWait <= clock w' - clock w /\
    trace w' = new ++ trace w.
Proof.
  intros Hhid.
  destruct (confirmationLoop_hidden (Z.to_nat (maxWait / 500 + 1)) (clock w) maxWait w)
    as (w' & new & Hrun & Hend & Htr).
  { pose proof (enough_rounds maxWait). lia. }
  { exact Hhid. }
  exists w', new. repeat split; [|exact Hend|exact Htr].
  unfold waitForJoinConfirmation. apply tryCatch_run.
  unfold bind at 1. unfold dateNow at 1. exact Hrun.
Qed.

(** [C5] When a block indicator (blocked, restricted, not found or
    private) is shown on the page of the group, [joinGroup] returns a
    result with [success = false], appends it to the failure list and
    leaves the joined list alone, and none of its actions looks for,
    scrolls to, points at or clicks a join control.  The status is
    blocked, with the reason of an indicator as message, when the
    navigation to the group URL has succeeded; when [page.goto] throws,
    the indicators are never looked at: the status is error with the
    message of the thrown error, and the navigation is the only action. *)
Theorem joinGroup_blocked (s : State) (groupUrl : string) (options : JoinGroupOptions) :
  wellFormed s ->
  (exists ind, ind ∈ blockIndicators /\
               shownFrom env (Goto groupUrl :: trace (world s)) ind.1) ->
  exists result s' new,
    joinGroup env groupUrl options s = (Ok result, s') /\
    url result = groupUrl /\
    success result = false /\
    match fails env (Goto groupUrl :: trace (world s)) with
    | None =>
        status result = "blocked" /\ message result ∈ blockIndicators.*2
    | Some error =>
        status result = "error" /\
        message result = messageOr error "An unknown error occurred" /\
        new = [Goto groupUrl]
    end /\
    failed s' = failed s ++ [result] /\
    joined s' = joined s /\
    trace (world s') = new ++ trace (world s) /\
    Forall (fun a => joinControlAction a = false) new.
Proof.
  destruct s as [this heap w]. intros (Hj & Hf & Hne) (ind & Hin & Hshown).
  cbn [GroupManager.this GroupManager.heap GroupManager.world] in *.
  set (w1 := step env (Goto groupUrl) w).
  destruct (fails env (Goto groupUrl :: trace w)) as [error|] eqn:Hnav.
  { eexists _, _, [Goto groupUrl]. split.
    - unfold joinGroup.
      rewrite (bind_run (onPage dateNow) _
                        {| this := this; heap := heap; world := w |}
                        {| this := this; heap := heap; world := w |} (clock w)
                        eq_refl).
      erewrite tryCatch_thrown.
      2:{ apply (bind_thrown _ _ _ {| this := this; heap := heap; world := w1 |} error).
          unfold onPage, performUnit, perform.
          cbn [GroupManager.this GroupManager.heap GroupManager.world].
          fold w1. change (trace w1) with (Goto groupUrl :: trace w).
          rewrite Hnav. reflexivity. }
      reflexivity.
    - cbn [url success status message withOutcome
           GroupManager.this GroupManager.heap GroupManager.world].
      unfold failed, joined.
      cbn [GroupManager.this GroupManager.heap GroupManager.world].
      split; [reflexivity|]. split; [reflexivity|].
      split; [split; [reflexivity|split; reflexivity]|].
      split; [apply elems_push_same, Hf|].
      split; [apply elems_push_other; congruence|].
      split; [reflexivity|]. repeat constructor. }
  set (w2 := afterDelay env 1500 3500 w1).
  destruct (afterDelay_trace env 1500 3500 w1) as (d & Hd).
  destruct (checkGroupStatus_shown w2) as (why & new & w3 & Hrun & Hwhy & Htr & Hnew).
  { exists ind. split; [exact Hin|]. fold w2 in Hd. rewrite Hd.
    apply (shownFrom_later env (trace w1) [SetTimeout d; MathRandom]), Hshown. }
  assert (Hmsg : orElse (Some why) "Group is blocked or private" = why).
  { revert Hwhy. clear. intros Hwhy.
    repeat (apply elem_of_cons in Hwhy; destruct Hwhy as [->|Hwhy]; [reflexivity|]).
    inversion Hwhy. }
  eexists _, _, (new ++ [SetTimeout d; MathRandom; Goto groupUrl]).
  split.
  - unfold joinGroup.
    rewrite (bind_run (onPage dateNow) _
                      {| this := this; heap := heap; world := w |}
                      {| this := this; heap := heap; world := w |} (clock w)
                      eq_refl).
    apply tryCatch_run.
    rewrite (bind_run _ _ _ {| this := this; heap := heap; world := w1 |} tt).
    2:{ unfold onPage, performUnit, perform.
        cbn [GroupManager.this GroupManager.heap GroupManager.world].
        fold w1. change (trace w1) with (Goto groupUrl :: trace w).
        rewrite Hnav. reflexivity. }
    rewrite (bind_run _ _ _ {| this := this; heap := heap; world := w2 |} tt).
    2:{ unfold onPage, DELAYS_medium.
        cbn [GroupManager.this GroupManager.heap GroupManager.world].
        rewrite DELAYS_random_run. reflexivity. }
    rewrite (bind_run _ _ _ {| this := this; heap := heap; world := w3 |}
                      {| blocked := true; reason := Some why |}).
    2:{ unfold onPage.
        cbn [GroupManager.this GroupManager.heap GroupManager.world].
        rewrite Hrun. reflexivity. }
    cbn [blocked reason]. rewrite Hmsg. reflexivity.
  - cbn [url success status message withOutcome
         GroupManager.this GroupManager.heap GroupManager.world].
    unfold failed, joined.
    cbn [GroupManager.this GroupManager.heap GroupManager.world].
    split; [reflexivity|]. split; [reflexivity|].
    split; [split; [reflexivity|exact Hwhy]|].
    split; [apply elems_push_same, Hf|].
    split; [apply elems_push_other; congruence|].
    split.
    + rewrite Htr. fold w2 in Hd. rewrite Hd, <- app_assoc. reflexivity.
    + apply Forall_app. split; [exact Hnew|]. repeat constructor.
Qed.

(** [C6] When the group page is reached without a block, the user is not
    yet a member, [clickJoinButton] has clicked a join control and
    [handleMembershipQuestions] has succeeded, but no success indicator is
    visible at any poll of the confirmation wait, then [joinGroup] still
    returns [success = true] with status pending_approval, after waiting
    at least [maxWaitTime]; the result is appended to the joined list and
    the failure list is unchanged. *)
Theorem joinGroup_pending_approval
        (s : State) (groupUrl : string) (options : JoinGroupOptions)
        (groupStatus : GroupStatus) (membership : MembershipStatus)
        (joinResult questionsHandled : ClickResult) (w1 w2 w3 w4 : World) :
  wellFormed s ->
  fails env (Goto groupUrl :: trace (world s)) = None ->
  checkGroupStatus env (afterDelay env 1500 3500 (step env (Goto groupUrl) (world s)))
  = (Ok groupStatus, w1) ->
  blocked groupStatus = false ->
  checkMembershipStatus env w1 = (Ok membership, w2) ->
  isMember membership = false ->
  clickJoinButton env w2 = (Ok joinResult, w3) ->
  clickSuccess joinResult = true ->
  handleMembershipQuestions env (default false (skipQuestions options))
                            (default ∅ (questionAnswers options))
                            (afterDelay env 1500 3500 w3)
  = (Ok questionsHandled, w4) ->
  clickSuccess questionsHandled = true ->
  (forall selector, selector ∈ successIndicators -> hiddenFrom env (trace w4) selector) ->
  exists result s',
    joinGroup env groupUrl options s = (Ok result, s') /\
    url result = groupUrl /\
    success result = true /\
    status result = "pending_approval" /\
    joined s' = joined s ++ [result] /\
    failed s' = failed s /\
    default 30000 (maxWaitTime options) <= clock (world s') - clock w4.
Proof.
  destruct s as [this heap w].
  intros (Hj & Hf & Hne) Hnav Hstatus Hopen Hmember Hnot Hclick Hclicked Hquestions
         Hhandled Hhid.
  cbn [GroupManager.this GroupManager.heap GroupManager.world] in *.
  destruct (waitForJoinConfirmation_hidden (default 30000 (maxWaitTime options)) w4 Hhid)
    as (w5 & new & Hwait & Hlong & Htr).
  eexists _, _. split.
  - unfold joinGroup.
    rewrite (bind_run (onPage dateNow) _
                      {| this := this; heap := heap; world := w |}
                      {| this := this; heap := heap; world := w |} (clock w)
                      eq_refl).
    apply tryCatch_run.
    rewrite (bind_run _ _ _ {| this := this; heap := heap;
                               world := step env (Goto groupUrl) w |} tt).
    2:{ unfold onPage, performUnit, perform.
        cbn [GroupManager.this GroupManager.heap GroupManager.world].
        change (trace (step env (Goto groupUrl) w)) with (Goto groupUrl :: trace w).
        rewrite Hnav. reflexivity. }
    rewrite (bind_run _ _ _ {| this := this; heap := heap;
                               world := afterDelay env 1500 3500
                                          (step env (Goto groupUrl) w) |} tt).
    2:{ unfold onPage, DELAYS_medium.
        cbn [GroupManager.this GroupManager.heap GroupManager.world].
        rewrite DELAYS_random_run. reflexivity. }
    rewrite (bind_run _ _ _ {| this := this; heap := heap; world := w1 |} groupStatus).
    2:{ unfold onPage.
        cbn [GroupManager.this GroupManager.heap GroupManager.world].
        rewrite Hstatus. reflexivity. }
    rewrite Hopen.
    rewrite (bind_run _ _ _ {| this := this; heap := heap; world := w2 |} membership).
    2:{ unfold onPage.
        cbn [GroupManager.this GroupManager.heap GroupManager.world].
        rewrite Hmember. reflexivity. }
    rewrite Hnot.
    rewrite (bind_run _ _ _ {| this := this; heap := heap; world := w3 |} joinResult).
    2:{ unfold onPage.
        cbn [GroupManager.this GroupManager.heap GroupManager.world].
        rewrite Hclick. reflexivity. }
    rewrite Hclicked. cbn [negb].
    rewrite (bind_run _ _ _ {| this := this; heap := heap;
                               world := afterDelay env 1500 3500 w3 |} tt).
    2:{ unfold onPage, DELAYS_medium.
        cbn [GroupManager.this GroupManager.heap GroupManager.world].
        rewrite DELAYS_random_run. reflexivity. }
    rewrite (bind_run _ _ _ {| this := this; heap := heap; world := w4 |}
                      questionsHandled).
    2:{ unfold onPage.
        cbn [GroupManager.this GroupManager.heap GroupManager.world].
        rewrite Hquestions. reflexivity. }
    rewrite Hhandled. cbn [negb].
    rewrite (bind_run _ _ _ {| this := this; heap := heap; world := w5 |} false).
    2:{ unfold onPage.
        cbn [GroupManager.this GroupManager.heap GroupManager.world].
        rewrite Hwait. reflexivity. }
    reflexivity.
  - cbn [url success status message withOutcome
         GroupManager.this GroupManager.heap GroupManager.world].
    unfold failed, joined.
    cbn [GroupManager.this GroupManager.heap GroupManager.world].
    repeat split.
    + apply elems_push_same, Hj.
    + apply elems_push_other. exact Hne.
    + exact Hlong.
Qed.

End JoinFacts.

(** ** The session store *)

Section SessionFacts.
Import Effects Utils SessionManager.
Context (env : Env).

Lemma perform_inv {A} (a : action) (answer : list action -> A) (w w' : World) (x : A) :
  perform env a answer w = (Ok x, w') ->
  w' = step env a w /\ fails env (a :: trace w) = None /\ x = answer (a :: trace w).
Proof.
  unfold perform. cbn [trace step].
  destruct (fails env (a :: trace w)); intros H; inversion H. auto.
Qed.

Lemma onPage_inv {A} (m : Eff World A) (s s' : State) (r : Res A) :
  onPage m s = (r, s') ->
  m (world s) = (r, world s') /\
  session s' = session s /\ sessionFile s' = sessionFile s.
Proof.
  unfold onPage. destruct (m (world s)) as [r0 w0]. intros H. inversion H. auto.
Qed.

(** A stale or absent record ends [loadSession] before anything is put
    back into the browser. *)
Lemma loadSession_stale (s : State) (t : Z) :
  let h1 := PathExists (sessionFile s) :: trace (world s) in
  let h2 := ReadJson (sessionFile s) :: h1 in
  timestamp (saysSession env h2) = Some t ->
  maxAge < clock (world s) - t ->
  exists s' new,
    loadSession env s = (Ok false, s') /\
    session s' = session s /\
    trace (world s') = new ++ trace (world s) /\
    Forall (fun a => restores a = false) new.
Proof.
  destruct s as [file sess w]. cbn [sessionFile world session].
  intros Hstamp Hold.
  set (h1 := PathExists file :: trace w) in *.
  set (h2 := ReadJson file :: h1) in *.
  unfold loadSession, tryCatch, bind at 1. cbn [sessionFile].
  unfold bind at 1, onPage at 1, perform at 1.
  cbn [sessionFile world session step trace]. fold h1.
  destruct (fails env h1) as [e|] eqn:Hfail1.
  { eexists _, [PathExists file]. repeat split. repeat constructor. }
  destruct (saysBool env h1) eqn:Hfound; cbn [negb].
  2:{ eexists _, [PathExists file]. repeat split. repeat constructor. }
  unfold bind at 1, onPage at 1, perform at 1.
  cbn [sessionFile world session step trace]. fold h1 h2.
  destruct (fails env h2) as [e|] eqn:Hfail2.
  { eexists _, [ReadJson file; PathExists file]. repeat split. repeat constructor. }
  unfold bind at 1, onPage at 1, dateNow at 1.
  cbn [sessionFile world session step trace clock].
  match goal with
  | |- context [tooOld ?now ?sd] =>
      assert (Hstale : tooOld now sd = true)
  end.
  { unfold tooOld. rewrite Hstamp. cbn [duration]. apply Z.gtb_lt. lia. }
  rewrite Hstale.
  eexists _, [ReadJson file; PathExists file]. repeat split. repeat constructor.
Qed.

Lemma loadSession_absent (s : State) :
  let h1 := PathExists (sessionFile s) :: trace (world s) in
  fails env h1 = None ->
  saysBool env h1 = false ->
  exists s',
    loadSession env s = (Ok false, s') /\
    session s' = session s /\
    trace (world s') = h1.
Proof.
  destruct s as [file sess w]. cbn [sessionFile world session].
  intros Hfail Hfound.
  set (h1 := PathExists file :: trace w) in *.
  unfold loadSession, tryCatch, bind at 1. cbn [sessionFile].
  unfold bind at 1, onPage at 1, perform at 1.
  cbn [sessionFile world session step trace]. fold h1.
  rewrite Hfail, Hfound. cbn [negb].
  eexists. repeat split.
Qed.

(** [loadSession] answers [true] only when [verifyLogin], run on the
    reloaded page, has answered [true]; the record read from the file is
    then the current session. *)
Lemma loadSession_true_inv (s s' : State) :
  loadSession env s = (Ok true, s') ->
  exists before,
    verifyLogin env (afterDelay env 3000 6000 (step env Reload before))
    = (Ok true, world s') /\
    session s'
    = Some (saysSession env (ReadJson (sessionFile s)
                             :: PathExists (sessionFile s) :: trace (world s))).
Proof.
  unfold loadSession, tryCatch.
  match goal with
  | |- context [match ?body s with _ => _ end] => destruct (body s) as [[b|e|] s1] eqn:Hbody
  end; [|discriminate|discriminate].
  intros Heq. inversion Heq. subst b s1. clear Heq.
  apply bind_inv in Hbody.
  destruct Hbody as [(file & s0 & Hfile & Hbody)|[(e & _ & He)|(_ & He)]];
    [|discriminate|discriminate].
  inversion Hfile. subst file s0. clear Hfile.
  apply bind_inv in Hbody.
  destruct Hbody as [(found & s1 & Hexists & Hbody)|[(e & _ & He)|(_ & He)]];
    [|discriminate|discriminate].
  apply onPage_inv in Hexists. destruct Hexists as (Hexists & Hs1 & Hf1).
  apply perform_inv in Hexists. destruct Hexists as (Hw1 & _ & _).
  destruct found; cbn [negb] in Hbody; [|discriminate].
  apply bind_inv in Hbody.
  destruct Hbody as [(sd & s2 & Hread & Hbody)|[(e & _ & He)|(_ & He)]];
    [|discriminate|discriminate].
  apply onPage_inv in Hread. destruct Hread as (Hread & Hs2 & Hf2).
  apply perform_inv in Hread. destruct Hread as (Hw2 & _ & Hsd).
  rewrite Hw1 in Hsd. cbn [trace step] in Hsd.
  apply bind_inv in Hbody.
  destruct Hbody as [(now & s3 & Hnow & Hbody)|[(e & _ & He)|(_ & He)]];
    [|discriminate|discriminate].
  destruct (tooOld now sd); [discriminate|].
  do 5 (apply bind_inv in Hbody;
        destruct Hbody as [(? & ? & _ & Hbody)|[(e & _ & He)|(_ & He)]];
        [|discriminate|discriminate]).
  apply bind_inv in Hbody.
  destruct Hbody as [(? & s4 & Hreload & Hbody)|[(e & _ & He)|(_ & He)]];
    [|discriminate|discriminate].
  apply onPage_inv in Hreload. destruct Hreload as (Hreload & _ & _).
  apply perform_inv in Hreload. destruct Hreload as (Hw4 & _ & _).
  apply bind_inv in Hbody.
  destruct Hbody as [(? & s5 & Hlong & Hbody)|[(e & _ & He)|(_ & He)]];
    [|discriminate|discriminate].
  apply onPage_inv in Hlong. destruct Hlong as (Hlong & _ & _).
  unfold DELAYS_long in Hlong. rewrite DELAYS_random_run in Hlong.
  inversion Hlong as [[Hunit Hw5]]. clear Hlong Hunit.
  apply bind_inv in Hbody.
  destruct Hbody as [(isLoggedIn & s6 & Hverify & Hbody)|[(e & _ & He)|(_ & He)]];
    [|discriminate|discriminate].
  apply onPage_inv in Hverify. destruct Hverify as (Hverify & _ & _).
  destruct isLoggedIn; [|discriminate].
  unfold bind, setSession, ret in Hbody. inversion Hbody. subst s'. clear Hbody.
  cbn [world session].
  rewrite Hw4 in Hw5. rewrite <- Hw5 in Hverify.
  eexists. split; [exact Hverify|rewrite Hsd; reflexivity].
Qed.

(** [C4] A stored record whose timestamp is more than 24 hours before the
    time of the call makes [loadSession] return [false] with the session
    field untouched and without any action that restores state (no
    cookies added, no navigation, no storage written, no reload); an
    absent session file makes it return [false] after the existence
    check alone; and it returns [true] only when [verifyLogin] has
    succeeded on the reloaded page. *)
Theorem loadSession_rejects_stale_and_absent (s : State) :
  (forall t,
      timestamp (saysSession env (ReadJson (sessionFile s)
                                  :: PathExists (sessionFile s) :: trace (world s)))
      = Some t ->
      maxAge < clock (world s) - t ->
      exists s' new,
        loadSession env s = (Ok false, s') /\
        session s' = session s /\
        trace (world s') = new ++ trace (world s) /\
        Forall (fun a => restores a = false) new) /\
  (fails env (PathExists (sessionFile s) :: trace (world s)) = None ->
   saysBool env (PathExists (sessionFile s) :: trace (world s)) = false ->
   exists s',
     loadSession env s = (Ok false, s') /\
     session s' = session s /\
     trace (world s') = PathExists (sessionFile s) :: trace (world s)) /\
  (forall s',
      loadSession env s = (Ok true, s') ->
      exists before,
        verifyLogin env (afterDelay env 3000 6000 (step env Reload before))
        = (Ok true, world s') /\
        session s'
        = Some (saysSession env (ReadJson (sessionFile s)
                                 :: PathExists (sessionFile s) :: trace (world s)))).
Proof.
  split; [|split].
  - intros t. apply loadSession_stale.
  - apply loadSession_absent.
  - intros s'. apply loadSession_true_inv.
Qed.

End SessionFacts.

(** ** Every join attempt records exactly one result *)

Section JoinOutcome.
Import Effects Utils Arrays GroupManager.
Context (env : Env).

Lemma keepsLists_onPage {A} (m : Eff World A) : keepsLists (onPage m).
Proof.
  intros s res s'. unfold onPage. destruct (m (world s)) as [r w].
  intros H. inversion H. auto.
Qed.

Lemma recordsResult_bind {A} (m : Eff State A) (k : A -> Eff State GroupJoinResult) :
  keepsLists m -> (forall a, recordsResult (k a)) -> recordsResult (bind m k).
Proof.
  intros Hm Hk s res s' Hrun. apply bind_inv in Hrun.
  destruct Hrun as [(a & s1 & Hfirst & Hrest)|[(e & Hfirst & ->)|(Hfirst & ->)]].
  - destruct (Hm _ _ _ Hfirst) as [Hthis Hheap]. specialize (Hk a _ _ _ Hrest).
    destruct res as [r| |]; unfold recorded in *; rewrite <- Hthis, <- Hheap; exact Hk.
  - exact (Hm _ _ _ Hfirst).
  - exact (Hm _ _ _ Hfirst).
Qed.

Lemma recordsResult_pushFailed (r : GroupJoinResult) :
  success r = false -> recordsResult (bind (pushFailed r) (fun _ => ret r)).
Proof.
  intros Hr s res s' Hrun. unfold bind, pushFailed, ret in Hrun.
  inversion Hrun. subst. split; [reflexivity|]. right. auto.
Qed.

Lemma recordsResult_pushJoined (r : GroupJoinResult) :
  success r = true -> recordsResult (bind (pushJoined r) (fun _ => ret r)).
Proof.
  intros Hr s res s' Hrun. unfold bind, pushJoined, ret in Hrun.
  inversion Hrun. subst. split; [reflexivity|]. left. auto.
Qed.

Ltac records :=
  cbv zeta;
  repeat first
    [ apply recordsResult_pushFailed; reflexivity
    | apply recordsResult_pushJoined; reflexivity
    | apply recordsResult_bind; [apply keepsLists_onPage|intros ?]
    | match goal with
      | |- recordsResult (if ?b then _ else _) => destruct b
      end ].

(** [joinGroup] never throws; when it returns, its result has been
    appended to the joined list if it is a success and to the failure
    list if not, and nothing else has changed in the lists. *)
Lemma joinGroup_outcome (groupUrl : string) (options : JoinGroupOptions)
      (s s' : State) (res : Res GroupJoinResult) :
  joinGroup env groupUrl options s = (res, s') ->
  match res with
  | Ok r => recorded r s s'
  | Thrown _ => False
  | OutOfFuel => this s' = this s /\ heap s' = heap s
  end.
Proof.
  destruct s as [this0 heap0 w]. unfold joinGroup.
  rewrite (bind_run (onPage dateNow) _
                    {| this := this0; heap := heap0; world := w |}
                    {| this := this0; heap := heap0; world := w |} (clock w)
                    eq_refl).
  set (s := {| this := this0; heap := heap0; world := w |}).
  match goal with
  | |- tryCatch ?body ?handler s = _ -> _ =>
      assert (Hbody : recordsResult body) by records;
      assert (Hhandler : forall e, recordsResult (handler e)) by (intros e; records);
      unfold tryCatch; destruct (body s) as [[r|e|] s1] eqn:Hrun
  end.
  - intros H. inversion H. subst. exact (Hbody _ _ _ Hrun).
  - destruct (Hbody _ _ _ Hrun) as [Hthis Hheap].
    intros H. unfold bind, pushFailed, ret in H. inversion H. subst. clear H.
    unfold recorded. cbn [this heap success withOutcome].
    rewrite Hthis, Hheap. split; [reflexivity|]. right. auto.
  - intros H. inversion H. subst. exact (Hbody _ _ _ Hrun).
Qed.

End JoinOutcome.

(** ** Every post attempt records exactly one result *)

Section PostOutcome.
Import Effects Utils Arrays PostManager.
Context (env : Env).

Lemma post_keepsLists_onPage {A} (m : Eff World A) : keepsLists (onPage m).
Proof.
  intros s res s'. unfold onPage. destruct (m (world s)) as [r w].
  intros H. inversion H. auto.
Qed.

Lemma post_keepsLists_ret {A} (a : A) : keepsLists (ret a).
Proof. intros s res s' H. inversion H. auto. Qed.

Lemma post_keepsLists_bind {A B} (m : Eff State A) (k : A -> Eff State B) :
  keepsLists m -> (forall a, keepsLists (k a)) -> keepsLists (bind m k).
Proof.
  intros Hm Hk s res s' Hrun. apply bind_inv in Hrun.
  destruct Hrun as [(a & s1 & Hfirst & Hrest)|[(e & Hfirst & ->)|(Hfirst & ->)]].
  - destruct (Hm _ _ _ Hfirst) as [Hthis Hheap].
    destruct (Hk a _ _ _ Hrest) as [Hthis' Hheap']. split; congruence.
  - exact (Hm _ _ _ Hfirst).
  - exact (Hm _ _ _ Hfirst).
Qed.

Lemma post_recordsResult_bind_when {A} (P : A -> Prop) (m : Eff State A)
      (k : A -> Eff State PostResult) :
  keepsLists m ->
  (forall s a s', m s = (Ok a, s') -> P a) ->
  (forall a, P a -> recordsResult (k a)) ->
  recordsResult (bind m k).
Proof.
  intros Hm HP Hk s res s' Hrun. apply bind_inv in Hrun.
  destruct Hrun as [(a & s1 & Hfirst & Hrest)|[(e & Hfirst & ->)|(Hfirst & ->)]].
  - destruct (Hm _ _ _ Hfirst) as [Hthis Hheap].
    specialize (Hk a (HP _ _ _ Hfirst) _ _ _ Hrest).
    destruct res as [r| |]; unfold recorded in *; rewrite <- Hthis, <- Hheap; exact Hk.
  - exact (Hm _ _ _ Hfirst).
  - exact (Hm _ _ _ Hfirst).
Qed.

Lemma post_recordsResult_bind {A} (m : Eff State A) (k : A -> Eff State PostResult) :
  keepsLists m -> (forall a, recordsResult (k a)) -> recordsResult (bind m k).
Proof.
  intros Hm Hk. apply (post_recordsResult_bind_when (fun _ => True)); auto.
Qed.

Lemma recordsResult_pushFailedPost (r : PostResult) :
  success r = false -> recordsResult (bind (pushFailed r) (fun _ => ret r)).
Proof.
  intros Hr s res s' Hrun. unfold bind, pushFailed, ret in Hrun.
  inversion Hrun. subst. split; [reflexivity|]. right. auto.
Qed.

Lemma recordsResult_pushCreated (r : PostResult) :
  success r = true -> recordsResult (bind (pushCreated r) (fun _ => ret r)).
Proof.
  intros Hr s res s' Hrun. unfold bind, pushCreated, ret in Hrun.
  inversion Hrun. subst. split; [reflexivity|]. left. auto.
Qed.

Ltac keeps :=
  repeat first
    [ apply post_keepsLists_onPage
    | apply post_keepsLists_ret
    | apply post_keepsLists_bind; [|intros ?]
    | match goal with
      | |- keepsLists (match ?x with _ => _ end) => destruct x
      end ].


(** The last step of [createPost] marks the result as a success before it
    is recorded. *)
Lemma confirmed_is_success (confirm : bool) (result : PostResult) (s s' : State)
      (final : PostResult) :
  (if confirm
   then bind (onPage (waitForPostConfirmation env))
             (fun confirmed : bool =>
                if confirmed
                then ret (withSuccess result "Post created and confirmed successfully")
                else ret (withSuccess result "Post submitted but confirmation timeout"))
   else ret (withSuccess result "Post submitted successfully")) s = (Ok final, s') ->
  success final = true.
Proof.
  destruct confirm.
  - intros H. apply bind_inv in H.
    destruct H as [(c & s1 & _ & H)|[(e & _ & He)|(_ & He)]]; [|discriminate..].
    destruct c; inversion H; reflexivity.
  - intros H. inversion H. reflexivity.
Qed.

Ltac post_records :=
  cbv zeta;
  repeat first
    [ apply recordsResult_pushFailedPost; reflexivity
    | apply (post_recordsResult_bind_when (fun r => success r = true));
      [ solve [keeps]
      | solve [intros ? ? ?; apply confirmed_is_success]
      | intros final Hfinal; apply recordsResult_pushCreated, Hfinal ]
    | apply post_recordsResult_bind; [solve [keeps]|intros ?]
    | match goal with
      | |- recordsResult (if negb ?b then _ else _) => destruct b; cbn [negb]
      end ].

(** [createPost] never throws; when it returns, its result has been
    appended to the created list if it is a success and to the failure
    list if not. *)
Lemma createPost_outcome (data : PostData) (s s' : State) (res : Res PostResult) :
  createPost env data s = (res, s') ->
  match res with
  | Ok r => recorded r s s'
  | Thrown _ => False
  | OutOfFuel => this s' = this s /\ heap s' = heap s
  end.
Proof.
  destruct s as [this0 heap0 w]. unfold createPost.
  rewrite (bind_run (onPage dateNow) _
                    {| this := this0; heap := heap0; world := w |}
                    {| this := this0; heap := heap0; world := w |} (clock w)
                    eq_refl).
  set (s := {| this := this0; heap := heap0; world := w |}).
  match goal with
  | |- tryCatch ?body ?handler s = _ -> _ =>
      assert (Hbody : recordsResult body);
      [|unfold tryCatch; destruct (body s) as [[r|e|] s1] eqn:Hrun]
  end.
  - post_records.
  - intros H. inversion H. subst. exact (Hbody _ _ _ Hrun).
  - destruct (Hbody _ _ _ Hrun) as [Hthis Hheap].
    intros H. unfold bind, pushFailed, ret in H. inversion H. subst. clear H.
    unfold recorded. cbn [this heap success withError].
    rewrite Hthis, Hheap. split; [reflexivity|]. right. auto.
  - intros H. inversion H. subst. exact (Hbody _ _ _ Hrun).
Qed.

End PostOutcome.

(** ** The batch loops and the stop signal *)

Section BatchFacts.
Import Effects Utils Arrays Orchestrator.
Context (env : Env).

Lemma onWorld_inv {A} (m : Eff World A) (s s' : State) (r : Res A) :
  onWorld m s = (r, s') ->
  groupManager s' = groupManager s /\ groupHeap s' = groupHeap s /\
  postManager s' = postManager s /\ postHeap s' = postHeap s.
Proof.
  unfold onWorld. destruct (m (world s)) as [r0 w0]. intros H. inversion H. auto.
Qed.

Lemma setStats_inv (f : AutomationStats -> AutomationStats) (s s' : State) (r : Res unit) :
  setStats f s = (r, s') ->
  r = Ok tt /\
  groupManager s' = groupManager s /\ groupHeap s' = groupHeap s /\
  postManager s' = postManager s /\ postHeap s' = postHeap s.
Proof. unfold setStats. intros H. inversion H. auto. Qed.

Lemma withGroupManager_inv {A} (m : Eff GroupManager.State A) (s s' : State) (r : Res A) :
  withGroupManager m s = (r, s') ->
  m (groupView s) = (r, groupView s') /\
  postManager s' = postManager s /\ postHeap s' = postHeap s.
Proof.
  unfold withGroupManager. fold (groupView s).
  destruct (m (groupView s)) as [r0 [t h w]]. intros H. inversion H. auto.
Qed.

Lemma withPostManager_inv {A} (m : Eff PostManager.State A) (s s' : State) (r : Res A) :
  withPostManager m s = (r, s') ->
  m (postView s) = (r, postView s') /\
  groupManager s' = groupManager s /\ groupHeap s' = groupHeap s.
Proof.
  unfold withPostManager. fold (postView s).
  destruct (m (postView s)) as [r0 [t h w]]. intros H. inversion H. auto.
Qed.

(** What follows the operation in a round (counting, then the delay
    between items) returns normally and touches no result list. *)
Lemma afterOperation_inv (ok : bool) (f g : AutomationStats -> AutomationStats)
      (last : bool) (min max : Z) (s s' : State) (r : Res unit) :
  bind (if ok then setStats f else setStats g)
       (fun _ => if last then onWorld (DELAYS_random env min max) else ret tt) s
  = (r, s') ->
  r = Ok tt /\
  groupManager s' = groupManager s /\ groupHeap s' = groupHeap s /\
  postManager s' = postManager s /\ postHeap s' = postHeap s.
Proof.
  intros H. apply bind_inv in H.
  destruct H as [(a & s1 & Hcount & Hrest)|[(e & Hcount & ->)|(Hcount & ->)]].
  - assert (Hs1 : groupManager s1 = groupManager s /\ groupHeap s1 = groupHeap s /\
                  postManager s1 = postManager s /\ postHeap s1 = postHeap s).
    { destruct ok; apply setStats_inv in Hcount; tauto. }
    destruct Hs1 as (E1 & E2 & E3 & E4). rewrite <- E1, <- E2, <- E3, <- E4.
    destruct last.
    + pose proof (onWorld_inv _ _ _ _ Hrest) as Hframe.
      unfold onWorld in Hrest. rewrite DELAYS_random_run in Hrest.
      inversion Hrest. subst. auto.
    + inversion Hrest. subst. auto.
  - destruct ok; apply setStats_inv in Hcount; destruct Hcount; discriminate.
  - destruct ok; apply setStats_inv in Hcount; destruct Hcount; discriminate.
Qed.

(** A completed round of [joinGroups] has recorded exactly one join
    result and has left the post lists alone. *)
Lemma joinItem_records (fuel : nat) (options : GroupManager.JoinGroupOptions)
      (n i : nat) (groupUrl : string) (s s1 : State) :
  joinItem env fuel options n i groupUrl s = (Ok tt, s1) ->
  (exists r, GroupManager.recorded r (groupView s) (groupView s1)) /\
  postManager s1 = postManager s /\ postHeap s1 = postHeap s.
Proof.
  unfold joinItem. intros H. apply bind_inv in H.
  destruct H as [(a & sa & Hwait & Hround)|[(e & _ & He)|(_ & He)]]; [|discriminate..].
  apply onWorld_inv in Hwait. destruct Hwait as (W1 & W2 & W3 & W4).
  unfold GroupManager.recorded, groupView.
  cbn [GroupManager.this GroupManager.heap].
  rewrite <- W1, <- W2, <- W3, <- W4. clear W1 W2 W3 W4 s.
  unfold tryCatch in Hround.
  match type of Hround with
  | context [match ?body sa with _ => _ end] =>
      destruct (body sa) as [[u|e|] sb] eqn:Hbody
  end.
  - inversion Hround. subst u sb. clear Hround.
    apply bind_inv in Hbody.
    destruct Hbody as [(r & sc & Hjoin & Hrest)|[(e & _ & He)|(_ & He)]]; [|discriminate..].
    apply withGroupManager_inv in Hjoin. destruct Hjoin as (Hjoin & P1 & P2).
    apply (joinGroup_outcome env) in Hjoin.
    apply afterOperation_inv in Hrest. destruct Hrest as (_ & R1 & R2 & R3 & R4).
    unfold GroupManager.recorded, groupView in Hjoin.
    cbn [GroupManager.this GroupManager.heap] in Hjoin.
    rewrite R1, R2, R3, R4, P1, P2. split; [exists r; exact Hjoin|auto].
  - exfalso. apply bind_inv in Hbody.
    destruct Hbody as [(r & sc & Hjoin & Hrest)|[(e' & Hjoin & He)|(_ & He)]];
      [| |discriminate].
    + apply afterOperation_inv in Hrest. destruct Hrest as (Hr & _). discriminate.
    + apply withGroupManager_inv in Hjoin. destruct Hjoin as (Hjoin & _).
      exact (joinGroup_outcome env _ _ _ _ _ Hjoin).
  - discriminate.
Qed.

(** A completed round of [createPosts] has recorded exactly one post
    result and has left the join lists alone. *)
Lemma postItem_records (fuel : nat) (postTemplate : PostManager.PostData)
      (n i : nat) (groupUrl : string) (s s1 : State) :
  postItem env fuel postTemplate n i groupUrl s = (Ok tt, s1) ->
  (exists r, PostManager.recorded r (postView s) (postView s1)) /\
  groupManager s1 = groupManager s /\ groupHeap s1 = groupHeap s.
Proof.
  unfold postItem. intros H. apply bind_inv in H.
  destruct H as [(a & sa & Hwait & Hround)|[(e & _ & He)|(_ & He)]]; [|discriminate..].
  apply onWorld_inv in Hwait. destruct Hwait as (W1 & W2 & W3 & W4).
  unfold PostManager.recorded, postView.
  cbn [PostManager.this PostManager.heap].
  rewrite <- W1, <- W2, <- W3, <- W4. clear W1 W2 W3 W4 s.
  unfold tryCatch in Hround. cbv zeta in Hround.
  match type of Hround with
  | context [match ?body sa with _ => _ end] =>
      destruct (body sa) as [[u|e|] sb] eqn:Hbody
  end.
  - inversion Hround. subst u sb. clear Hround.
    apply bind_inv in Hbody.
    destruct Hbody as [(r & sc & Hpost & Hrest)|[(e & _ & He)|(_ & He)]]; [|discriminate..].
    apply withPostManager_inv in Hpost. destruct Hpost as (Hpost & P1 & P2).
    apply (createPost_outcome env) in Hpost.
    apply afterOperation_inv in Hrest. destruct Hrest as (_ & R1 & R2 & R3 & R4).
    unfold PostManager.recorded, postView in Hpost.
    cbn [PostManager.this PostManager.heap] in Hpost.
    rewrite R1, R2, R3, R4, P1, P2. split; [exists r; exact Hpost|auto].
  - exfalso. apply bind_inv in Hbody.
    destruct Hbody as [(r & sc & Hpost & Hrest)|[(e' & Hpost & He)|(_ & He)]];
      [| |discriminate].
    + apply afterOperation_inv in Hrest. destruct Hrest as (Hr & _). discriminate.
    + apply withPostManager_inv in Hpost. destruct Hpost as (Hpost & _).
      exact (createPost_outcome env _ _ _ _ Hpost).
  - discriminate.
Qed.

(** Recording a result keeps the manager well formed and appends the
    result to one of its two lists. *)
Lemma join_recorded_grows (r : GroupManager.GroupJoinResult) (g g' : GroupManager.State) :
  GroupManager.wellFormed g ->
  GroupManager.recorded r g g' ->
  GroupManager.wellFormed g' /\
  ((GroupManager.joined g' = GroupManager.joined g ++ [r] /\
    GroupManager.failed g' = GroupManager.failed g) \/
   (GroupManager.joined g' = GroupManager.joined g /\
    GroupManager.failed g' = GroupManager.failed g ++ [r])).
Proof.
  unfold GroupManager.wellFormed, GroupManager.recorded, GroupManager.joined,
    GroupManager.failed.
  intros (Hj & Hf & Hne) (Hthis & [(_ & Hheap)|(_ & Hheap)]);
    rewrite Hthis, Hheap, dom_push.
  - split; [auto|]. left. split.
    + apply elems_push_same, Hj.
    + apply elems_push_other, Hne.
  - split; [auto|]. right. split.
    + apply elems_push_other. congruence.
    + apply elems_push_same, Hf.
Qed.

Lemma post_recorded_grows (r : PostManager.PostResult) (p p' : PostManager.State) :
  PostManager.wellFormed p ->
  PostManager.recorded r p p' ->
  PostManager.wellFormed p' /\
  ((PostManager.created p' = PostManager.created p ++ [r] /\
    PostManager.failed p' = PostManager.failed p) \/
   (PostManager.created p' = PostManager.created p /\
    PostManager.failed p' = PostManager.failed p ++ [r])).
Proof.
  unfold PostManager.wellFormed, PostManager.recorded, PostManager.created,
    PostManager.failed.
  intros (Hc & Hf & Hne) (Hthis & [(_ & Hheap)|(_ & Hheap)]);
    rewrite Hthis, Hheap, dom_push.
  - split; [auto|]. left. split.
    + apply elems_push_same, Hc.
    + apply elems_push_other, Hne.
  - split; [auto|]. right. split.
    + apply elems_push_other. congruence.
    + apply elems_push_same, Hf.
Qed.

(** The cooperative wait hands over only when it has read the
    intervention flag as clear; it does not bound the time this takes. *)
Lemma interventionWait_clear (fuel : nat) (w w' : World) :
  interventionWait env fuel w = (Ok tt, w') -> interventionRequired w' = false.
Proof.
  revert w. induction fuel as [|fuel IH]; intros w; cbn [interventionWait];
    unfold bind at 1; unfold isWaitingForIntervention at 1;
    destruct (interventionRequired w) eqn:Hflag.
  - discriminate.
  - intros H. inversion H. subst. exact Hflag.
  - unfold DELAYS_medium. rewrite (bind_run _ _ _ _ _ (DELAYS_random_run env 1500 3500 w)).
    apply IH.
  - intros H. inversion H. subst. exact Hflag.
Qed.

(** After the rounds of [done], the join results are those from before
    followed by one result per round. *)
Lemma joinedThrough_results (fuel : nat) (options : GroupManager.JoinGroupOptions)
      (n i : nat) (done : list string) (s sk : State) :
  joinedThrough env fuel options n i done s sk ->
  GroupManager.wellFormed (groupView s) ->
  GroupManager.wellFormed (groupView sk) /\
  length (joinResults sk) = (length (joinResults s) + length done)%nat /\
  GroupManager.joined (groupView s) `prefix_of` GroupManager.joined (groupView sk) /\
  GroupManager.failed (groupView s) `prefix_of` GroupManager.failed (groupView sk).
Proof.
  induction 1 as [i s|i groupUrl rest s s1 s2 Hgo Hitem Hrest IH]; intros Hwf.
  - split; [exact Hwf|]. split; [cbn [length]; lia|]. split; reflexivity.
  - apply joinItem_records in Hitem. destruct Hitem as ((r & Hrec) & _).
    destruct (join_recorded_grows _ _ _ Hwf Hrec) as (Hwf1 & Hgrow).
    destruct (IH Hwf1) as (Hwfk & Hlen & Hpj & Hpf).
    split; [exact Hwfk|].
    unfold joinResults in *. rewrite length_app in *. cbn [length].
    destruct Hgrow as [(Ej & Ef)|(Ej & Ef)]; rewrite Ej, Ef in *;
      rewrite ?length_app in *; cbn [length] in *.
    + split; [lia|]. split; [|exact Hpf].
      etransitivity; [|exact Hpj]. apply prefix_app_r. reflexivity.
    + split; [lia|]. split; [exact Hpj|].
      etransitivity; [|exact Hpf]. apply prefix_app_r. reflexivity.
Qed.

Lemma postedThrough_results (fuel : nat) (postTemplate : PostManager.PostData)
      (n i : nat) (done : list string) (s sk : State) :
  postedThrough env fuel postTemplate n i done s sk ->
  PostManager.wellFormed (postView s) ->
  PostManager.wellFormed (postView sk) /\
  length (postResults sk) = (length (postResults s) + length done)%nat /\
  PostManager.created (postView s) `prefix_of` PostManager.created (postView sk) /\
  PostManager.failed (postView s) `prefix_of` PostManager.failed (postView sk).
Proof.
  induction 1 as [i s|i groupUrl rest s s1 s2 Hgo Hitem Hrest IH]; intros Hwf.
  - split; [exact Hwf|]. split; [cbn [length]; lia|]. split; reflexivity.
  - apply postItem_records in Hitem. destruct Hitem as ((r & Hrec) & _).
    destruct (post_recorded_grows _ _ _ Hwf Hrec) as (Hwf1 & Hgrow).
    destruct (IH Hwf1) as (Hwfk & Hlen & Hpc & Hpf).
    split; [exact Hwfk|].
    unfold postResults in *. rewrite length_app in *. cbn [length].
    destruct Hgrow as [(Ec & Ef)|(Ec & Ef)]; rewrite Ec, Ef in *;
      rewrite ?length_app in *; cbn [length] in *.
    + split; [lia|]. split; [|exact Hpf].
      etransitivity; [|exact Hpc]. apply prefix_app_r. reflexivity.
    + split; [lia|]. split; [exact Hpc|].
      etransitivity; [|exact Hpf]. apply prefix_app_r. reflexivity.
Qed.

(** A stop signal seen at a boundary ends the loop on the spot. *)
Lemma joinLoop_stopped (fuel : nat) (options : GroupManager.JoinGroupOptions)
      (n i : nat) (rest : list string) (s : State) :
  shouldStop (world s) = true ->
  joinLoop env fuel options n i rest s = (Ok tt, s).
Proof.
  intros Hstop. destruct rest as [|groupUrl rest]; [reflexivity|].
  cbn [joinLoop]. unfold bind, readShouldStop. rewrite Hstop. reflexivity.
Qed.

Lemma postLoop_stopped (fuel : nat) (postTemplate : PostManager.PostData)
      (n i : nat) (rest : list string) (s : State) :
  shouldStop (world s) = true ->
  postLoop env fuel postTemplate n i rest s = (Ok tt, s).
Proof.
  intros Hstop. destruct rest as [|groupUrl rest]; [reflexivity|].
  cbn [postLoop]. unfold bind, readShouldStop. rewrite Hstop. reflexivity.
Qed.

(** The loop over the whole batch first runs the rounds of [done]. *)
Lemma joinLoop_through (fuel : nat) (options : GroupManager.JoinGroupOptions)
      (n i : nat) (done rest : list string) (s sk : State) :
  joinedThrough env fuel options n i done s sk ->
  joinLoop env fuel options n i (done ++ rest) s
  = joinLoop env fuel options n (i + length done) rest sk.
Proof.
  induction 1 as [i s|i groupUrl more s s1 s2 Hgo Hitem Hrest IH].
  - cbn [app length]. rewrite Nat.add_0_r. reflexivity.
  - cbn [app length joinLoop]. unfold bind at 1. unfold readShouldStop at 1.
    rewrite Hgo. rewrite (bind_run _ _ _ _ _ Hitem). rewrite IH.
    f_equal. lia.
Qed.

Lemma postLoop_through (fuel : nat) (postTemplate : PostManager.PostData)
      (n i : nat) (done rest : list string) (s sk : State) :
  postedThrough env fuel postTemplate n i done s sk ->
  postLoop env fuel postTemplate n i (done ++ rest) s
  = postLoop env fuel postTemplate n (i + length done) rest sk.
Proof.
  induction 1 as [i s|i groupUrl more s s1 s2 Hgo Hitem Hrest IH].
  - cbn [app length]. rewrite Nat.add_0_r. reflexivity.
  - cbn [app length postLoop]. unfold bind at 1. unfold readShouldStop at 1.
    rewrite Hgo. rewrite (bind_run _ _ _ _ _ Hitem). rewrite IH.
    f_equal. lia.
Qed.

(** [C7] Take a batch [done ++ rest] and suppose the rounds for the items
    of [done] have run, each begun at a boundary where no stop signal was
    seen, and that the stop signal is set when the last of them is over.
    Then [joinGroups] ends in exactly the state reached at that moment: no
    action is performed for any item of [rest], exactly one result per
    item of [done] has been produced, and the results that earlier items
    produced are still there, in order.  The signal is looked at only
    between two rounds.  The same holds for [createPosts]. *)
Theorem batch_stops_at_item_boundary (fuel : nat) :
  (forall options done rest s sk,
      GroupManager.wellFormed (groupView s) ->
      joinedThrough env fuel options (length (done ++ rest)) 0 done s sk ->
      shouldStop (world sk) = true ->
      joinGroups env fuel (done ++ rest) options s = (Ok tt, sk) /\
      length (joinResults sk) = (length (joinResults s) + length done)%nat /\
      GroupManager.joined (groupView s) `prefix_of` GroupManager.joined (groupView sk) /\
      GroupManager.failed (groupView s) `prefix_of` GroupManager.failed (groupView sk)) /\
  (forall postTemplate done rest s sk,
      PostManager.wellFormed (postView s) ->
      postedThrough env fuel postTemplate (length (done ++ rest)) 0 done s sk ->
      shouldStop (world sk) = true ->
      createPosts env fuel (done ++ rest) postTemplate s = (Ok tt, sk) /\
      length (postResults sk) = (length (postResults s) + length done)%nat /\
      PostManager.created (postView s) `prefix_of` PostManager.created (postView sk) /\
      PostManager.failed (postView s) `prefix_of` PostManager.failed (postView sk)).
Proof.
  split.
  - intros options done rest s sk Hwf Hdone Hstop.
    destruct (joinedThrough_results _ _ _ _ _ _ _ Hdone Hwf) as (_ & Hlen & Hpj & Hpf).
    repeat split; [|exact Hlen|exact Hpj|exact Hpf].
    unfold joinGroups. apply tryCatch_run.
    rewrite (joinLoop_through _ _ _ _ _ rest _ _ Hdone).
    apply joinLoop_stopped, Hstop.
  - intros postTemplate done rest s sk Hwf Hdone Hstop.
    destruct (postedThrough_results _ _ _ _ _ _ _ Hdone Hwf) as (_ & Hlen & Hpc & Hpf).
    repeat split; [|exact Hlen|exact Hpc|exact Hpf].
    unfold createPosts. apply tryCatch_run.
    rewrite (postLoop_through _ _ _ _ _ rest _ _ Hdone).
    apply postLoop_stopped, Hstop.
Qed.

End BatchFacts.

(** ** The monitor's wait for a resolution *)

Section AlertFacts.
Import Effects AlertSystem.
Context (env : Env).

(** Every path of [getUserInput] answers continue, after one look for the
    overlay. *)
Lemma getUserInput_continue (s : State) :
  getUserInput env s
  = (Ok (Some inputContinue),
     {| isMonitoring := isMonitoring s;
        interventionRequired := interventionRequired s;
        interventionTimeout := interventionTimeout s;
        world := step env OverlayExists (world s) |}).
Proof.
  unfold getUserInput, bind, tryCatch, onPage, perform. cbn [world trace step].
  destruct (fails env (OverlayExists :: trace (world s))); [reflexivity|].
  destruct (saysBool env (OverlayExists :: trace (world s))); reflexivity.
Qed.

(** [waitForManualResolution] always resolves with continue and with the
    flag cleared, for every priority: at once for a low priority,
    otherwise after one look for the overlay.  It sets no timer and never
    reaches the comparison with [interventionTimeout]. *)
Lemma waitForManualResolution_continues (fuel : nat) (priority : AlertPriority)
      (s : State) :
  exists s' new,
    waitForManualResolution env fuel priority s = (Ok continue, s') /\
    interventionRequired s' = false /\
    isMonitoring s' = isMonitoring s /\
    trace (world s') = new ++ trace (world s) /\
    (new = [] \/ new = [OverlayExists]).
Proof.
  destruct s as [monitoring flag limit w].
  assert (Hpoll : forall fuel' start,
             checkResolution env fuel' start
                             {| isMonitoring := monitoring; interventionRequired := flag;
                                interventionTimeout := limit; world := w |}
             = (Ok continue,
                {| isMonitoring := monitoring; interventionRequired := false;
                   interventionTimeout := limit;
                   world := step env OverlayExists w |})).
  { intros fuel' start. destruct fuel'; cbn [checkResolution];
      rewrite (bind_run _ _ _ _ _ (getUserInput_continue _)); reflexivity. }
  destruct priority.
  1-3: eexists _, [OverlayExists];
       unfold waitForManualResolution, bind at 1, onPage at 1, dateNow at 1;
       cbn [world isMonitoring interventionRequired interventionTimeout];
       rewrite Hpoll; repeat split; right; reflexivity.
  eexists _, []. unfold waitForManualResolution. repeat split. left. reflexivity.
Qed.

End AlertFacts.

(** ** The theorems at work on the scenarios *)

Section ScenarioFacts.
Import Effects Utils Selectors Arrays Scenarios MoreScenarios.

Lemma groupStart_wellFormed : GroupManager.wellFormed groupStart.
Proof.
  unfold GroupManager.wellFormed. split; [|split].
  - apply elem_of_dom. vm_compute. eexists. reflexivity.
  - apply elem_of_dom. vm_compute. eexists. reflexivity.
  - vm_compute. discriminate.
Qed.

Lemma postStart_wellFormed : PostManager.wellFormed postStart.
Proof.
  unfold PostManager.wellFormed. split; [|split].
  - apply elem_of_dom. vm_compute. eexists. reflexivity.
  - apply elem_of_dom. vm_compute. eexists. reflexivity.
  - vm_compute. discriminate.
Qed.

(** Of two candidates with the URL /groups/1 the first one is kept. *)
Lemma removeDuplicateGroups_first_occurrence_witness :
  Discovery.removeDuplicateGroups candidates
  = [ candidate "/groups/1" "Web Developers" 1200; candidate "/groups/2" "React" 50 ] /\
  "/groups/1" ∈ Discovery.url <$> Discovery.removeDuplicateGroups candidates.
Proof.
  destruct (removeDuplicateGroups_first_occurrence candidates) as (Hfirst & _ & _ & Hall).
  split.
  - rewrite Hfirst. vm_compute. reflexivity.
  - apply (Hall (candidate "/groups/1" "Web Devs (mirror)" 7)).
    unfold candidates. apply list_elem_of_further, list_elem_of_further, list_elem_of_here.
Defined.


(** Copies of the empty lists of new managers. *)
Lemma getters_return_copies_witness :
  (exists l s',
      GroupManager.getJoinedGroups groupStart = (Ok l, s') /\
      GroupManager.this s' = GroupManager.this groupStart) /\
  (exists l s',
      PostManager.getFailedPosts postStart = (Ok l, s') /\
      PostManager.this s' = PostManager.this postStart).
Proof.
  destruct getters_return_copies as [Hgroups Hposts]. split.
  - destruct (Hgroups groupStart groupStart_wellFormed)
      as [(l & s' & Hrun & Hthis & _) _].
    exists l, s'. split; assumption.
  - destruct (Hposts postStart postStart_wellFormed)
      as [_ (l & s' & Hrun & Hthis & _)].
    exists l, s'. split; assumption.
Defined.

(** A page showing the restricted notice. *)
Lemma joinGroup_blocked_witness :
  exists result s',
    GroupManager.joinGroup envBlocked "https://www.facebook.com/groups/1" noOptions
                           groupStart = (Ok result, s') /\
    GroupManager.status result = "blocked" /\
    GroupManager.failed s' = [result].
Proof.
  destruct (joinGroup_blocked envBlocked groupStart "https://www.facebook.com/groups/1"
                              noOptions groupStart_wellFormed)
    as (result & s' & new & Hrun & _ & _ & [Hstatus _] & Hfailed & _).
  - exists (BLOCKS_restricted, "Access restricted"). split.
    + unfold GroupManager.blockIndicators.
      apply list_elem_of_further, list_elem_of_here.
    + intros later. reflexivity.
  - exists result, s'. repeat split; assumption.
Defined.

(** The restricted notice is shown, but the navigation times out: the
    result has the status error, not blocked. *)
Lemma joinGroup_blocked_counterexample :
  shownFrom envUnreachable
            (Goto "https://www.facebook.com/groups/1"
                  :: trace (GroupManager.world groupStart))
            BLOCKS_restricted /\
  exists result s',
    GroupManager.joinGroup envUnreachable "https://www.facebook.com/groups/1" noOptions
                           groupStart = (Ok result, s') /\
    GroupManager.success result = false /\
    GroupManager.status result = "error" /\
    GroupManager.message result = "page.goto: Timeout 30000ms exceeded" /\
    GroupManager.failed s' = [result].
Proof.
  split; [intros later; reflexivity|].
  eexists _, _. split; [vm_compute; reflexivity|].
  split; [reflexivity|]. split; [reflexivity|]. split; [reflexivity|].
  vm_compute. reflexivity.
Qed.

(** A group page with a Join button on which no confirmation ever shows. *)
Lemma joinGroup_pending_approval_witness :
  exists result s',
    GroupManager.joinGroup envJoinable "https://www.facebook.com/groups/2" noOptions
                           groupStart = (Ok result, s') /\
    GroupManager.success result = true /\
    GroupManager.status result = "pending_approval" /\
    GroupManager.joined s' = [result].
Proof.
  edestruct (joinGroup_pending_approval
               envJoinable groupStart "https://www.facebook.com/groups/2" noOptions)
    as (result & s' & Hrun & _ & Hsuccess & Hstatus & Hjoined & _).
  - exact groupStart_wellFormed.
  - reflexivity.
  - reflexivity.
  - reflexivity.
  - reflexivity.
  - reflexivity.
  - reflexivity.
  - reflexivity.
  - reflexivity.
  - reflexivity.
  - intros selector Hin later.
    repeat (apply elem_of_cons in Hin; destruct Hin as [->|Hin]; [reflexivity|]).
    inversion Hin.
  - exists result, s'. repeat split; assumption.
Defined.

(** A record captured 25 hours ago, a missing file, and a fresh record
    on a page that shows the top bar. *)
Lemma loadSession_rejects_stale_and_absent_witness :
  (exists s',
      SessionManager.loadSession envStale sessionStart = (Ok false, s') /\
      SessionManager.session s' = None) /\
  (exists s',
      SessionManager.loadSession envAbsent sessionStart = (Ok false, s')) /\
  (exists s' before,
      SessionManager.loadSession envLoggedIn sessionStart = (Ok true, s') /\
      SessionManager.verifyLogin envLoggedIn
        (afterDelay envLoggedIn 3000 6000 (step envLoggedIn Reload before))
      = (Ok true, SessionManager.world s')).
Proof.
  split; [|split].
  - destruct (proj1 (loadSession_rejects_stale_and_absent envStale sessionStart)
                    (1700000000000 - 25 * 3600000))
      as (s' & new & Hrun & Hsession & _).
    + reflexivity.
    + reflexivity.
    + exists s'. split; assumption.
  - destruct (proj1 (proj2 (loadSession_rejects_stale_and_absent envAbsent sessionStart)))
      as (s' & Hrun & _).
    + reflexivity.
    + reflexivity.
    + exists s'. exact Hrun.
  - eexists.
    edestruct (proj2 (proj2 (loadSession_rejects_stale_and_absent envLoggedIn sessionStart)))
      as (before & Hverify & _).
    + vm_compute. reflexivity.
    + exists before. split; [vm_compute; reflexivity|exact Hverify].
Defined.

Lemma batchStart_wellFormed :
  GroupManager.wellFormed (Orchestrator.groupView batchStart) /\
  PostManager.wellFormed (Orchestrator.postView batchStart).
Proof.
  split.
  - exact groupStart_wellFormed.
  - exact postStart_wellFormed.
Qed.

(** A batch of five, with [stop()] called during the pause after the
    second item: two results and nothing more. *)
Lemma batch_stops_at_item_boundary_witness :
  (exists sk,
      Orchestrator.joinGroups envStopped 10 ["a"; "b"; "c"; "d"; "e"] noOptions batchStart
      = (Ok tt, sk) /\
      length (Orchestrator.joinResults sk) = 2%nat /\
      gotos (trace (Orchestrator.world sk)) = 2%nat) /\
  (exists sk,
      Orchestrator.createPosts envStopped 10 ["a"; "b"; "c"; "d"; "e"] textPost batchStart
      = (Ok tt, sk) /\
      length (Orchestrator.postResults sk) = 2%nat /\
      gotos (trace (Orchestrator.world sk)) = 2%nat).
Proof.
  destruct (batch_stops_at_item_boundary envStopped 10) as [Hjoin Hpost].
  destruct batchStart_wellFormed as [Hgroups Hposts].
  split.
  - eassert (Hdone : Orchestrator.joinedThrough envStopped 10 noOptions 5 0
                                                ["a"; "b"] batchStart _).
    { eapply Orchestrator.joinedNext; [reflexivity|vm_compute; reflexivity|].
      eapply Orchestrator.joinedNext; [reflexivity|vm_compute; reflexivity|].
      apply Orchestrator.joinedNone. }
    destruct (Hjoin noOptions ["a"; "b"] ["c"; "d"; "e"] batchStart _ Hgroups Hdone)
      as (Hrun & Hlen & _).
    + reflexivity.
    + eexists. split; [exact Hrun|]. split; [exact Hlen|reflexivity].
  - eassert (Hdone : Orchestrator.postedThrough envStopped 10 textPost 5 0
                                                ["a"; "b"] batchStart _).
    { eapply Orchestrator.postedNext; [reflexivity|vm_compute; reflexivity|].
      eapply Orchestrator.postedNext; [reflexivity|vm_compute; reflexivity|].
      apply Orchestrator.postedNone. }
    destruct (Hpost textPost ["a"; "b"] ["c"; "d"; "e"] batchStart _ Hposts Hdone)
      as (Hrun & Hlen & _).
    + reflexivity.
    + eexists. split; [exact Hrun|]. split; [exact Hlen|reflexivity].
Defined.

End ScenarioFacts.

(** * Further properties *)

(** ** Strings *)

Section StringFacts.
Import JsString.

Lemma startsWith_iff (p s : string) :
  startsWith p s = true <-> exists post, s = p +:+ post.
Proof.
  revert s. induction p as [|a p IH]; intros s.
  - split; [intros _; exists s; reflexivity|]. intros _. destruct s; reflexivity.
  - destruct s as [|b s]; simpl.
    + split; [discriminate|]. intros [post H]. discriminate.
    + destruct (Ascii.eqb a b) eqn:Hab.
      * apply Ascii.eqb_eq in Hab. subst b. rewrite IH. split.
        -- intros [post ->]. exists post. reflexivity.
        -- intros [post H]. inversion H. exists post. reflexivity.
      * split; [discriminate|]. intros [post H]. inversion H. subst.
        rewrite Ascii.eqb_refl in Hab. discriminate.
Qed.

Lemma includes_iff (s sub : string) :
  includes s sub = true <-> exists pre post, s = pre +:+ sub +:+ post.
Proof.
  induction s as [|c s IH].
  - cbn [includes]. rewrite startsWith_iff. split.
    + intros [post H]. exists EmptyString, post. exact H.
    + intros (pre & post & H). destruct pre; [|discriminate].
      exists post. exact H.
  - cbn [includes]. rewrite orb_true_iff, startsWith_iff, IH. split.
    + intros [[post H]|(pre & post & H)].
      * exists EmptyString, post. exact H.
      * exists (String c pre), post. rewrite H. reflexivity.
    + intros (pre & post & H). destruct pre as [|a pre].
      * left. exists post. exact H.
      * right. inversion H. exists pre, post. reflexivity.
Qed.

Lemma string_app_assoc (a b c : string) : a +:+ (b +:+ c) = (a +:+ b) +:+ c.
Proof.
  induction a as [|x a IH]; [reflexivity|].
  change (String x (a +:+ (b +:+ c)) = String x ((a +:+ b) +:+ c)).
  f_equal. exact IH.
Qed.

Lemma includes_trans (a b c : string) :
  includes a b = true -> includes b c = true -> includes a c = true.
Proof.
  rewrite !includes_iff. intros (p1 & q1 & ->) (p2 & q2 & ->).
  exists (p1 +:+ p2), (q2 +:+ q1).
  rewrite <- !string_app_assoc. reflexivity.
Qed.

Lemma split_not_nil (sep : ascii) (s : string) : split sep s <> [].
Proof.
  destruct s as [|c s]; simpl; [discriminate|].
  destruct (split sep s); [discriminate|].
  destruct (Ascii.eqb c sep); discriminate.
Qed.

Lemma split_pieces (sep : ascii) (s piece : string) :
  piece ∈ split sep s -> includes s piece = true.
Proof.
  rewrite includes_iff. revert piece.
  induction s as [|c s IH]; intros piece; cbn [split].
  - intros H. apply list_elem_of_singleton in H. subst.
    exists EmptyString, EmptyString. reflexivity.
  - destruct (split sep s) as [|hd tl] eqn:Hs.
    + intros H. apply list_elem_of_singleton in H. subst.
      exists EmptyString, (String c s). reflexivity.
    + assert (Hrest : forall p, p ∈ hd :: tl -> exists pre post, String c s = pre +:+ p +:+ post).
      { intros p Hp. destruct (IH p Hp) as (pre & post & ->).
        exists (String c pre), post. reflexivity. }
      assert (Hhd : exists post, s = hd +:+ post).
      { clear IH Hrest. revert hd tl Hs. induction s as [|d s IHs]; intros hd tl; cbn [split].
        - intros H. inversion H. exists EmptyString. reflexivity.
        - destruct (split sep s) as [|hd' tl'] eqn:Hs'.
          + intros H. inversion H. exists (String d s). reflexivity.
          + destruct (Ascii.eqb d sep); intros H; inversion H; subst.
            * exists (String d s). reflexivity.
            * destruct (IHs _ _ eq_refl) as [post ->]. exists post. reflexivity. }
      destruct (Ascii.eqb c sep).
      * intros H. apply elem_of_cons in H. destruct H as [->|H].
        -- exists EmptyString, (String c s). reflexivity.
        -- apply Hrest, H.
      * intros H. apply elem_of_cons in H. destruct H as [->|H].
        -- destruct Hhd as [post ->]. exists EmptyString, post. reflexivity.
        -- apply Hrest, list_elem_of_further, H.
Qed.

Lemma toLowerCase_app (a b : string) :
  toLowerCase (a +:+ b) = toLowerCase a +:+ toLowerCase b.
Proof.
  induction a as [|c a IH]; [reflexivity|].
  change (String (toLowerChar c) (toLowerCase (a +:+ b))
          = String (toLowerChar c) (toLowerCase a +:+ toLowerCase b)).
  f_equal. exact IH.
Qed.

Lemma includes_comma (c : ascii) (s : string) :
  includes (String c s) "," = Ascii.eqb ","%char c || includes s ",".
Proof.
  cbn [includes startsWith]. destruct (Ascii.eqb ","%char c); [|reflexivity].
  destruct s; reflexivity.
Qed.

Lemma split_at_comma (a b : string) :
  includes a "," = false ->
  split ","%char (a +:+ String ","%char b) = a :: split ","%char b.
Proof.
  induction a as [|c a IH]; intros Hfree.
  - simpl. pose proof (split_not_nil ","%char b).
    destruct (split ","%char b); [contradiction|reflexivity].
  - rewrite includes_comma in Hfree. apply orb_false_elim in Hfree.
    destruct Hfree as [Hc Ha].
    change (String c a +:+ String ","%char b) with (String c (a +:+ String ","%char b)).
    cbn [split]. rewrite (IH Ha).
    rewrite Ascii.eqb_sym in Hc. rewrite Hc. reflexivity.
Qed.

Lemma split_no_comma (a : string) :
  includes a "," = false -> split ","%char a = [a].
Proof.
  induction a as [|c a IH]; intros Hfree; [reflexivity|].
  rewrite includes_comma in Hfree. apply orb_false_elim in Hfree.
  destruct Hfree as [Hc Ha].
  cbn [split]. rewrite (IH Ha). rewrite Ascii.eqb_sym in Hc. rewrite Hc. reflexivity.
Qed.

Lemma startsWith_refl (s : string) : startsWith s s = true.
Proof.
  induction s as [|c s IH]; [reflexivity|].
  cbn [startsWith]. rewrite Ascii.eqb_refl. exact IH.
Qed.

End StringFacts.

Section ListFacts.
Context {A : Type} (P : A -> Prop) `{forall x, Decision (P x)}.

Lemma filter_all (l : list A) :
  Forall P l -> filter P l = l.
Proof.
  induction 1 as [|x l Hx Hl IH]; [reflexivity|].
  rewrite filter_cons_True by exact Hx. f_equal. exact IH.
Qed.

Lemma filter_sublist_mono (l1 l2 : list A) :
  sublist l1 l2 -> sublist (filter P l1) (filter P l2).
Proof.
  induction 1 as [|x l1 l2 Hsub IH|x l1 l2 Hsub IH].
  - constructor.
  - rewrite !filter_cons. destruct (decide (P x)); [apply sublist_skip|]; exact IH.
  - rewrite filter_cons. destruct (decide (P x)); [apply sublist_cons|]; exact IH.
Qed.

End ListFacts.


(** ** Ranking and de-duplication, continued *)

Section MoreDiscoveryFacts.
Import JsString Discovery.

Ltac same_set :=
  apply set_eq; intros ?;
  rewrite ?elem_of_union, ?elem_of_list_to_set, ?fmap_cons, ?fmap_nil,
    ?elem_of_cons, ?elem_of_nil, ?elem_of_union, ?elem_of_singleton, ?elem_of_empty;
  try tauto.


(** The filter run over a concatenation: the second list is filtered
    with the URLs of the first already seen. *)
Lemma filterSeen_app (a b : list GroupInfo) (seen : gset string) :
  filterSeen seen (a ++ b)
  = filterSeen seen a ++ filterSeen (list_to_set (url <$> a) ∪ seen) b.
Proof.
  revert seen. induction a as [|g a IH]; intros seen; simpl.
  - f_equal. same_set.
  - destruct (decide (url g ∈ seen)) as [Hin|Hout].
    + rewrite IH. f_equal. f_equal. same_set. intuition (subst; auto).
    + simpl. f_equal. rewrite IH. f_equal. f_equal. same_set.
Qed.

(** A list without repeated URLs, none of them seen, is kept whole. *)
Lemma filterSeen_distinct (groups : list GroupInfo) (seen : gset string) :
  NoDup (url <$> groups) ->
  (forall u, u ∈ url <$> groups -> u ∉ seen) ->
  filterSeen seen groups = groups.
Proof.
  revert seen. induction groups as [|g rest IH]; intros seen Hnd Hout; simpl.
  - reflexivity.
  - rewrite fmap_cons in Hnd. apply NoDup_cons in Hnd. destruct Hnd as [Hg Hnd].
    rewrite decide_False by (apply Hout; rewrite fmap_cons; apply list_elem_of_here).
    f_equal. apply IH; [exact Hnd|].
    intros u Hu. rewrite elem_of_union, elem_of_singleton.
    intros [->|Hin]; [contradiction|].
    revert Hin. apply Hout. rewrite fmap_cons. apply list_elem_of_further, Hu.
Qed.

(** Seeing more URLs at the start removes exactly the groups that carry
    them. *)
Lemma filterSeen_more (groups : list GroupInfo) (more seen : gset string) :
  filterSeen (more ∪ seen) groups = filter (fun g => url g ∉ more) (filterSeen seen groups).
Proof.
  revert seen. induction groups as [|g rest IH]; intros seen; simpl; [reflexivity|].
  destruct (decide (url g ∈ seen)) as [Hin|Hout].
  - rewrite decide_True by (apply elem_of_union; right; exact Hin). apply IH.
  - destruct (decide (url g ∈ more)) as [Hmore|Hless].
    + rewrite decide_True by (apply elem_of_union; left; exact Hmore).
      rewrite filter_cons_False by (intros H; apply H, Hmore).
      rewrite <- IH. f_equal. same_set. intuition (subst; auto).
    + rewrite decide_False by (rewrite elem_of_union; tauto).
      rewrite filter_cons_True by exact Hless.
      f_equal. rewrite <- IH. f_equal. same_set.
Qed.

(** [X1] The relevance score is always between 0 and 100, and a group
    whose lower-cased name contains the whole lower-cased keyword scores
    at least 60: the full match brings 50 and each word of the keyword,
    being part of the name as well, brings 10 more. *)
Theorem calculateRelevanceScore_bounds (group : GroupInfo) (keyword : string) :
  0 <= calculateRelevanceScore group keyword <= 100 /\
  (includes (toLowerCase (name group)) (toLowerCase keyword) = true ->
   60 <= calculateRelevanceScore group keyword).
Proof.
  unfold calculateRelevanceScore. rewrite word_loop_counts. split.
  - destruct (includes _ (toLowerCase keyword));
      destruct (memberCount group >? 50000);
      destruct (memberCount group >? 10000); lia.
  - intros Hfull. rewrite Hfull.
    rewrite filter_all.
    + pose proof (split_not_nil " "%char (toLowerCase keyword)) as Hne.
      destruct (split " "%char (toLowerCase keyword)); [contradiction|].
      cbn [length].
      destruct (memberCount group >? 50000);
        destruct (memberCount group >? 10000); lia.
    + apply Forall_forall. intros word Hword.
      eapply includes_trans; [exact Hfull|]. eapply split_pieces, Hword.
Qed.

Lemma calculateRelevanceScore_bounds_witness :
  60 <= calculateRelevanceScore (Scenarios.candidate "/groups/1" "Web Developers" 1200)
                                "web dev"
     <= 100.
Proof.
  destruct (calculateRelevanceScore_bounds
              (Scenarios.candidate "/groups/1" "Web Developers" 1200) "web dev")
    as [[_ Hhigh] Hfull].
  split; [apply Hfull; reflexivity|exact Hhigh].
Defined.

(** [X2] [removeDuplicateGroups] is idempotent, and it returns a list
    whose URLs are already distinct unchanged. *)
Theorem removeDuplicateGroups_idempotent (groups : list GroupInfo) :
  removeDuplicateGroups (removeDuplicateGroups groups) = removeDuplicateGroups groups /\
  (NoDup (url <$> groups) -> removeDuplicateGroups groups = groups).
Proof.
  split.
  - unfold removeDuplicateGroups. apply filterSeen_distinct.
    + apply filterSeen_NoDup.
    + intros u _. apply not_elem_of_empty.
  - intros Hnd. apply filterSeen_distinct; [exact Hnd|].
    intros u _. apply not_elem_of_empty.
Qed.

Lemma removeDuplicateGroups_idempotent_witness :
  removeDuplicateGroups (removeDuplicateGroups Scenarios.candidates)
  = removeDuplicateGroups Scenarios.candidates /\
  removeDuplicateGroups (take 2 Scenarios.candidates) = take 2 Scenarios.candidates.
Proof.
  split.
  - apply (removeDuplicateGroups_idempotent Scenarios.candidates).
  - apply (removeDuplicateGroups_idempotent (take 2 Scenarios.candidates)).
    change (NoDup ["/groups/1"; "/groups/2"]).
    apply NoDup_cons. split; [|apply NoDup_singleton].
    intros H. apply list_elem_of_singleton in H. discriminate.
Defined.

(** [X3] De-duplicating a concatenation gives the de-duplicated first
    list followed by the de-duplicated second list without the groups
    whose URL occurs in the first: the groups of the first list take
    precedence. *)
Theorem removeDuplicateGroups_app (first second : list GroupInfo) :
  removeDuplicateGroups (first ++ second)
  = removeDuplicateGroups first
    ++ filter (fun g => url g ∉ url <$> first) (removeDuplicateGroups second).
Proof.
  unfold removeDuplicateGroups. rewrite filterSeen_app, filterSeen_more. f_equal.
  apply list_filter_iff. intros g. rewrite elem_of_list_to_set. tauto.
Qed.

End MoreDiscoveryFacts.

(** ** Member counts *)

Section MemberCountFacts.
Import JsString Discovery.

Lemma takeDigits_allDigits (s : string) :
  Forall (fun c => isDigit c = true) (list_ascii_of_string (takeDigits s).1).
Proof.
  induction s as [|c s IH]; simpl.
  - constructor.
  - destruct (isDigit c) eqn:Hc.
    + destruct (takeDigits s) as [ds rest]. simpl in *. constructor; assumption.
    + constructor.
Qed.

Lemma digitsValue_nonneg (ds : string) (acc : Z) :
  Forall (fun c => isDigit c = true) (list_ascii_of_string ds) ->
  0 <= acc -> 0 <= digitsValue acc ds.
Proof.
  revert acc. induction ds as [|c ds IH]; intros acc Hds Hacc; simpl.
  - exact Hacc.
  - inversion Hds as [|? ? Hc Hrest]; subst.
    apply IH; [exact Hrest|].
    unfold isDigit in Hc. unfold digitVal.
    apply andb_prop in Hc. destruct Hc as [Hlo Hhi]. lia.
Qed.

Lemma parseFloat_nonneg (s : string) (num : Decimal) :
  parseFloat s = Some num -> 0 <= mant num.
Proof.
  unfold parseFloat.
  pose proof (takeDigits_allDigits s) as Hip.
  destruct (takeDigits s) as [ip rest]. simpl in Hip.
  assert (Hint : 0 <= digitsValue 0 ip) by (apply digitsValue_nonneg; [exact Hip|lia]).
  destruct rest as [|c rest'].
  - destruct ip; [discriminate|]. intros H. inversion H. exact Hint.
  - destruct (Ascii.eqb c "."%char) eqn:Hdot.
    + apply Ascii.eqb_eq in Hdot. subst c.
      pose proof (takeDigits_allDigits rest') as Hfp.
      destruct (takeDigits rest') as [fp rest2]. simpl in Hfp.
      assert (0 <= digitsValue (digitsValue 0 ip) fp)
        by (apply digitsValue_nonneg; assumption).
      destruct ip; destruct fp; try discriminate; intros H0; inversion H0; assumption.
    + assert (Hplain :
        match c with
        | "."%char => True
        | _ => forall r : option Decimal,
            match ip with EmptyString => None | _ => Some {| mant := digitsValue 0 ip; frac := 0 |} end = r ->
            r = Some num -> 0 <= mant num
        end).
      { destruct c as [[] [] [] [] [] [] [] []]; try exact I;
          intros r <-; destruct ip; try discriminate; intros H; inversion H; exact Hint. }
      destruct c as [[] [] [] [] [] [] [] []]; try discriminate Hdot;
        intros H; eapply Hplain; try reflexivity; exact H.
Qed.

Lemma parseMemberCount_nonneg (text : string) : 0 <= parseMemberCount text.
Proof.
  unfold parseMemberCount. destruct text as [|c rest]; [lia|].
  destruct (parseFloat _) as [num|] eqn:Hnum; [|lia].
  apply parseFloat_nonneg in Hnum. unfold floorScaled.
  apply Z.div_pos; [|lia].
  destruct (includes _ "m"); [|destruct (includes _ "k")]; lia.
Qed.

Lemma keepNumeric_dots (text : string) :
  Forall (fun c => isDigit c = false) (list_ascii_of_string text) ->
  Forall (fun c => c = "."%char) (list_ascii_of_string (keepNumeric text)).
Proof.
  induction text as [|c text IH]; simpl; intros H.
  - constructor.
  - inversion H as [|? ? Hc Hrest]; subst. rewrite Hc. simpl.
    destruct (Ascii.eqb c "."%char) eqn:Hdot.
    + apply Ascii.eqb_eq in Hdot. simpl. constructor; [exact Hdot|apply IH, Hrest].
    + apply IH, Hrest.
Qed.

Lemma takeDigits_dots (s : string) :
  Forall (fun c => c = "."%char) (list_ascii_of_string s) ->
  takeDigits s = (EmptyString, s).
Proof.
  destruct s as [|c s]; simpl; [reflexivity|].
  intros H. inversion H; subst. reflexivity.
Qed.

Lemma parseFloat_dots (s : string) :
  Forall (fun c => c = "."%char) (list_ascii_of_string s) -> parseFloat s = None.
Proof.
  intros H. unfold parseFloat. rewrite (takeDigits_dots s H).
  destruct s as [|c s]; [reflexivity|].
  simpl in H. inversion H as [|? ? Hc Hrest]; subst.
  rewrite (takeDigits_dots s Hrest). reflexivity.
Qed.

(** [X4] A member count is never negative, and a text without any
    digit counts as 0. *)
Theorem parseMemberCount_range (text : string) :
  0 <= parseMemberCount text /\
  (Forall (fun c => isDigit c = false) (list_ascii_of_string text) ->
   parseMemberCount text = 0).
Proof.
  split; [apply parseMemberCount_nonneg|].
  intros H. unfold parseMemberCount. destruct text as [|c rest]; [reflexivity|].
  rewrite parseFloat_dots by (apply keepNumeric_dots, H). reflexivity.
Qed.

Lemma parseMemberCount_range_witness :
  0 <= parseMemberCount "12.5K" /\ parseMemberCount "no count shown" = 0.
Proof.
  split.
  - apply (parseMemberCount_range "12.5K").
  - apply (parseMemberCount_range "no count shown").
    apply Forall_forall. intros c Hc. apply list_elem_of_In in Hc.
    repeat (destruct Hc as [<-|Hc]; [reflexivity|]). destruct Hc.
Defined.

End MemberCountFacts.

(** ** Selection parsing, continued *)

Section MoreSelectionFacts.
Import JsString Selection GroupSelector.

Lemma setAdd_elem (i x : Z) (indices : list Z) :
  x ∈ setAdd i indices <-> x ∈ indices \/ x = i.
Proof.
  unfold setAdd. destruct (decide (i ∈ indices)) as [Hin|Hout].
  - split; [tauto|]. intros [H| ->]; assumption.
  - rewrite elem_of_app, list_elem_of_singleton. tauto.
Qed.

Lemma addRange_elem (n : nat) (i x : Z) (indices : list Z) :
  x ∈ addRange n i indices <-> x ∈ indices \/ i <= x < i + Z.of_nat n.
Proof.
  revert i indices. induction n as [|n IH]; intros i indices; simpl addRange.
  - split; [tauto|]. intros [H|H]; [exact H|lia].
  - rewrite IH, setAdd_elem. split.
    + intros [[H| ->]|H]; [tauto|right; lia|right; lia].
    + intros [H|H]; [tauto|].
      destruct (decide (x = i)) as [->|Hne]; [tauto|right; lia].
Qed.

Lemma addPart_elem (maxIndex x : Z) (indices : list Z) (part : string) :
  x ∈ addPart maxIndex indices part <-> x ∈ indices \/ selects maxIndex part x.
Proof.
  unfold addPart, selects, isRange, rangeStart, rangeEnd.
  destruct (includes part "-").
  - destruct (nth 0 _ None) as [s|] eqn:Hs.
    2:{ split; [tauto|]. intros [H|(s & e & H & _)]; [exact H|discriminate]. }
    destruct (nth 1 _ None) as [e|] eqn:He.
    2:{ split; [tauto|]. intros [H|(s' & e & _ & H & _)]; [exact H|discriminate]. }
    destruct (truthy (Some s) && truthy (Some e) && (s <=? e) && (1 <=? s)
              && (e <=? maxIndex)) eqn:Hguard.
    + repeat (apply andb_prop in Hguard; destruct Hguard as [Hguard ?]).
      rewrite addRange_elem. split.
      * intros [H3|H3]; [tauto|]. right. exists s, e. repeat split; lia.
      * intros [H3|(s' & e' & Hs' & He' & H3)]; [tauto|].
        inversion Hs'; inversion He'; subst. right. lia.
    + split; [tauto|]. intros [H|(s' & e' & Hs' & He' & H1 & H2 & H3)]; [exact H|].
      inversion Hs'; inversion He'; subst. exfalso.
      assert (truthy (Some s') = true) by (simpl; apply negb_true_iff; lia).
      assert (truthy (Some e') = true) by (simpl; apply negb_true_iff; lia).
      rewrite H, H0 in Hguard. simpl in Hguard.
      repeat (apply andb_false_iff in Hguard; destruct Hguard as [Hguard|Hguard]); lia.
  - destruct (parseInt part) as [n|] eqn:Hn.
    2:{ split; [tauto|]. intros [H|[H _]]; [exact H|discriminate]. }
    destruct (truthy (Some n) && (1 <=? n) && (n <=? maxIndex)) eqn:Hguard.
    + repeat (apply andb_prop in Hguard; destruct Hguard as [Hguard ?]).
      rewrite setAdd_elem. split.
      * intros [H1|H1]; [tauto|]. subst. right. split; [reflexivity|lia].
      * intros [H1|[H1 H2]]; [tauto|]. inversion H1. tauto.
    + split; [tauto|]. intros [H|[H1 H2]]; [exact H|].
      inversion H1; subst. exfalso.
      assert (truthy (Some x) = true) by (simpl; apply negb_true_iff; lia).
      rewrite H in Hguard. simpl in Hguard.
      repeat (apply andb_false_iff in Hguard; destruct Hguard as [Hguard|Hguard]); lia.
Qed.

Lemma parts_elem (maxIndex x : Z) (parts : list string) (indices : list Z) :
  x ∈ fold_left (addPart maxIndex) parts indices
  <-> x ∈ indices \/ exists part, part ∈ parts /\ selects maxIndex part x.
Proof.
  revert indices. induction parts as [|p ps IH]; intros indices; simpl.
  - split; [tauto|]. intros [H|(part & H & _)]; [exact H|inversion H].
  - rewrite IH, addPart_elem. split.
    + intros [[H|H]|(part & H1 & H2)]; [tauto| |].
      * right. exists p. split; [apply list_elem_of_here|exact H].
      * right. exists part. split; [apply list_elem_of_further, H1|exact H2].
    + intros [H|(part & H1 & H2)]; [tauto|].
      apply elem_of_cons in H1. destruct H1 as [->|H1]; [tauto|].
      right. exists part. tauto.
Qed.

(** [X5] An index is in the result of [parseSelection] exactly when
    one of the trimmed, comma-separated tokens of the input stands for
    it: a plain token for the integer it reads as, a token with a dash
    for every integer from its start to its end, in both cases only
    within 1 and [maxIndex]. *)
Theorem parseSelection_selected (input : string) (maxIndex i : Z) :
  i ∈ parseSelection input maxIndex
  <-> exists part, part ∈ map trim (split ","%char input) /\ selects maxIndex part i.
Proof.
  unfold parseSelection.
  rewrite (merge_sort_Permutation Z.le _), parts_elem.
  split; [|tauto]. intros [H|H]; [inversion H|exact H].
Qed.

(** The result is strictly ascending and within range. *)
Lemma parseSelection_sorted (input : string) (maxIndex : Z) :
  StronglySorted Z.lt (parseSelection input maxIndex) /\
  Forall (fun i => 1 <= i <= maxIndex) (parseSelection input maxIndex).
Proof.
  unfold parseSelection.
  set (parts := map trim (split ","%char input)).
  destruct (parts_indexSet maxIndex parts []) as [Hnd Hall].
  { split; constructor. }
  pose proof (merge_sort_Permutation Z.le (fold_left (addPart maxIndex) parts []))
    as Hperm.
  split.
  - apply ascending_NoDup_strict.
    + apply StronglySorted_merge_sort; typeclasses eauto.
    + rewrite Hperm. exact Hnd.
  - rewrite Hperm. exact Hall.
Qed.

End MoreSelectionFacts.

(** ** Interactive group selection *)

Section GroupSelectorFacts.
Import JsString Discovery Selection Effects GroupSelector.

(** Picking the groups at ascending positions keeps them in order. *)
Lemma picked_sublist (groups : list GroupInfo) (indices : list Z) (k : Z) :
  StronglySorted Z.lt indices ->
  Forall (fun i => k <= i) indices ->
  1 <= k ->
  sublist (omap (fun index => at_ groups (index - 1)) indices)
          (drop (Z.to_nat (k - 1)) groups).
Proof.
  intros Hsorted. revert k.
  induction Hsorted as [|i indices Hsorted IH Hi]; intros k Hk Hone; simpl.
  - apply sublist_nil_l.
  - inversion Hk as [|? ? Hki Hrest]; subst.
    unfold at_ at 1. rewrite (proj2 (Z.ltb_ge _ _)) by lia.
    destruct (groups !! Z.to_nat (i - 1)) as [g|] eqn:Hg.
    + assert (Hnext : sublist (omap (fun index => at_ groups (index - 1)) indices)
                              (drop (Z.to_nat (i + 1 - 1)) groups)).
      { apply IH; [|lia]. rewrite Forall_forall in Hi |- *.
        intros j Hj. specialize (Hi j Hj). lia. }
      pose proof (drop_S _ _ _ Hg) as Hd.
      replace (S (Z.to_nat (i - 1))) with (Z.to_nat (i + 1 - 1)) in Hd by lia.
      transitivity (drop (Z.to_nat (i - 1)) groups).
      * rewrite Hd. apply sublist_skip, Hnext.
      * replace (Z.to_nat (i - 1))
          with (Z.to_nat (k - 1) + (Z.to_nat (i - 1) - Z.to_nat (k - 1)))%nat by lia.
        rewrite <- drop_drop. apply sublist_drop.
    + apply IH; [|exact Hone].
      rewrite Forall_forall in Hi |- *. intros j Hj. specialize (Hi j Hj). lia.
Qed.

Lemma extractUrls_sublist (some all : list GroupInfo) :
  sublist some all -> sublist (extractUrls some) (extractUrls all).
Proof.
  intros H. unfold extractUrls. apply filter_sublist_mono.
  change (sublist (url <$> some) (url <$> all)). apply fmap_sublist, H.
Qed.

Lemma extractUrls_groupsPath (groups : list GroupInfo) :
  Forall (fun url => includes url groupsPath = true) (extractUrls groups).
Proof.
  unfold extractUrls. apply Forall_forall. intros u Hu.
  apply list_elem_of_filter in Hu. destruct Hu as [Hu _].
  apply andb_prop in Hu. tauto.
Qed.

Lemma interactiveSelection_run (groups : list GroupInfo) (c : Console) :
  exists urls c',
    interactiveSelection groups c = (Ok urls, c') /\
    sublist urls (extractUrls groups) /\
    (groups <> [] -> toLowerCase (trim (lines c (asked c))) = "all" ->
     urls = extractUrls groups).
Proof.
  unfold interactiveSelection, tryCatch, bind, askQuestion, ret.
  destruct groups as [|g groups].
  - eexists _, _. split; [reflexivity|]. split; [constructor|]. intros H. contradiction.
  - set (groups' := g :: groups). set (input := trim (lines c (asked c))).
    destruct (String.eqb (toLowerCase input) "all") eqn:Hall.
    { eexists _, _. split; [reflexivity|]. split; [reflexivity|]. reflexivity. }
    destruct (String.eqb (toLowerCase input) "none") eqn:Hnone.
    { eexists _, _. split; [reflexivity|]. split; [apply sublist_nil_l|].
      intros _ H. rewrite H in Hall. discriminate. }
    eexists _, _. split; [reflexivity|]. split.
    + apply extractUrls_sublist.
      destruct (parseSelection_sorted input (Z.of_nat (length groups'))) as [Hs Hr].
      apply (picked_sublist groups' _ 1 Hs); [|lia].
      eapply Forall_impl; [exact Hr|]. simpl. intros. lia.
    + intros _ H. rewrite H in Hall. discriminate.
Qed.

(** [X6] Whatever the user answers, [interactiveSelection] returns
    URLs of the offered groups only, in the order in which the groups
    were offered and each group at most once (a sublist of
    [extractUrls groups]); the answer all, in any letter case, returns
    all of them. *)
Theorem interactiveSelection_offered (groups : list GroupInfo) (c : Console) :
  exists urls c',
    interactiveSelection groups c = (Ok urls, c') /\
    sublist urls (extractUrls groups) /\
    (groups <> [] -> toLowerCase (trim (lines c (asked c))) = "all" ->
     urls = extractUrls groups).
Proof. apply interactiveSelection_run. Qed.

Lemma interactiveSelection_offered_witness :
  exists urls c',
    interactiveSelection MoreScenarios.offered (MoreScenarios.typing [" ALL "])
    = (Ok urls, c') /\
    sublist urls (extractUrls MoreScenarios.offered) /\
    urls = extractUrls MoreScenarios.offered.
Proof.
  destruct (interactiveSelection_offered MoreScenarios.offered
                                         (MoreScenarios.typing [" ALL "]))
    as (urls & c' & Hrun & Hsub & Hall).
  exists urls, c'. split; [exact Hrun|]. split; [exact Hsub|].
  apply Hall; [discriminate|reflexivity].
Defined.

Lemma getManualGroupInput_groupsPath (c : Console) :
  exists urls c',
    getManualGroupInput c = (Ok urls, c') /\
    Forall (fun url => includes url groupsPath = true) urls.
Proof.
  unfold getManualGroupInput, tryCatch, bind, askQuestion, ret.
  destruct (negb (notEmpty _)).
  - eexists _, _. split; [reflexivity|constructor].
  - eexists _, _. split; [reflexivity|].
    apply Forall_forall. intros u Hu.
    apply list_elem_of_filter in Hu. destruct Hu as [Hu _].
    apply andb_prop in Hu. tauto.
Qed.

(** [X7] [selectGroups] always returns, and whatever the user types at
    either question, every URL it returns contains the path of a
    Facebook group. *)
Theorem selectGroups_groupsPath (joinedGroups discoveredGroups : list GroupInfo)
        (c : Console) :
  exists urls c',
    selectGroups joinedGroups discoveredGroups c = (Ok urls, c') /\
    Forall (fun url => includes url groupsPath = true) urls.
Proof.
  unfold selectGroups.
  destruct ((Z.of_nat (length joinedGroups) =? 0)
            && (Z.of_nat (length discoveredGroups) =? 0)).
  - destruct (getManualGroupInput_groupsPath c) as (urls & c' & Hrun & Hall).
    exists urls, c'. split; [|exact Hall].
    apply tryCatch_run, Hrun.
  - set (c1 := {| lines := lines c; asked := S (asked c) |}).
    assert (Hask : askQuestion (nl +:+ "Select option (1-5): ") c
                   = (Ok (trim (lines c (asked c))), c1)) by reflexivity.
    set (choice := trim (lines c (asked c))) in *.
    assert (Hextract : forall groups,
      exists urls c',
        tryCatch (ret (S := Console) (extractUrls groups)) (fun _ => getManualGroupInput) c1
        = (Ok urls, c') /\
        Forall (fun url => includes url groupsPath = true) urls).
    { intros groups. eexists _, _. split; [reflexivity|apply extractUrls_groupsPath]. }
    unfold tryCatch at 1. rewrite (bind_run _ _ _ _ _ Hask).
    destruct (String.eqb choice "1"); [apply Hextract|].
    destruct (String.eqb choice "2"); [apply Hextract|].
    destruct (String.eqb choice "3").
    { destruct (interactiveSelection_run (joinedGroups ++ discoveredGroups) c1)
        as (urls & c' & Hrun & Hsub & _).
      rewrite Hrun. exists urls, c'. split; [reflexivity|].
      apply Forall_forall. intros u Hu.
      pose proof (extractUrls_groupsPath (joinedGroups ++ discoveredGroups)) as Hall.
      rewrite Forall_forall in Hall. apply Hall.
      eapply elem_of_sublist; [exact Hu|exact Hsub]. }
    destruct (String.eqb choice "4"); [apply Hextract|].
    destruct (String.eqb choice "5"); [|apply Hextract].
    destruct (getManualGroupInput_groupsPath c1) as (urls & c' & Hrun & Hall).
    rewrite Hrun. exists urls, c'. split; [reflexivity|exact Hall].
Qed.

(** The pieces of a list joined with a comma and a space. *)
Lemma pieces_of_joined (urls : list string) (pad : string) :
  pad = EmptyString \/ pad = " " ->
  urls <> [] ->
  Forall plain urls ->
  map trim (split ","%char (pad +:+ String.concat ", " urls)) = urls.
Proof.
  intros Hpad Hne Hplain. revert pad Hpad.
  induction Hplain as [|u rest (Hu & Htrim & Hfree) Hrest IH]; intros pad Hpad;
    [contradiction|].
  assert (Hpadded : includes (pad +:+ u) "," = false /\ trim (pad +:+ u) = u).
  { destruct Hpad as [-> | ->]; [split; assumption|].
    split.
    - change (" " +:+ u) with (String " "%char u). rewrite includes_comma, Hfree.
      reflexivity.
    - exact Htrim. }
  destruct Hpadded as [Hfree' Htrim'].
  destruct rest as [|v rest].
  - cbn [String.concat]. rewrite (split_no_comma _ Hfree'). cbn [map].
    rewrite Htrim'. reflexivity.
  - change (String.concat ", " (u :: v :: rest))
      with (u +:+ String ","%char (" " +:+ String.concat ", " (v :: rest))).
    rewrite string_app_assoc.
    rewrite (split_at_comma _ _ Hfree'). cbn [map]. rewrite Htrim'. f_equal.
    apply IH; [discriminate|tauto].
Qed.

(** [X8] Manual entry gives back what was typed: when the trimmed
    answer is a list of group URLs joined by a comma and a space, each
    URL being non-empty, without white space at its ends and without a
    comma, [getManualGroupInput] returns exactly that list. *)
Theorem getManualGroupInput_round_trip (urls : list string) (c : Console) :
  Forall (fun url => plain url /\ includes url groupsPath = true) urls ->
  trim (lines c (asked c)) = String.concat ", " urls ->
  getManualGroupInput c = (Ok urls, {| lines := lines c; asked := S (asked c) |}).
Proof.
  intros Hurls Hline.
  unfold getManualGroupInput, tryCatch, bind, askQuestion, ret. rewrite Hline.
  destruct urls as [|u rest]; [reflexivity|].
  assert (Hne : notEmpty (String.concat ", " (u :: rest)) = true).
  { inversion Hurls as [|? ? [[Hu _] _] _]; subst.
    destruct u as [|a u]; [contradiction|]. destruct rest; reflexivity. }
  rewrite Hne. cbn [negb]. f_equal. f_equal.
  assert (Hplain : Forall plain (u :: rest)).
  { eapply Forall_impl; [exact Hurls|]. intros ? [? _]. assumption. }
  pose proof (pieces_of_joined (u :: rest) EmptyString (or_introl eq_refl)
                               ltac:(discriminate) Hplain) as Hpieces.
  change (EmptyString +:+ String.concat ", " (u :: rest))
    with (String.concat ", " (u :: rest)) in Hpieces.
  rewrite Hpieces. apply filter_all. eapply Forall_impl; [exact Hurls|].
  intros url [[Hu _] Hpath]. cbn beta. rewrite Hpath.
  destruct url; [contradiction|reflexivity].
Qed.

Lemma getManualGroupInput_round_trip_witness :
  getManualGroupInput
    (MoreScenarios.typing
       [" https://www.facebook.com/groups/123, https://www.facebook.com/groups/456 "])
  = (Ok [MoreScenarios.groupUrl "123"; MoreScenarios.groupUrl "456"],
     {| lines := lines (MoreScenarios.typing
                          [" https://www.facebook.com/groups/123, https://www.facebook.com/groups/456 "]);
        asked := 1 |}).
Proof.
  apply (getManualGroupInput_round_trip
           [MoreScenarios.groupUrl "123"; MoreScenarios.groupUrl "456"]).
  - repeat constructor; discriminate.
  - reflexivity.
Defined.

End GroupSelectorFacts.

(** ** Error classification *)

Section ErrorFacts.
Import JsString ErrorHandler.

Theorem isRecoverable_mentions (message : string) :
  isRecoverable message = true
  <-> exists type before after,
      type ∈ recoverableErrors /\ toLowerCase message = before +:+ type +:+ after.
Proof.
  unfold isRecoverable. rewrite existsb_exists. split.
  - intros (type & Hin & Hinc). apply includes_iff in Hinc.
    destruct Hinc as (before & after & H).
    exists type, before, after. split; [apply list_elem_of_In, Hin|exact H].
  - intros (type & before & after & Hin & H). exists type.
    split; [apply list_elem_of_In, Hin|]. apply includes_iff. eauto.
Qed.

(** [X9] An error is recoverable exactly when its lower-cased message
    contains one of the four phrases; so a message that mentions one of
    them in any letter case, with any text around it, is recoverable. *)
Theorem isRecoverable_phrases :
  (forall message,
      isRecoverable message = true
      <-> exists type before after,
          type ∈ recoverableErrors /\ toLowerCase message = before +:+ type +:+ after) /\
  (forall before word after type,
      type ∈ recoverableErrors ->
      toLowerCase word = type ->
      isRecoverable (before +:+ word +:+ after) = true).
Proof.
  split; [exact isRecoverable_mentions|].
  intros before word after type Hin Hword. apply isRecoverable_mentions.
  exists type, (toLowerCase before), (toLowerCase after). split; [exact Hin|].
  rewrite !toLowerCase_app, Hword. reflexivity.
Qed.

Lemma isRecoverable_phrases_witness :
  isRecoverable ("page.goto: " +:+ "Timeout" +:+ " 30000ms exceeded") = true.
Proof.
  apply (proj2 isRecoverable_phrases "page.goto: " "Timeout" " 30000ms exceeded" "timeout").
  - apply list_elem_of_here.
  - reflexivity.
Defined.

End ErrorFacts.

(** ** Selector table *)

Section SelectorTableFacts.
Import JsString Selectors.

Lemma lookupKey_elem (key : string) (table : list (string * string)) (v : string) :
  lookupKey key table = Some v -> (key, v) ∈ table.
Proof.
  induction table as [|[k w] rest IH]; simpl; [discriminate|].
  destruct (String.eqb k key) eqn:Hk.
  - apply String.eqb_eq in Hk. subst. intros H. inversion H. apply list_elem_of_here.
  - intros H. apply list_elem_of_further, IH, H.
Qed.

(** [X10] For an element that the category defines with a non-empty
    selector, [getMultipleSelectors] returns a list that contains that
    selector, and every selector it returns belongs to a key of the
    category that starts with the element's name. *)
Theorem getMultipleSelectors_known (category : list (string * string))
        (element baseSelector : string) :
  lookupKey element category = Some baseSelector ->
  baseSelector <> EmptyString ->
  baseSelector ∈ getMultipleSelectors category element /\
  (forall selector,
      selector ∈ getMultipleSelectors category element ->
      exists key, startsWith element key = true /\ (key, selector) ∈ category).
Proof.
  intros Hbase Hne. unfold getMultipleSelectors. rewrite Hbase.
  destruct baseSelector as [|c base]; [contradiction|].
  apply lookupKey_elem in Hbase.
  set (alternatives := map snd (filter (fun kv => startsWith element kv.1 = true) category)).
  assert (Hown : String c base ∈ alternatives).
  { unfold alternatives. change (String c base) with (snd (element, String c base)).
    apply (list_elem_of_fmap_2 snd). apply list_elem_of_filter.
    split; [apply startsWith_refl|exact Hbase]. }
  assert (Hall : forall selector, selector ∈ alternatives ->
                   exists key, startsWith element key = true /\ (key, selector) ∈ category).
  { intros selector Hsel. unfold alternatives in Hsel.
    apply (list_elem_of_fmap_1 snd) in Hsel. destruct Hsel as ([key v] & -> & Hkv).
    apply list_elem_of_filter in Hkv. exists key. exact Hkv. }
  destruct alternatives as [|a rest].
  - inversion Hown.
  - split; assumption.
Qed.

Lemma getMultipleSelectors_known_witness :
  testid "group_mall_post_button" ∈ getMultipleSelectors GROUPS "joinButton" /\
  (forall selector,
      selector ∈ getMultipleSelectors GROUPS "joinButton" ->
      exists key, startsWith "joinButton" key = true /\ (key, selector) ∈ GROUPS).
Proof.
  apply (getMultipleSelectors_known GROUPS "joinButton" (testid "group_mall_post_button")).
  - reflexivity.
  - discriminate.
Defined.

End SelectorTableFacts.

(** ** Delays, typing and scrolling *)

Section MoreUtilsFacts.
Import Effects Utils Outcome.
Context (env : Env).

Lemma relates_bind {A B} (R1 R2 R : World -> World -> Prop)
      (m : Eff World A) (k : A -> Eff World B) :
  (forall w1 w2 w3, R1 w1 w2 -> R2 w2 w3 -> R w1 w3) ->
  relates R1 m -> (forall a, relates R2 (k a)) -> relates R (bind m k).
Proof.
  intros Hcomp Hm Hk w b w' Hrun.
  apply bind_inv in Hrun.
  destruct Hrun as [(a & w1 & Hfirst & Hrest)|[(e & _ & He)|(_ & He)]];
    [|discriminate|discriminate].
  eapply Hcomp; [eapply Hm, Hfirst|eapply Hk, Hrest].
Qed.

Lemma performUnit_inv (a : action) (w w' : World) (x : unit) :
  performUnit env a w = (Ok x, w') -> w' = step env a w.
Proof. intros H. apply perform_inv in H. tauto. Qed.

Lemma TYPING_randomDelay_run (min max : Z) (w : World) :
  TYPING_randomDelay env min max w = (Ok tt, afterDelay env min max w).
Proof. reflexivity. Qed.

(** [X11] [DELAYS.random(min, max)] with [min <= max] never fails: it
    draws one random number and sets one timer, for a whole number of
    milliseconds between [min] and [max], both included. *)
Theorem DELAYS_random_bounds (min max : Z) (w : World) :
  min <= max ->
  exists delay,
    min <= delay <= max /\
    DELAYS_random env min max w
    = (Ok tt, step env (SetTimeout delay) (stepSync MathRandom w)).
Proof.
  intros Hle.
  destruct (randomBelow_range env (max - min + 1) w) as (r & Hr & Hrun); [lia|].
  exists (r + min). split; [lia|].
  unfold DELAYS_random. rewrite (bind_run _ _ _ _ _ Hrun). reflexivity.
Qed.

Lemma removeLast_app (s : string) (c : ascii) :
  removeLast (s +:+ String c EmptyString) = s.
Proof.
  induction s as [|a s IH]; [reflexivity|].
  change (String a s +:+ String c EmptyString) with (String a (s +:+ String c EmptyString)).
  cbn [removeLast]. rewrite IH.
  destruct s; reflexivity.
Qed.

Lemma string_app_empty (s : string) : s +:+ EmptyString = s.
Proof.
  induction s as [|c s IH]; [reflexivity|].
  change (String c (s +:+ EmptyString) = String c s). f_equal. exact IH.
Qed.

Lemma types_compose (a b : string) (w1 w2 w3 : World) :
  types a w1 w2 -> types b w2 w3 -> types (a +:+ b) w1 w3.
Proof.
  unfold types. intros H1 H2. rewrite H2, H1. symmetry. apply string_app_assoc.
Qed.

Lemma types_delay (min max : Z) :
  relates (types EmptyString) (TYPING_randomDelay env min max).
Proof.
  intros w a w' Hrun. rewrite TYPING_randomDelay_run in Hrun.
  inversion Hrun. unfold types. cbn. symmetry. apply string_app_empty.
Qed.

Lemma types_key (text : string) :
  relates (types text) (performUnit env (KeyboardType text)).
Proof.
  intros w a w' Hrun. apply performUnit_inv in Hrun. subst w'. reflexivity.
Qed.

(** A slip types a wrong character and deletes it again. *)
Lemma types_slip (wrong : ascii) (min max : Z) :
  relates (types EmptyString)
    (performUnit env (KeyboardType (String wrong EmptyString)) ;;;
     TYPING_randomDelay env min max ;;;
     performUnit env (KeyboardPress "Backspace") ;;;
     TYPING_randomDelay env (min * 2) (max * 2)).
Proof.
  intros w a w' Hrun.
  apply bind_inv in Hrun.
  destruct Hrun as [(? & w1 & Hkey & Hrun)|[(e & _ & He)|(_ & He)]];
    [|discriminate|discriminate].
  apply performUnit_inv in Hkey. subst w1.
  rewrite (bind_run _ _ _ _ _ (TYPING_randomDelay_run _ _ _)) in Hrun.
  apply bind_inv in Hrun.
  destruct Hrun as [(? & w2 & Hback & Hrun)|[(e & _ & He)|(_ & He)]];
    [|discriminate|discriminate].
  apply performUnit_inv in Hback. subst w2.
  rewrite TYPING_randomDelay_run in Hrun. inversion Hrun. subst w'.
  unfold types. cbn. rewrite removeLast_app. symmetry. apply string_app_empty.
Qed.

Lemma typeLoop_types (minDelay maxDelay : Z) (mistakes : bool) (percent : Z)
      (chars : list ascii) :
  relates (types (string_of_list_ascii chars))
          (typeLoop env minDelay maxDelay mistakes percent chars).
Proof.
  induction chars as [|char rest IH].
  - intros w a w' Hrun. inversion Hrun. unfold types. symmetry. apply string_app_empty.
  - cbn [typeLoop string_of_list_ascii].
    change (String char (string_of_list_ascii rest))
      with (EmptyString +:+ (EmptyString +:+ (String char EmptyString
             +:+ (EmptyString +:+ string_of_list_ascii rest)))).
    eapply relates_bind; [apply types_compose| |intros slip].
    { destruct mistakes.
      - intros w a w' Hrun. unfold randomLess in Hrun.
        unfold bind, mathRandom, ret in Hrun. inversion Hrun. subst.
        unfold types. cbn. symmetry. apply string_app_empty.
      - intros w a w' Hrun. inversion Hrun. unfold types. symmetry.
        apply string_app_empty. }
    eapply relates_bind; [apply types_compose| |intros _].
    { destruct slip.
      - apply types_slip.
      - intros w a w' Hrun. inversion Hrun. unfold types. symmetry.
        apply string_app_empty. }
    eapply relates_bind; [apply types_compose|apply types_key|intros _].
    eapply relates_bind; [apply types_compose| |intros _; exact IH].
    destruct (Ascii.eqb char " "%char); [apply types_delay|].
    destruct (_ || _); apply types_delay.
Qed.

Lemma string_of_list_ascii_of_string (s : string) :
  string_of_list_ascii (list_ascii_of_string s) = s.
Proof. induction s as [|c s IH]; [reflexivity|]. cbn. f_equal. exact IH. Qed.

(** [X12] When [humanType] ends without an error, the key events it
    has sent leave the text as it was before with the requested text
    appended, whatever the random draws: every wrong character typed
    by a simulated slip has been deleted again by a Backspace. *)
Theorem humanType_types_text (selector text : string) (minDelay maxDelay : Z)
        (mistakes : bool) (percent : Z) (w w' : World) :
  humanType env selector text minDelay maxDelay mistakes percent w = (Ok tt, w') ->
  typedText (trace w') = typedText (trace w) +:+ text.
Proof.
  unfold humanType. intros Hrun.
  apply bind_inv in Hrun.
  destruct Hrun as [(? & w1 & Hclick & Hrun)|[(e & _ & He)|(_ & He)]];
    [|discriminate|discriminate].
  apply performUnit_inv in Hclick. subst w1.
  unfold DELAYS_short in Hrun.
  rewrite (bind_run _ _ _ _ _ (DELAYS_random_run env _ _ _)) in Hrun.
  apply typeLoop_types in Hrun. unfold types in Hrun.
  rewrite string_of_list_ascii_of_string in Hrun. exact Hrun.
Qed.

Lemma scrolls_wheelLoop (steps : nat) :
  relates (scrolls (50 * Z.of_nat steps)) (wheelLoop env steps).
Proof.
  induction steps as [|steps IH]; intros w a w' Hrun.
  - inversion Hrun. unfold scrolls. lia.
  - cbn [wheelLoop] in Hrun.
    apply bind_inv in Hrun.
    destruct Hrun as [(? & w1 & Hwheel & Hrun)|[(e & _ & He)|(_ & He)]];
      [|discriminate|discriminate].
    apply performUnit_inv in Hwheel. subst w1.
    rewrite (bind_run _ _ _ _ _ (DELAYS_random_run env _ _ _)) in Hrun.
    apply IH in Hrun. unfold scrolls in *. rewrite Hrun. cbn. lia.
Qed.

(** [X13] When [SCROLL.natural] ends without an error it has turned
    the wheel by 50 pixels [Math.floor(distance / 50)] times; for a
    distance that is not negative it stops short of the distance by less
    than 50 pixels and never scrolls past it. *)
Theorem SCROLL_natural_distance (distance : Z) (w w' : World) :
  SCROLL_natural env distance w = (Ok tt, w') ->
  scrolled (trace w') = scrolled (trace w) + 50 * Z.max 0 (distance / 50) /\
  (0 <= distance ->
   distance - 50 < scrolled (trace w') - scrolled (trace w) <= distance).
Proof.
  unfold SCROLL_natural. intros Hrun. apply scrolls_wheelLoop in Hrun.
  unfold scrolls in Hrun. rewrite Hrun. split; [lia|].
  intros Hpos.
  pose proof (Z.div_mod distance 50 ltac:(lia)) as Hdiv.
  pose proof (Z.mod_pos_bound distance 50 ltac:(lia)) as Hmod.
  assert (0 <= distance / 50) by (apply Z.div_pos; lia).
  lia.
Qed.

End MoreUtilsFacts.

Section MoreUtilsWitnesses.
Import Effects Utils Outcome Scenarios.

Lemma DELAYS_random_bounds_witness :
  exists delay,
    500 <= delay <= 1500 /\
    DELAYS_random envJoinable 500 1500 start
    = (Ok tt, step envJoinable (SetTimeout delay) (stepSync MathRandom start)).
Proof. apply (DELAYS_random_bounds envJoinable 500 1500 start). lia. Defined.

(** In this world every random draw is 0, so that each character other
    than a space is first mistyped. *)
Lemma humanType_types_text_witness :
  typedText (trace (humanType envJoinable "textarea" "Hi all!" 50 150 true 1 start).2)
  = "Hi all!".
Proof.
  apply (humanType_types_text envJoinable "textarea" "Hi all!" 50 150 true 1 start).
  vm_compute. reflexivity.
Defined.

Lemma SCROLL_natural_distance_witness :
  scrolled (trace (SCROLL_natural envJoinable 230 start).2) = 200.
Proof.
  apply (SCROLL_natural_distance envJoinable 230 start). vm_compute. reflexivity.
Defined.

End MoreUtilsWitnesses.


(** ** Code that always returns *)

Create HintDb outcome discriminated.

#[global] Hint Constants Opaque : outcome.
#[global] Hint Variables Opaque : outcome.

Section OutcomeFacts.
Import Effects Outcome.
Context {S A B : Type}.

Lemma returns_ret (a : A) : returns (ret (S := S) a).
Proof. intros s. exists a, s. reflexivity. Qed.

Lemma returns_settles (m : Eff S A) : returns m -> settles m.
Proof. intros H s. destruct (H s) as (a & s' & ->). discriminate. Qed.

Lemma settles_throw (e : thrown) : settles (throw (S := S) (A := A) e).
Proof. intros s. discriminate. Qed.

Lemma returns_bind (m : Eff S A) (k : A -> Eff S B) :
  returns m -> (forall a, returns (k a)) -> returns (bind m k).
Proof.
  intros Hm Hk s. destruct (Hm s) as (a & s1 & Hrun).
  rewrite (bind_run _ _ _ _ _ Hrun). apply Hk.
Qed.

Lemma settles_bind (m : Eff S A) (k : A -> Eff S B) :
  settles m -> (forall a, settles (k a)) -> settles (bind m k).
Proof.
  intros Hm Hk s. specialize (Hm s). unfold bind.
  destruct (m s) as [[a|e|] s1]; [apply Hk|discriminate|contradiction].
Qed.

Lemma returns_tryCatch (body : Eff S A) (handler : thrown -> Eff S A) :
  settles body -> (forall e, returns (handler e)) -> returns (tryCatch body handler).
Proof.
  intros Hb Hh s. specialize (Hb s). unfold tryCatch.
  destruct (body s) as [[a|e|] s1]; [eauto|apply Hh|contradiction].
Qed.

Lemma settles_tryCatch (body : Eff S A) (handler : thrown -> Eff S A) :
  settles body -> (forall e, settles (handler e)) -> settles (tryCatch body handler).
Proof.
  intros Hb Hh s. specialize (Hb s). unfold tryCatch.
  destruct (body s) as [[a|e|] s1]; [discriminate|apply Hh|contradiction].
Qed.

End OutcomeFacts.

#[global] Hint Resolve returns_ret settles_throw : outcome.

Ltac outcome :=
  cbv zeta;
  lazymatch goal with
  | |- Outcome.returns (Effects.bind _ _) =>
      apply returns_bind; [outcome|intros ?; outcome]
  | |- Outcome.settles (Effects.bind _ _) =>
      apply settles_bind; [outcome|intros ?; outcome]
  | |- Outcome.returns (Effects.tryCatch _ _) =>
      apply returns_tryCatch; [outcome|intros ?; outcome]
  | |- Outcome.settles (Effects.tryCatch _ _) =>
      apply settles_tryCatch; [outcome|intros ?; outcome]
  | |- Outcome.returns (if ?b then _ else _) => destruct b; outcome
  | |- Outcome.settles (if ?b then _ else _) => destruct b; outcome
  | |- Outcome.returns (match ?x with _ => _ end) => destruct x; outcome
  | |- Outcome.settles (match ?x with _ => _ end) => destruct x; outcome
  | |- Outcome.returns _ => first [solve [auto with outcome]|idtac]
  | |- Outcome.settles _ =>
      first [solve [auto with outcome]
            |apply returns_settles; solve [auto with outcome]
            |idtac]
  end.

Section WorldOutcomes.
Import Effects Utils Outcome.
Context (env : Env).

Lemma settles_perform {A} (a : action) (answer : list action -> A) :
  settles (perform env a answer).
Proof. intros w. unfold perform. destruct (fails env _); discriminate. Qed.

Lemma settles_performUnit (a : action) : settles (performUnit env a).
Proof. apply settles_perform. Qed.

Lemma returns_dateNow : returns dateNow.
Proof. intros w. eexists _, _. reflexivity. Qed.

Lemma returns_mathRandom : returns (mathRandom env).
Proof. intros w. eexists _, _. reflexivity. Qed.

Lemma returns_pageUrl : returns (pageUrl env).
Proof. intros w. eexists _, _. reflexivity. Qed.

Lemma returns_sleep (ms : Z) : returns (sleep env ms).
Proof. intros w. eexists _, _. reflexivity. Qed.

Lemma returns_DELAYS_random (min max : Z) : returns (DELAYS_random env min max).
Proof. intros w. eexists _, _. apply DELAYS_random_run. Qed.

Lemma returns_DELAYS_short : returns (DELAYS_short env).
Proof. apply returns_DELAYS_random. Qed.

Lemma returns_DELAYS_medium : returns (DELAYS_medium env).
Proof. apply returns_DELAYS_random. Qed.

Lemma returns_DELAYS_long : returns (DELAYS_long env).
Proof. apply returns_DELAYS_random. Qed.

Lemma returns_TYPING_randomDelay (min max : Z) : returns (TYPING_randomDelay env min max).
Proof. intros w. eexists _, _. reflexivity. Qed.

Lemma returns_randomBelow (n : Z) : returns (randomBelow env n).
Proof. intros w. eexists _, _. reflexivity. Qed.

Lemma returns_randomLess (percent : Z) : returns (randomLess env percent).
Proof. intros w. eexists _, _. reflexivity. Qed.

Lemma returns_isElementVisible (selector : string) : returns (isElementVisible env selector).
Proof. intros w. eexists _, _. apply isElementVisible_run. Qed.

Lemma returns_anyVisible (selectors : list string) : returns (anyVisible env selectors).
Proof.
  intros w. destruct (anyVisible_returns env selectors w) as (b & w' & _ & Hrun & _).
  eauto.
Qed.

End WorldOutcomes.

#[global] Hint Resolve settles_perform settles_performUnit returns_dateNow returns_mathRandom
  returns_pageUrl returns_sleep returns_DELAYS_random returns_DELAYS_short
  returns_DELAYS_medium returns_DELAYS_long returns_TYPING_randomDelay returns_randomBelow
  returns_randomLess returns_isElementVisible returns_anyVisible : outcome.

Section UtilsOutcomes.
Import Effects Utils Outcome.
Context (env : Env).

Lemma settles_moveToElement (selector : string) : settles (moveToElement env selector).
Proof. unfold moveToElement. outcome. Qed.

Lemma settles_humanClick (selector : string) : settles (humanClick env selector).
Proof. unfold humanClick. outcome. apply settles_moveToElement. Qed.

Lemma settles_SCROLL_toElement (selector : string) : settles (SCROLL_toElement env selector).
Proof. unfold SCROLL_toElement. outcome. Qed.

Lemma settles_wheelLoop (steps : nat) : settles (wheelLoop env steps).
Proof. induction steps as [|steps IH]; cbn [wheelLoop]; outcome. Qed.

Lemma settles_SCROLL_natural (distance : Z) : settles (SCROLL_natural env distance).
Proof. apply settles_wheelLoop. Qed.

Lemma settles_typeLoop (minDelay maxDelay : Z) (mistakes : bool) (percent : Z)
      (chars : list ascii) :
  settles (typeLoop env minDelay maxDelay mistakes percent chars).
Proof. induction chars as [|char rest IH]; cbn [typeLoop]; outcome. Qed.

Lemma settles_humanType (selector text : string) (minDelay maxDelay : Z)
      (mistakes : bool) (percent : Z) :
  settles (humanType env selector text minDelay maxDelay mistakes percent).
Proof. unfold humanType. outcome. apply settles_typeLoop. Qed.

End UtilsOutcomes.

#[global] Hint Resolve settles_moveToElement settles_humanClick settles_SCROLL_toElement
  settles_SCROLL_natural settles_humanType : outcome.

(** The steps of the join flow catch what they throw. *)

Section GroupOutcomes.
Import Effects Utils Arrays Outcome GroupManager.
Context (env : Env).

Lemma settles_blockLoop (indicators : list (string * string)) :
  settles (blockLoop env indicators).
Proof.
  induction indicators as [|[selector why] rest IH]; cbn [blockLoop]; outcome.
Qed.

Lemma returns_checkGroupStatus : returns (checkGroupStatus env).
Proof. unfold checkGroupStatus. outcome. apply settles_blockLoop. Qed.

Lemma returns_checkMembershipStatus : returns (checkMembershipStatus env).
Proof. unfold checkMembershipStatus. outcome. Qed.

Lemma returns_joinLoop (selectors : list string) : returns (joinLoop env selectors).
Proof. induction selectors as [|selector rest IH]; cbn [joinLoop]; outcome. Qed.

Lemma returns_clickJoinButton : returns (clickJoinButton env).
Proof. unfold clickJoinButton. outcome. apply returns_settles, returns_joinLoop. Qed.

Lemma settles_submitLoop (selectors : list string) : settles (submitLoop env selectors).
Proof. induction selectors as [|selector rest IH]; cbn [submitLoop]; outcome. Qed.

Lemma returns_submitQuestions : returns (submitQuestions env).
Proof. unfold submitQuestions. outcome. apply settles_submitLoop. Qed.

Lemma returns_skipQuestionsStep : returns (skipQuestionsStep env).
Proof. unfold skipQuestionsStep. outcome. apply returns_settles, returns_submitQuestions. Qed.

Lemma settles_answerLoop (answers : gmap string string) (left i : nat) :
  settles (answerLoop env answers left i).
Proof. revert i. induction left as [|left IH]; intros i; cbn [answerLoop]; outcome. Qed.

Lemma returns_answerQuestions (answers : gmap string string) :
  returns (answerQuestions env answers).
Proof.
  unfold answerQuestions. outcome;
    first [apply returns_settles, returns_submitQuestions|apply settles_answerLoop].
Qed.

Lemma returns_handleMembershipQuestions (skip : bool) (answers : gmap string string) :
  returns (handleMembershipQuestions env skip answers).
Proof.
  unfold handleMembershipQuestions. outcome;
    apply returns_settles;
    first [apply returns_skipQuestionsStep|apply returns_answerQuestions].
Qed.

Lemma returns_waitForJoinConfirmation (maxWait : Z) :
  returns (waitForJoinConfirmation env maxWait).
Proof.
  intros w. destruct (waitForJoinConfirmation_returns env maxWait w) as (b & w' & _ & H & _).
  eauto.
Qed.

Lemma returns_onPage {A} (m : Eff World A) : returns m -> returns (onPage m).
Proof.
  intros H s. destruct (H (world s)) as (a & w' & Hrun).
  unfold onPage. rewrite Hrun. eauto.
Qed.

Lemma settles_onPage {A} (m : Eff World A) : settles m -> settles (onPage m).
Proof.
  intros H s. specialize (H (world s)). unfold onPage.
  destruct (m (world s)) as [r w']. exact H.
Qed.

Lemma returns_pushJoined (r : GroupJoinResult) : returns (pushJoined r).
Proof. intros s. eexists _, _. reflexivity. Qed.

Lemma returns_pushFailed (r : GroupJoinResult) : returns (pushFailed r).
Proof. intros s. eexists _, _. reflexivity. Qed.

End GroupOutcomes.

#[global] Hint Resolve returns_checkGroupStatus returns_checkMembershipStatus
  returns_clickJoinButton returns_handleMembershipQuestions returns_waitForJoinConfirmation
  returns_pushJoined returns_pushFailed : outcome.

Section JoinTotal.
Import Effects Utils Arrays Outcome GroupManager.
Context (env : Env).

Lemma returns_joinGroup (groupUrl : string) (options : JoinGroupOptions) :
  returns (joinGroup env groupUrl options).
Proof.
  unfold joinGroup. outcome;
    first [ apply returns_onPage; solve [auto with outcome]
          | apply settles_onPage; solve [auto with outcome]
          | apply settles_onPage, returns_settles; solve [auto with outcome] ].
Qed.

End JoinTotal.

(** ** Results of the join flow *)

Section YieldFacts.
Import Effects Outcome.
Context {S A B : Type}.

Lemma yields_ret (P : A -> Prop) (a : A) : P a -> yields P (ret (S := S) a).
Proof. intros H s a' s' Hrun. inversion Hrun. subst. exact H. Qed.

Lemma yields_bind (P : B -> Prop) (m : Eff S A) (k : A -> Eff S B) :
  (forall a, yields P (k a)) -> yields P (bind m k).
Proof.
  intros Hk s b s' Hrun. apply bind_inv in Hrun.
  destruct Hrun as [(a & s1 & _ & Hrest)|[(e & _ & He)|(_ & He)]];
    [|discriminate|discriminate].
  eapply Hk, Hrest.
Qed.

Lemma yields_tryCatch (P : A -> Prop) (body : Eff S A) (handler : thrown -> Eff S A) :
  yields P body -> (forall e, yields P (handler e)) -> yields P (tryCatch body handler).
Proof.
  intros Hb Hh s a s' Hrun. unfold tryCatch in Hrun.
  destruct (body s) as [[a0|e|] s1] eqn:Hbody.
  - inversion Hrun. subst. eapply Hb, Hbody.
  - eapply Hh, Hrun.
  - discriminate.
Qed.

End YieldFacts.

Ltac yield :=
  cbv zeta;
  lazymatch goal with
  | |- Outcome.yields _ (Effects.bind _ _) => apply yields_bind; intros ?; yield
  | |- Outcome.yields _ (Effects.tryCatch _ _) =>
      apply yields_tryCatch; [yield|intros ?; yield]
  | |- Outcome.yields _ (if ?b then _ else _) => destruct b; yield
  | |- Outcome.yields _ (match ?x with _ => _ end) => destruct x; yield
  | |- Outcome.yields _ (Effects.ret _) => apply yields_ret
  | |- _ => idtac
  end.

Section JoinResults.
Import Effects Utils Arrays Outcome GroupManager Records.
Context (env : Env).

(** A call of [joinGroup] from a well-formed manager. *)
Lemma joinGroup_run (groupUrl : string) (options : JoinGroupOptions) (s : State) :
  wellFormed s ->
  exists r s',
    joinGroup env groupUrl options s = (Ok r, s') /\
    wellFormed s' /\
    ((success r = true /\ joined s' = joined s ++ [r] /\ failed s' = failed s) \/
     (success r = false /\ joined s' = joined s /\ failed s' = failed s ++ [r])).
Proof.
  intros Hwf. destruct (returns_joinGroup env groupUrl options s) as (r & s' & Hrun).
  exists r, s'. split; [exact Hrun|].
  pose proof (joinGroup_outcome env _ _ _ _ _ Hrun) as Hrec. cbn in Hrec.
  destruct Hwf as (Hj & Hf & Hne). destruct Hrec as (Hthis & Hheap).
  unfold wellFormed, joined, failed. rewrite Hthis.
  destruct Hheap as [(Hok & Hheap)|(Hok & Hheap)]; rewrite Hheap, dom_push.
  - split; [auto|]. left. split; [exact Hok|]. split.
    + apply elems_push_same, Hj.
    + apply elems_push_other, Hne.
  - split; [auto|]. right. split; [exact Hok|]. split.
    + apply elems_push_other. congruence.
    + apply elems_push_same, Hf.
Qed.

(** [X14] Whatever the page does, [joinGroup] called on a manager whose
    two lists are distinct arrays neither throws nor hangs: it returns a
    result and has appended that result to exactly one list, the joined
    list when the result is a success and the failure list when it is
    not, leaving the other list as it was. *)
Theorem joinGroup_always_records (groupUrl : string) (options : JoinGroupOptions)
        (s : State) :
  wellFormed s ->
  exists r s',
    joinGroup env groupUrl options s = (Ok r, s') /\
    wellFormed s' /\
    ((success r = true /\ joined s' = joined s ++ [r] /\ failed s' = failed s) \/
     (success r = false /\ joined s' = joined s /\ failed s' = failed s ++ [r])).
Proof. apply joinGroup_run. Qed.

(** [X15] Every result of [joinGroup] carries the URL it was called
    with and the time of the call, and its status is one of blocked,
    already_member, join_failed, questions_failed, joined,
    pending_approval and error, with the success flag set exactly for
    already_member, joined and pending_approval; the initial status
    pending is never returned. *)
Theorem joinGroup_result_shape (groupUrl : string) (options : JoinGroupOptions)
        (s s' : State) (r : GroupJoinResult) :
  joinGroup env groupUrl options s = (Ok r, s') ->
  url r = groupUrl /\
  timestamp r = clock (world s) /\
  (status r, success r) ∈ joinStatuses.
Proof.
  destruct s as [fields h w]. cbn [world]. unfold joinGroup.
  set (s := {| this := fields; heap := h; world := w |}).
  rewrite (bind_run (onPage dateNow) _ s s (clock w) eq_refl).
  intros Hrun.
  match type of Hrun with
  | ?m s = _ =>
      assert (Hshape : yields (fun r => url r = groupUrl /\
                                        timestamp r = clock w /\
                                        (status r, success r) ∈ joinStatuses) m)
  end.
  { yield; (split; [reflexivity|]; split; [reflexivity|]);
      unfold joinStatuses; cbn [status success withOutcome];
      rewrite !elem_of_cons; tauto. }
  exact (Hshape _ _ _ Hrun).
Qed.

(** A new manager: two empty arrays that the heap did not hold. *)
Lemma create_fresh (h : gmap loc (list GroupJoinResult)) (w : World) :
  wellFormed (create h w) /\
  joined (create h w) = [] /\
  failed (create h w) = [] /\
  world (create h w) = w /\
  (forall r, r ∈ dom h -> elems r (heap (create h w)) = elems r h) /\
  (joinedGroups (this (create h w)) ∉ dom h) /\
  (failedGroups (this (create h w)) ∉ dom h).
Proof.
  unfold create.
  pose proof (alloc_fresh (A := GroupJoinResult) [] h) as Hj.
  pose proof (elems_alloc_new (A := GroupJoinResult) [] h) as Hjnew.
  destruct (alloc [] h) as [j h1] eqn:H1. cbn [fst snd] in Hj, Hjnew.
  assert (Hjin : j ∈ dom h1).
  { unfold alloc in H1. inversion H1. subst. rewrite dom_insert_L, elem_of_union,
      elem_of_singleton. tauto. }
  assert (Hold1 : forall r, r ∈ dom h -> elems r h1 = elems r h /\ r ∈ dom h1).
  { intros r Hr. pose proof (elems_alloc_old (A := GroupJoinResult) [] h r Hr) as He.
    pose proof (dom_alloc (A := GroupJoinResult) [] h r Hr) as Hd.
    rewrite H1 in He, Hd. tauto. }
  pose proof (alloc_fresh (A := GroupJoinResult) [] h1) as Hf.
  pose proof (elems_alloc_new (A := GroupJoinResult) [] h1) as Hfnew.
  pose proof (elems_alloc_old (A := GroupJoinResult) [] h1) as Hold2.
  pose proof (dom_alloc (A := GroupJoinResult) [] h1) as Hdom2.
  destruct (alloc [] h1) as [f h2] eqn:H2. cbn [fst snd] in Hf, Hfnew, Hold2, Hdom2.
  assert (Hfin : f ∈ dom h2).
  { unfold alloc in H2. inversion H2. subst. rewrite dom_insert_L, elem_of_union,
      elem_of_singleton. tauto. }
  unfold wellFormed, joined, failed. cbn [this heap world joinedGroups failedGroups].
  repeat split.
  - apply Hdom2, Hjin.
  - exact Hfin.
  - intros ->. contradiction.
  - rewrite Hold2 by exact Hjin. exact Hjnew.
  - exact Hfnew.
  - intros r Hr. destruct (Hold1 r Hr) as [He Hd]. rewrite Hold2 by exact Hd. exact He.
  - exact Hj.
  - intros Hin. apply Hf. apply Hold1, Hin.
Qed.

(** [X16] The joined list of a manager holds successes only and its
    failure list failures only: this holds for a new manager and every
    call of [joinGroup] keeps it. *)
Theorem joinGroup_keeps_lists_by_success :
  (forall h w, wellFormed (create h w) /\ joinsBySuccess (create h w)) /\
  (forall groupUrl options s r s',
      wellFormed s -> joinsBySuccess s ->
      joinGroup env groupUrl options s = (Ok r, s') ->
      wellFormed s' /\ joinsBySuccess s').
Proof.
  split.
  - intros h w. destruct (create_fresh h w) as (Hwf & Hj & Hf & _).
    split; [exact Hwf|]. unfold joinsBySuccess. rewrite Hj, Hf. split; constructor.
  - intros groupUrl options s r s' Hwf [Hjs Hfs] Hrun.
    destruct (joinGroup_run groupUrl options s Hwf) as (r0 & s0 & Hrun0 & Hwf' & Hgrow).
    rewrite Hrun in Hrun0. inversion Hrun0. subst r0 s0.
    split; [exact Hwf'|]. unfold joinsBySuccess.
    destruct Hgrow as [(Hok & Hj & Hf)|(Hok & Hj & Hf)]; rewrite Hj, Hf; split;
      try assumption; apply Forall_app; split; try assumption;
      constructor; [exact Hok|constructor|exact Hok|constructor].
Qed.

(** [X17] [reset] gives the manager two new empty lists and leaves
    every array that existed before, the two old lists included, with
    the elements it had. *)
Theorem reset_starts_afresh (s : State) :
  wellFormed (reset s) /\
  joined (reset s) = [] /\
  failed (reset s) = [] /\
  (forall r, r ∈ dom (heap s) -> elems r (heap (reset s)) = elems r (heap s)).
Proof.
  unfold reset. destruct (create_fresh (heap s) (world s)) as (Hwf & Hj & Hf & _ & Hold & _).
  repeat split; try assumption; apply Hwf.
Qed.

End JoinResults.

Section JoinResultWitnesses.
Import Effects Utils Arrays Outcome GroupManager Records Scenarios.

Lemma joinGroup_always_records_witness :
  exists r s',
    joinGroup envBlocked "https://www.facebook.com/groups/1" noOptions groupStart
    = (Ok r, s') /\
    wellFormed s' /\
    ((success r = true /\ joined s' = joined groupStart ++ [r]
      /\ failed s' = failed groupStart) \/
     (success r = false /\ joined s' = joined groupStart
      /\ failed s' = failed groupStart ++ [r])).
Proof.
  apply (joinGroup_always_records envBlocked "https://www.facebook.com/groups/1"
                                  noOptions groupStart).
  exact groupStart_wellFormed.
Defined.

Lemma joinGroup_result_shape_witness :
  exists r s',
    joinGroup envJoinable "https://www.facebook.com/groups/2" noOptions groupStart
    = (Ok r, s') /\
    url r = "https://www.facebook.com/groups/2" /\
    timestamp r = 1700000000000 /\
    (status r, success r) ∈ joinStatuses.
Proof.
  eexists _, _. split; [vm_compute; reflexivity|].
  eapply (joinGroup_result_shape envJoinable "https://www.facebook.com/groups/2"
                                 noOptions groupStart).
  vm_compute. reflexivity.
Defined.

Lemma joinGroup_keeps_lists_by_success_witness :
  exists r s',
    joinGroup envJoinable "https://www.facebook.com/groups/2" noOptions groupStart
    = (Ok r, s') /\
    wellFormed s' /\ joinsBySuccess s'.
Proof.
  eexists _, _. split; [vm_compute; reflexivity|].
  destruct (joinGroup_keeps_lists_by_success envJoinable) as [Hnew Hkeep].
  eapply (Hkeep "https://www.facebook.com/groups/2" noOptions groupStart).
  - exact groupStart_wellFormed.
  - apply (Hnew ∅ start).
  - vm_compute. reflexivity.
Defined.

Lemma reset_starts_afresh_witness :
  joined (reset groupStart) = [] /\
  elems (joinedGroups (this groupStart)) (heap (reset groupStart)) = joined groupStart.
Proof.
  destruct (reset_starts_afresh groupStart) as (_ & Hjoined & _ & Hold).
  split; [exact Hjoined|]. apply Hold. apply groupStart_wellFormed.
Defined.

End JoinResultWitnesses.

(** ** Edges of the join flow *)

Section JoinEdgeFacts.
Import Effects Utils Arrays Outcome GroupManager.
Context (env : Env).

Lemma joinLoop_hidden (selectors : list string) (w : World) :
  (forall selector, selector ∈ selectors -> hiddenFrom env (trace w) selector) ->
  exists w' new,
    joinLoop env selectors w = (Ok None, w') /\
    trace w' = new ++ trace w /\
    Forall isQuery new.
Proof.
  revert w. induction selectors as [|selector rest IH]; intros w Hhid.
  - exists w, []. repeat split. constructor.
  - cbn [joinLoop].
    pose proof (Hhid selector (list_elem_of_here _ _) []) as Hnow. cbn [app] in Hnow.
    assert (Hround :
      tryCatch
        (let* visible := isElementVisible env selector in
         if visible then
           SCROLL_toElement env selector ;;;
           DELAYS_short env ;;;
           humanClick env selector ;;;
           DELAYS_medium env ;;;
           ret (Some {| clickSuccess := true; clickError := None |})
         else ret None)
        (fun _ => ret None) w
      = (Ok None, step env (IsVisible selector) w)).
    { unfold tryCatch. rewrite (bind_run _ _ _ _ _ (isElementVisible_run env selector w)).
      rewrite Hnow. reflexivity. }
    rewrite (bind_run _ _ _ _ _ Hround).
    destruct (IH (step env (IsVisible selector) w)) as (w' & new & Hrun & Htr & Hq).
    { intros sel Hsel.
      apply (hiddenFrom_later env (trace w) [IsVisible selector]), Hhid.
      apply list_elem_of_further, Hsel. }
    exists w', (new ++ [IsVisible selector]). split; [exact Hrun|]. split.
    + rewrite Htr, <- app_assoc. reflexivity.
    + apply Forall_app. split; [exact Hq|]. constructor; [exact I|constructor].
Qed.

(** [X18] When none of the join selectors is visible from now on,
    [clickJoinButton] reports that the join button was not found and
    has done nothing on the page but ask whether each selector is
    visible: no scroll, no pointer move, no click. *)
Theorem clickJoinButton_not_found (w : World) :
  (forall selector, selector ∈ joinSelectors -> hiddenFrom env (trace w) selector) ->
  exists w' new,
    clickJoinButton env w
    = (Ok {| clickSuccess := false; clickError := Some "Join button not found" |}, w') /\
    trace w' = new ++ trace w /\
    Forall isQuery new.
Proof.
  intros Hhid. destruct (joinLoop_hidden joinSelectors w Hhid) as (w' & new & Hrun & Htr & Hq).
  exists w', new. split; [|tauto].
  unfold clickJoinButton, tryCatch. rewrite (bind_run _ _ _ _ _ Hrun). reflexivity.
Qed.

Lemma anyVisible_true (selectors : list string) (w w' : World) :
  anyVisible env selectors w = (Ok true, w') ->
  exists selector later,
    selector ∈ selectors /\ answersVisible env (later ++ trace w) selector = true.
Proof.
  revert w. induction selectors as [|selector rest IH]; intros w; cbn [anyVisible].
  - discriminate.
  - rewrite (bind_run _ _ _ _ _ (isElementVisible_run env selector w)).
    destruct (answersVisible env (trace w) selector) eqn:Hnow.
    + intros _. exists selector, []. split; [apply list_elem_of_here|exact Hnow].
    + intros Hrun. apply IH in Hrun. destruct Hrun as (sel & later & Hin & Hvis).
      exists sel, (later ++ [IsVisible selector]).
      split; [apply list_elem_of_further, Hin|].
      rewrite <- app_assoc. exact Hvis.
Qed.

Lemma confirmationLoop_true (rounds : nat) (startTime maxWait : Z) (w w' : World) :
  confirmationLoop env rounds startTime maxWait w = (Ok true, w') ->
  exists selector later,
    selector ∈ successIndicators /\ answersVisible env (later ++ trace w) selector = true.
Proof.
  revert w. induction rounds as [|rounds IH]; intros w; cbn [confirmationLoop];
    unfold bind at 1; unfold dateNow at 1;
    destruct (clock w - startTime <? maxWait); try discriminate.
  destruct (anyVisible_returns env successIndicators w)
    as (found & w1 & new & Hany & _ & Htr).
  rewrite (bind_run _ _ _ _ _ Hany).
  destruct found.
  - intros _. eapply anyVisible_true, Hany.
  - unfold DELAYS_short. rewrite (bind_run _ _ _ _ _ (DELAYS_random_run env _ _ _)).
    intros Hrun. apply IH in Hrun. destruct Hrun as (sel & later & Hin & Hvis).
    destruct (afterDelay_trace env 500 1500 w1) as [d Hd].
    rewrite Hd, Htr in Hvis.
    exists sel, (later ++ SetTimeout d :: MathRandom :: new). split; [exact Hin|].
    rewrite <- app_assoc. exact Hvis.
Qed.

(** [X19] [waitForJoinConfirmation] always returns: [false] only when at
    least [maxWaitTime] milliseconds have gone by since the call, and
    [true] only when one of the success indicators has been reported
    visible at some moment after the call. *)
Theorem waitForJoinConfirmation_outcome (maxWait : Z) (w : World) :
  exists confirmed w',
    waitForJoinConfirmation env maxWait w = (Ok confirmed, w') /\
    (confirmed = false -> maxWait <= clock w' - clock w) /\
    (confirmed = true ->
     exists selector later,
       selector ∈ successIndicators /\
       answersVisible env (later ++ trace w) selector = true).
Proof.
  destruct (waitForJoinConfirmation_returns env maxWait w) as (b & w' & new & Hrun & Hlate & _).
  exists b, w'. split; [exact Hrun|]. split; [exact Hlate|].
  intros ->. unfold waitForJoinConfirmation, tryCatch in Hrun.
  rewrite (bind_run dateNow _ w w (clock w) eq_refl) in Hrun.
  destruct (confirmationLoop env _ (clock w) maxWait w) as [[b|e|] w1] eqn:Hloop.
  - inversion Hrun. subst. eapply confirmationLoop_true, Hloop.
  - discriminate.
  - discriminate.
Qed.

End JoinEdgeFacts.

Section JoinEdgeWitnesses.
Import Effects Utils Arrays Outcome GroupManager Scenarios.

Lemma clickJoinButton_not_found_witness :
  exists w' new,
    clickJoinButton envStale start
    = (Ok {| clickSuccess := false; clickError := Some "Join button not found" |}, w') /\
    trace w' = new ++ trace start /\
    Forall isQuery new.
Proof.
  apply (clickJoinButton_not_found envStale start).
  intros selector _ later. reflexivity.
Defined.

Lemma waitForJoinConfirmation_outcome_witness :
  exists w',
    waitForJoinConfirmation envJoinable 30000 start = (Ok false, w') /\
    30000 <= clock w' - clock start.
Proof.
  destruct (waitForJoinConfirmation_outcome envJoinable 30000 start)
    as (confirmed & w' & Hrun & Hlate & _).
  assert (Hfalse : confirmed = false).
  { pose proof Hrun as Hvalue. vm_compute in Hvalue. inversion Hvalue. reflexivity. }
  exists w'. split; [rewrite <- Hfalse; exact Hrun|apply Hlate, Hfalse].
Defined.

End JoinEdgeWitnesses.

(** ** What holds however the code ends *)

Section AlwaysFacts.
Import Effects Utils Outcome.
Context (R : World -> World -> Prop) `{!Reflexive R} `{!Transitive R}.

Lemma always_ret {A} (a : A) : always R (ret a).
Proof. intros w r w' H. inversion H. reflexivity. Qed.

Lemma always_throw {A} (e : thrown) : always R (throw (A := A) e).
Proof. intros w r w' H. inversion H. reflexivity. Qed.

Lemma always_bind {A B} (m : Eff World A) (k : A -> Eff World B) :
  always R m -> (forall a, always R (k a)) -> always R (bind m k).
Proof.
  intros Hm Hk w r w' Hrun. apply bind_inv in Hrun.
  destruct Hrun as [(a & w1 & Hfirst & Hrest)|[(e & Hfirst & _)|(Hfirst & _)]].
  - etransitivity; [eapply Hm, Hfirst|eapply Hk, Hrest].
  - eapply Hm, Hfirst.
  - eapply Hm, Hfirst.
Qed.

Lemma always_tryCatch {A} (body : Eff World A) (handler : thrown -> Eff World A) :
  always R body -> (forall e, always R (handler e)) -> always R (tryCatch body handler).
Proof.
  intros Hb Hh w r w' Hrun. unfold tryCatch in Hrun.
  destruct (body w) as [[a|e|] w1] eqn:Hbody.
  - inversion Hrun. subst. eapply Hb, Hbody.
  - etransitivity; [eapply Hb, Hbody|eapply Hh, Hrun].
  - inversion Hrun. subst. eapply Hb, Hbody.
Qed.

Lemma always_dateNow : always R dateNow.
Proof. intros w r w' H. inversion H. reflexivity. Qed.

End AlwaysFacts.

Ltac steady :=
  cbv zeta;
  lazymatch goal with
  | |- forall _, _ => intros ?; steady
  | |- Outcome.always _ (Effects.bind _ _) => apply always_bind; steady
  | |- Outcome.always _ (Effects.tryCatch _ _) => apply always_tryCatch; steady
  | |- Outcome.always _ (if ?b then _ else _) => destruct b; steady
  | |- Outcome.always _ (match ?x with _ => _ end) => destruct x; steady
  | |- Outcome.always _ (Effects.ret _) => apply always_ret; steady
  | |- Outcome.always _ (Effects.throw _) => apply always_throw; steady
  | |- Outcome.always _ Effects.dateNow => apply always_dateNow; steady
  | |- Outcome.always _ _ => first [solve [auto with outcome]|idtac]
  | |- _ => first [typeclasses eauto|idtac]
  end.

Section TimeFacts.
Import Effects Utils Outcome.
Context (env : Env).

#[global] Instance notBefore_refl : Reflexive notBefore.
Proof. intros w. unfold notBefore. lia. Qed.

#[global] Instance notBefore_trans : Transitive notBefore.
Proof. intros a b c. unfold notBefore. lia. Qed.

Lemma time_perform {A} (a : action) (answer : list action -> A) :
  always notBefore (perform env a answer).
Proof.
  intros w r w' H. unfold perform in H.
  destruct (fails env _); inversion H; apply step_clock.
Qed.

Lemma time_performUnit (a : action) : always notBefore (performUnit env a).
Proof. apply time_perform. Qed.

Lemma time_sleep (ms : Z) : always notBefore (sleep env ms).
Proof. intros w r w' H. inversion H. apply step_clock. Qed.

Lemma time_mathRandom : always notBefore (mathRandom env).
Proof. intros w r w' H. inversion H. unfold notBefore. cbn. lia. Qed.

Lemma time_pageUrl : always notBefore (pageUrl env).
Proof. intros w r w' H. inversion H. unfold notBefore. cbn. lia. Qed.

End TimeFacts.

#[global] Hint Resolve time_perform time_performUnit time_sleep time_mathRandom
  time_pageUrl : outcome.

Section TimeFacts2.
Import Effects Utils Outcome.
Context (env : Env).

Lemma time_DELAYS_random (min max : Z) : always notBefore (DELAYS_random env min max).
Proof. unfold DELAYS_random, randomBelow. steady. Qed.

Lemma time_DELAYS_short : always notBefore (DELAYS_short env).
Proof. apply time_DELAYS_random. Qed.

Lemma time_DELAYS_medium : always notBefore (DELAYS_medium env).
Proof. apply time_DELAYS_random. Qed.

Lemma time_DELAYS_long : always notBefore (DELAYS_long env).
Proof. apply time_DELAYS_random. Qed.

Lemma time_isElementVisible (selector : string) :
  always notBefore (isElementVisible env selector).
Proof. unfold isElementVisible. steady. Qed.

End TimeFacts2.

#[global] Hint Resolve time_DELAYS_random time_DELAYS_short time_DELAYS_medium
  time_DELAYS_long time_isElementVisible : outcome.

Section TimeFacts3.
Import Effects Utils Outcome.
Context (env : Env).

Lemma time_anyVisible (selectors : list string) :
  always notBefore (anyVisible env selectors).
Proof. induction selectors as [|selector rest IH]; cbn [anyVisible]; steady. Qed.

End TimeFacts3.

#[global] Hint Resolve time_anyVisible : outcome.

(** ** Login and session validity *)

Section LoginFacts.
Import JsString Effects Utils Selectors Outcome SessionManager Login.
Context (env : Env).

Lemma returns_verifyLogin : returns (verifyLogin env).
Proof. unfold verifyLogin. outcome. Qed.

Lemma time_verifyLogin : always notBefore (verifyLogin env).
Proof. unfold verifyLogin. steady. Qed.

(** [X20] [verifyLogin] always returns.  When the login form is visible
    it answers [false] without looking at anything else, even on a page
    that shows a logged-in indicator; it answers [true] only when the
    login form was not visible and either a logged-in indicator was
    reported visible or the URL contains one of the three logged-in
    patterns. *)
Theorem verifyLogin_outcome (w : World) :
  let asked := afterDelay env 500 1500 w in
  exists loggedIn w',
    verifyLogin env w = (Ok loggedIn, w') /\
    (answersVisible env (trace asked) LOGIN_loginForm = true ->
     loggedIn = false /\ w' = step env (IsVisible LOGIN_loginForm) asked) /\
    (loggedIn = true ->
     answersVisible env (trace asked) LOGIN_loginForm = false /\
     ((exists selector later,
          selector ∈ loggedInIndicators /\
          answersVisible env (later ++ IsVisible LOGIN_loginForm :: trace asked) selector
          = true) \/
      existsb (fun pattern => includes (saysString env (trace w')) pattern) loggedInUrls
      = true)).
Proof.
  intros asked. unfold verifyLogin, tryCatch.
  unfold DELAYS_short.
  rewrite (bind_run _ _ _ _ _ (DELAYS_random_run env 500 1500 w)). fold asked.
  rewrite (bind_run _ _ _ _ _ (isElementVisible_run env LOGIN_loginForm asked)).
  destruct (answersVisible env (trace asked) LOGIN_loginForm) eqn:Hform.
  - eexists _, _. split; [reflexivity|]. split; [tauto|discriminate].
  - set (w2 := step env (IsVisible LOGIN_loginForm) asked).
    destruct (anyVisible_returns env loggedInIndicators w2) as (shown & w3 & new & Hany & _ & Htr).
    rewrite (bind_run _ _ _ _ _ Hany).
    destruct shown.
    + eexists _, _. split; [reflexivity|]. split; [discriminate|].
      intros _. split; [reflexivity|]. left.
      apply anyVisible_true in Hany. exact Hany.
    + eexists _, _. split; [reflexivity|]. split; [discriminate|].
      intros Hurl. split; [reflexivity|]. right. exact Hurl.
Qed.

(** The polling loop ends within the rounds it is given. *)
Lemma loginLoop_returns (rounds : nat) (waitTime : Z) (w : World) :
  maxWaitTime - waitTime <= checkInterval * Z.of_nat rounds ->
  exists loggedIn w',
    loginLoop env rounds waitTime w = (Ok loggedIn, w') /\
    clock w <= clock w' /\
    (loggedIn = false -> maxWaitTime - waitTime <= clock w' - clock w).
Proof.
  revert waitTime w. induction rounds as [|rounds IH]; intros waitTime w Hrounds;
    cbn [loginLoop]; destruct (waitTime <? maxWaitTime) eqn:Hwait.
  - apply Z.ltb_lt in Hwait. lia.
  - apply Z.ltb_ge in Hwait. exists false, w. split; [reflexivity|]. lia.
  - assert (Hsleep : sleep env checkInterval w
                     = (Ok tt, step env (SetTimeout checkInterval) w)) by reflexivity.
    rewrite (bind_run _ _ _ _ _ Hsleep).
    set (w1 := step env (SetTimeout checkInterval) w).
    assert (Hw1 : clock w + 5000 <= clock w1).
    { unfold w1, step, checkInterval. cbn. lia. }
    unfold checkInterval, maxWaitTime in Hrounds, IH |- *.
    destruct (returns_verifyLogin w1) as (loggedIn & w2 & Hverify).
    pose proof (time_verifyLogin _ _ _ Hverify) as Hw2. unfold notBefore in Hw2.
    cbv zeta. rewrite (bind_run _ _ _ _ _ Hverify).
    destruct loggedIn.
    + unfold DELAYS_medium. rewrite (bind_run _ _ _ _ _ (DELAYS_random_run env _ _ _)).
      eexists _, _. split; [reflexivity|]. split; [|discriminate].
      pose proof (afterDelay_clock env 1500 3500 w2 ltac:(lia)). lia.
    + destruct (IH (waitTime + 5000) w2) as (b & w' & Hrun & Hclock & Hlate).
      { lia. }
      exists b, w'. split; [exact Hrun|]. split; [lia|].
      intros Hb. specialize (Hlate Hb). lia.
  - apply Z.ltb_ge in Hwait. exists false, w. split; [reflexivity|]. lia.
Qed.

(** [X21] [performLogin] always returns, and when the navigation to the
    login page has not failed it gives up with [false] only after at
    least 300000 milliseconds. *)
Theorem performLogin_outcome (w : World) :
  exists loggedIn w',
    performLogin env w = (Ok loggedIn, w') /\
    (fails env (Goto "https://www.facebook.com/login" :: trace w) = None ->
     loggedIn = false ->
     maxWaitTime <= clock w' - clock w).
Proof.
  unfold performLogin, tryCatch, performUnit, perform at 1, bind at 1.
  cbn [trace step].
  destruct (fails env (Goto "https://www.facebook.com/login" :: trace w)) eqn:Hgoto.
  { eexists _, _. split; [reflexivity|]. discriminate. }
  set (w1 := step env (Goto "https://www.facebook.com/login") w).
  pose proof (step_clock env (Goto "https://www.facebook.com/login") w) as Hw1. fold w1 in Hw1.
  unfold DELAYS_medium. rewrite (bind_run _ _ _ _ _ (DELAYS_random_run env 1500 3500 w1)).
  pose proof (afterDelay_clock env 1500 3500 w1 ltac:(lia)) as Hw2.
  set (w2 := afterDelay env 1500 3500 w1) in *.
  destruct (returns_verifyLogin w2) as (already & w3 & Hverify).
  pose proof (time_verifyLogin _ _ _ Hverify) as Hw3. unfold notBefore in Hw3.
  rewrite (bind_run _ _ _ _ _ Hverify).
  destruct already.
  - eexists _, _. split; [reflexivity|]. discriminate.
  - cbv zeta.
    destruct (loginLoop_returns (Z.to_nat (maxWaitTime / checkInterval)) 0 w3)
      as (b & w' & Hrun & Hclock & Hlate).
    { vm_compute. discriminate. }
    rewrite Hrun. exists b, w'. split; [reflexivity|].
    intros _ Hb. specialize (Hlate Hb). lia.
Qed.

End LoginFacts.

Section ValidityFacts.
Import JsString Effects Utils Selectors Outcome SessionManager Login.
Context (env : Env).

Lemma hasValidSession_run (s : State) :
  let h1 := PathExists (sessionFile s) :: trace (world s) in
  let h2 := ReadJson (sessionFile s) :: h1 in
  exists valid s',
    hasValidSession env s = (Ok valid, s') /\
    session s' = session s /\
    sessionFile s' = sessionFile s /\
    adds isFileCheck (world s) (world s') /\
    (valid = true <->
     fails env h1 = None /\ saysBool env h1 = true /\ fails env h2 = None /\
     exists t, timestamp (saysSession env h2) = Some t /\
               clock (world s') - t <= maxAge).
Proof.
  intros h1 h2. destruct s as [file sess w]. cbn [sessionFile session world] in *.
  unfold hasValidSession, tryCatch, bind, onPage, perform, ret, dateNow.
  cbn [sessionFile session world trace step].
  fold h1. destruct (fails env h1) eqn:Hf1.
  { eexists _, _. split; [reflexivity|]. cbn [session sessionFile world].
    split; [reflexivity|]. split; [reflexivity|]. split.
    - exists [PathExists file]. split; [reflexivity|]. repeat constructor.
    - split; [discriminate|]. intros (Hno & _). discriminate. }
  destruct (saysBool env h1) eqn:Hb1; cbn [negb].
  2:{ eexists _, _. split; [reflexivity|]. cbn [session sessionFile world].
      split; [reflexivity|]. split; [reflexivity|]. split.
      - exists [PathExists file]. split; [reflexivity|]. repeat constructor.
      - split; [discriminate|]. intros (_ & Hno & _). discriminate. }
  cbn [sessionFile session world trace step]. fold h1 h2.
  destruct (fails env h2) eqn:Hf2.
  { eexists _, _. split; [reflexivity|]. cbn [session sessionFile world].
    split; [reflexivity|]. split; [reflexivity|]. split.
    - exists [ReadJson file; PathExists file]. split; [reflexivity|]. repeat constructor.
    - split; [discriminate|]. intros (_ & _ & Hno & _). discriminate. }
  eexists _, _. split; [reflexivity|]. cbn [session sessionFile world clock].
  split; [reflexivity|]. split; [reflexivity|]. split.
  - exists [ReadJson file; PathExists file]. split; [reflexivity|]. repeat constructor.
  - unfold youngEnough. split.
    + intros Hyoung. split; [reflexivity|]. split; [reflexivity|]. split; [reflexivity|].
      destruct (timestamp (saysSession env h2)) as [t|]; [|discriminate].
      exists t. split; [reflexivity|]. apply Z.leb_le in Hyoung. exact Hyoung.
    + intros (_ & _ & _ & t & Ht & Hage). rewrite Ht. apply Z.leb_le. exact Hage.
Qed.

(** [X22] [hasValidSession] always returns, leaves the session field
    alone and does nothing but check the session file; it answers
    [true] exactly when the file exists, can be read, and holds a
    timestamp that is a date at most 24 hours old. *)
Theorem hasValidSession_outcome (s : State) :
  let h1 := PathExists (sessionFile s) :: trace (world s) in
  let h2 := ReadJson (sessionFile s) :: h1 in
  exists valid s',
    hasValidSession env s = (Ok valid, s') /\
    session s' = session s /\
    sessionFile s' = sessionFile s /\
    adds isFileCheck (world s) (world s') /\
    (valid = true <->
     fails env h1 = None /\ saysBool env h1 = true /\ fails env h2 = None /\
     exists t, timestamp (saysSession env h2) = Some t /\
               clock (world s') - t <= maxAge).
Proof. apply hasValidSession_run. Qed.

(** What [loadSession] has checked when it returns [true]. *)
Lemma loadSession_true_checks (s s' : State) :
  let h1 := PathExists (sessionFile s) :: trace (world s) in
  let h2 := ReadJson (sessionFile s) :: h1 in
  loadSession env s = (Ok true, s') ->
  fails env h1 = None /\ saysBool env h1 = true /\ fails env h2 = None /\
  tooOld (clock (step env (ReadJson (sessionFile s))
                      (step env (PathExists (sessionFile s)) (world s))))
         (saysSession env h2) = false.
Proof.
  intros h1 h2. unfold loadSession, tryCatch.
  match goal with
  | |- context [match ?body s with _ => _ end] => destruct (body s) as [[b|e|] s1] eqn:Hbody
  end; [|discriminate|discriminate].
  intros Heq. inversion Heq. subst b s1. clear Heq.
  apply bind_inv in Hbody.
  destruct Hbody as [(file & s0 & Hfile & Hbody)|[(e & _ & He)|(_ & He)]];
    [|discriminate|discriminate].
  inversion Hfile. subst file s0. clear Hfile.
  apply bind_inv in Hbody.
  destruct Hbody as [(found & s1 & Hexists & Hbody)|[(e & _ & He)|(_ & He)]];
    [|discriminate|discriminate].
  apply onPage_inv in Hexists. destruct Hexists as (Hexists & Hs1 & Hf1).
  apply perform_inv in Hexists. destruct Hexists as (Hw1 & Hfails1 & Hfound).
  destruct found; cbn [negb] in Hbody; [|discriminate].
  apply bind_inv in Hbody.
  destruct Hbody as [(sd & s2 & Hread & Hbody)|[(e & _ & He)|(_ & He)]];
    [|discriminate|discriminate].
  apply onPage_inv in Hread. destruct Hread as (Hread & Hs2 & Hf2).
  apply perform_inv in Hread. destruct Hread as (Hw2 & Hfails2 & Hsd).
  rewrite Hw1 in Hsd, Hfails2, Hw2. cbn [trace step] in Hsd, Hfails2.
  apply bind_inv in Hbody.
  destruct Hbody as [(now & s3 & Hnow & Hbody)|[(e & _ & He)|(_ & He)]];
    [|discriminate|discriminate].
  apply onPage_inv in Hnow. destruct Hnow as (Hnow & _ & _).
  inversion Hnow. subst now.
  destruct (tooOld (clock (world s2)) sd) eqn:Hold; [discriminate|].
  rewrite Hw2, Hsd in Hold.
  split; [exact Hfails1|]. split; [symmetry; exact Hfound|]. split; [exact Hfails2|].
  exact Hold.
Qed.

(** [X23] Whenever [loadSession] returns [true], [hasValidSession]
    asked at the same moment answers [true] as well, unless the stored
    timestamp is not a date: [loadSession] lets such a record through,
    [hasValidSession] does not. *)
Theorem loadSession_agrees_with_hasValidSession (s s' : State) :
  loadSession env s = (Ok true, s') ->
  timestamp (saysSession env (ReadJson (sessionFile s)
                              :: PathExists (sessionFile s) :: trace (world s))) = None \/
  exists s'', hasValidSession env s = (Ok true, s'').
Proof.
  intros Hload. apply loadSession_true_checks in Hload.
  destruct Hload as (Hf1 & Hb1 & Hf2 & Hold).
  destruct (timestamp (saysSession env _)) as [t|] eqn:Ht; [right|left; reflexivity].
  destruct (hasValidSession_run s) as (valid & s'' & Hrun & _ & _ & _ & Hvalid).
  exists s''. rewrite Hrun. f_equal. f_equal. apply Hvalid.
  split; [exact Hf1|]. split; [exact Hb1|]. split; [exact Hf2|].
  exists t. split; [exact Ht|].
  unfold tooOld in Hold. rewrite Ht in Hold.
  assert (Hclock : clock (world s'')
                   = clock (step env (ReadJson (sessionFile s))
                                 (step env (PathExists (sessionFile s)) (world s)))).
  { clear - Hrun Hf1 Hb1 Hf2. destruct s as [file sess w].
    unfold hasValidSession, tryCatch, bind, onPage, perform, ret, dateNow in Hrun.
    cbn [sessionFile session world trace step] in *.
    rewrite Hf1, Hb1 in Hrun. cbn [negb sessionFile session world trace step] in Hrun.
    rewrite Hf2 in Hrun. inversion Hrun. reflexivity. }
  rewrite Hclock. rewrite Z.gtb_ltb in Hold. apply Z.ltb_ge in Hold. exact Hold.
Qed.

End ValidityFacts.

Section LoginWitnesses.
Import JsString Effects Utils Selectors Outcome SessionManager Login Scenarios.

Lemma verifyLogin_outcome_witness :
  exists w', verifyLogin MoreScenarios.envLoginForm start = (Ok false, w').
Proof.
  destruct (verifyLogin_outcome MoreScenarios.envLoginForm start)
    as (loggedIn & w' & Hrun & Hform & _).
  destruct Hform as [Hfalse _]; [reflexivity|].
  exists w'. rewrite <- Hfalse. exact Hrun.
Defined.

Lemma performLogin_outcome_witness :
  exists w',
    performLogin envStale start = (Ok false, w') /\
    300000 <= clock w' - clock start.
Proof.
  destruct (performLogin_outcome envStale start) as (loggedIn & w' & Hrun & Hlate).
  assert (Hfalse : loggedIn = false).
  { pose proof Hrun as Hvalue. vm_compute in Hvalue. inversion Hvalue. reflexivity. }
  exists w'. split; [rewrite <- Hfalse; exact Hrun|].
  apply Hlate; [reflexivity|exact Hfalse].
Defined.

Lemma hasValidSession_outcome_witness :
  exists s',
    hasValidSession envLoggedIn sessionStart = (Ok true, s') /\
    session s' = None.
Proof.
  destruct (hasValidSession_outcome envLoggedIn sessionStart)
    as (valid & s' & Hrun & Hsession & _).
  assert (Htrue : valid = true).
  { pose proof Hrun as Hvalue. vm_compute in Hvalue. inversion Hvalue. reflexivity. }
  exists s'. split; [rewrite <- Htrue; exact Hrun|exact Hsession].
Defined.

Lemma loadSession_agrees_with_hasValidSession_witness :
  exists s'', hasValidSession envLoggedIn sessionStart = (Ok true, s'').
Proof.
  edestruct (loadSession_agrees_with_hasValidSession envLoggedIn sessionStart)
    as [Hnone|Hvalid].
  - vm_compute. reflexivity.
  - vm_compute in Hnone. discriminate.
  - exact Hvalid.
Defined.

End LoginWitnesses.

(** ** The post flow *)

Section PostOutcomes.
Import JsString Effects Utils Arrays Outcome PostManager.
Context (env : Env).

(** A bounded poll ends within the rounds it is given when they cover
    the time that is left. *)
Lemma pollLoop_settles (check : Eff World bool) (rounds : nat) (startTime maxWait : Z)
      (w : World) :
  settles check ->
  always notBefore check ->
  maxWait - (clock w - startTime) <= 500 * Z.of_nat rounds ->
  (pollLoop env check rounds startTime maxWait w).1 <> OutOfFuel.
Proof.
  intros Hsettles Htime. revert w.
  induction rounds as [|rounds IH]; intros w Hleft; cbn [pollLoop];
    unfold bind at 1; unfold dateNow at 1;
    destruct (clock w - startTime <? maxWait) eqn:Hlt; try discriminate.
  - apply Z.ltb_lt in Hlt. lia.
  - apply Z.ltb_lt in Hlt.
    specialize (Hsettles w). pose proof (Htime w) as Hclock.
    unfold bind at 1. destruct (check w) as [[done|e|] w1]; cbn [fst] in *.
    + specialize (Hclock _ _ eq_refl). unfold notBefore in Hclock.
      destruct done; [discriminate|].
      unfold DELAYS_short.
      rewrite (bind_run _ _ _ _ _ (DELAYS_random_run env 500 1500 w1)).
      apply IH.
      pose proof (afterDelay_clock env 500 1500 w1 ltac:(lia)). lia.
    + discriminate.
    + contradiction.
Qed.

Lemma settles_uploadComplete : settles (uploadComplete env).
Proof. unfold uploadComplete. outcome. Qed.

Lemma time_uploadComplete : always notBefore (uploadComplete env).
Proof. unfold uploadComplete. steady. Qed.

Lemma returns_posted : returns (posted env).
Proof. unfold posted. outcome. Qed.

Lemma time_posted : always notBefore (posted env).
Proof. unfold posted. steady. Qed.

Lemma returns_waitForImageUpload : returns (waitForImageUpload env).
Proof.
  intros w. unfold waitForImageUpload, tryCatch. cbv zeta.
  rewrite (bind_run dateNow _ w w (clock w) eq_refl).
  pose proof (pollLoop_settles (uploadComplete env) (Z.to_nat (30000 / 500 + 1))
                               (clock w) 30000 w settles_uploadComplete
                               time_uploadComplete) as Hloop.
  destruct (pollLoop env _ _ _ _ w) as [[b|e|] w1]; cbn [fst] in Hloop.
  - eauto.
  - eexists _, _. reflexivity.
  - exfalso. apply Hloop; [|reflexivity].
    pose proof (enough_rounds 30000). lia.
Qed.

Lemma returns_waitForPostConfirmation : returns (waitForPostConfirmation env).
Proof.
  intros w. unfold waitForPostConfirmation, tryCatch. cbv zeta.
  rewrite (bind_run dateNow _ w w (clock w) eq_refl).
  pose proof (pollLoop_settles (posted env) (Z.to_nat (20000 / 500 + 1))
                               (clock w) 20000 w (returns_settles _ returns_posted)
                               time_posted) as Hloop.
  destruct (pollLoop env _ _ _ _ w) as [[b|e|] w1]; cbn [fst] in Hloop.
  - eauto.
  - eexists _, _. reflexivity.
  - exfalso. apply Hloop; [|reflexivity].
    pose proof (enough_rounds 20000). lia.
Qed.

Lemma settles_navigateToGroup (url : string) : settles (navigateToGroup env url).
Proof. unfold navigateToGroup. outcome. Qed.

Lemma returns_postButtonLoop (selectors : list string) :
  returns (postButtonLoop env selectors).
Proof. induction selectors as [|selector rest IH]; cbn [postButtonLoop]; outcome. Qed.

Lemma returns_findAndClickPostButton : returns (findAndClickPostButton env).
Proof.
  unfold findAndClickPostButton. outcome. apply returns_settles, returns_postButtonLoop.
Qed.

Lemma returns_textAreaLoop (text : string) (selectors : list string) :
  returns (textAreaLoop env text selectors).
Proof. induction selectors as [|selector rest IH]; cbn [textAreaLoop]; outcome. Qed.

Lemma returns_typePostMessage (text : string) : returns (typePostMessage env text).
Proof.
  unfold typePostMessage. outcome. apply returns_settles, returns_textAreaLoop.
Qed.

Lemma settles_missingImage (paths : list string) : settles (missingImage env paths).
Proof. induction paths as [|p rest IH]; cbn [missingImage]; outcome. Qed.

Lemma returns_findFileInput (selectors : list string) :
  returns (findFileInput env selectors).
Proof. induction selectors as [|selector rest IH]; cbn [findFileInput]; outcome. Qed.

Lemma settles_uploadToFileInput (selector : string) (paths : list string) :
  settles (uploadToFileInput env selector paths).
Proof. unfold uploadToFileInput. outcome. Qed.

End PostOutcomes.

#[global] Hint Resolve returns_waitForImageUpload returns_waitForPostConfirmation
  settles_navigateToGroup returns_findAndClickPostButton returns_typePostMessage
  settles_missingImage returns_findFileInput settles_uploadToFileInput : outcome.

Section PostOutcomes2.
Import JsString Effects Utils Arrays Outcome PostManager.
Context (env : Env).

Lemma returns_photoLoop (paths selectors : list string) :
  returns (photoLoop env paths selectors).
Proof. induction selectors as [|selector rest IH]; cbn [photoLoop]; outcome. Qed.

Lemma returns_uploadImages (paths : list string) : returns (uploadImages env paths).
Proof. unfold uploadImages. outcome. apply returns_settles, returns_photoLoop. Qed.

Lemma returns_post_submitLoop (selectors : list string) :
  returns (PostManager.submitLoop env selectors).
Proof. induction selectors as [|selector rest IH]; cbn [PostManager.submitLoop]; outcome. Qed.

Lemma returns_submitPost : returns (submitPost env).
Proof. unfold submitPost. outcome. apply returns_settles, returns_post_submitLoop. Qed.

Lemma returns_post_onPage {A} (m : Eff World A) : returns m -> returns (onPage m).
Proof.
  intros H s. destruct (H (world s)) as (a & w' & Hrun).
  unfold onPage. rewrite Hrun. eauto.
Qed.

Lemma settles_post_onPage {A} (m : Eff World A) : settles m -> settles (onPage m).
Proof.
  intros H s. specialize (H (world s)). unfold onPage.
  destruct (m (world s)) as [r w']. exact H.
Qed.

Lemma returns_pushCreated (r : PostResult) : returns (pushCreated r).
Proof. intros s. eexists _, _. reflexivity. Qed.

Lemma returns_pushFailedPost (r : PostResult) : returns (PostManager.pushFailed r).
Proof. intros s. eexists _, _. reflexivity. Qed.

End PostOutcomes2.

#[global] Hint Resolve returns_uploadImages returns_submitPost returns_pushCreated
  returns_pushFailedPost : outcome.

Section PostTotal.
Import JsString Effects Utils Arrays Outcome PostManager.
Context (env : Env).

Lemma returns_createPost (data : PostData) : returns (createPost env data).
Proof.
  unfold createPost. outcome;
    first [ apply returns_post_onPage; solve [auto with outcome]
          | apply settles_post_onPage; solve [auto with outcome]
          | apply settles_post_onPage, returns_settles; solve [auto with outcome] ].
Qed.

End PostTotal.

Section PostResults.
Import JsString Effects Utils Arrays Outcome PostManager Records.
Context (env : Env).

(** A call of [createPost] from a well-formed manager. *)
Lemma createPost_run (data : PostData) (s : State) :
  wellFormed s ->
  exists r s',
    createPost env data s = (Ok r, s') /\
    wellFormed s' /\
    ((success r = true /\ created s' = created s ++ [r] /\ failed s' = failed s) \/
     (success r = false /\ created s' = created s /\ failed s' = failed s ++ [r])).
Proof.
  intros Hwf. destruct (returns_createPost env data s) as (r & s' & Hrun).
  exists r, s'. split; [exact Hrun|].
  pose proof (createPost_outcome env _ _ _ _ Hrun) as Hrec. cbn in Hrec.
  destruct Hwf as (Hc & Hf & Hne). destruct Hrec as (Hthis & Hheap).
  unfold wellFormed, created, failed. rewrite Hthis.
  destruct Hheap as [(Hok & Hheap)|(Hok & Hheap)]; rewrite Hheap, dom_push.
  - split; [auto|]. left. split; [exact Hok|]. split.
    + apply elems_push_same, Hc.
    + apply elems_push_other, Hne.
  - split; [auto|]. right. split; [exact Hok|]. split.
    + apply elems_push_other. congruence.
    + apply elems_push_same, Hf.
Qed.

(** [X24] Whatever the page does, [createPost] called on a manager
    whose two lists are distinct arrays neither throws nor hangs: it
    returns a result and has appended that result to exactly one list,
    the created list when the result is a success and the failure list
    when it is not, leaving the other list as it was. *)
Theorem createPost_always_records (data : PostData) (s : State) :
  wellFormed s ->
  exists r s',
    createPost env data s = (Ok r, s') /\
    wellFormed s' /\
    ((success r = true /\ created s' = created s ++ [r] /\ failed s' = failed s) \/
     (success r = false /\ created s' = created s /\ failed s' = failed s ++ [r])).
Proof. apply createPost_run. Qed.

Lemma explained_succeeded : explained succeeded.
Proof. left. reflexivity. Qed.

Lemma explained_failedWith (why : string) : explained (failedWith why).
Proof. right. exists why. reflexivity. Qed.

Lemma yields_bind_with {S A B} (Q : A -> Prop) (P : B -> Prop)
      (m : Eff S A) (k : A -> Eff S B) :
  yields Q m -> (forall a, Q a -> yields P (k a)) -> yields P (bind m k).
Proof.
  intros Hm Hk s b s' Hrun. apply bind_inv in Hrun.
  destruct Hrun as [(a & s1 & Hfirst & Hrest)|[(e & _ & He)|(_ & He)]];
    [|discriminate|discriminate].
  eapply Hk; [eapply Hm, Hfirst|exact Hrest].
Qed.

Lemma yields_onPage {A} (Q : A -> Prop) (m : Eff World A) :
  yields Q m -> yields Q (onPage m).
Proof.
  intros Hm s a s' Hrun. unfold onPage in Hrun.
  destruct (m (world s)) as [r w'] eqn:Hw. inversion Hrun. subst. eapply Hm, Hw.
Qed.

Lemma yields_postButtonLoop (selectors : list string) :
  yields (fun found => found = None \/ found = Some succeeded)
         (postButtonLoop env selectors).
Proof.
  induction selectors as [|selector rest IH]; cbn [postButtonLoop].
  - apply yields_ret. left. reflexivity.
  - apply (yields_bind_with (fun found => found = None \/ found = Some succeeded)).
    + yield; tauto.
    + intros found [-> | ->]; [exact IH|]. apply yields_ret. right. reflexivity.
Qed.

Lemma yields_findAndClickPostButton : yields explained (findAndClickPostButton env).
Proof.
  unfold findAndClickPostButton. apply yields_tryCatch.
  - apply (yields_bind_with _ _ _ _ (yields_postButtonLoop postSelectors)).
    intros found [-> | ->]; apply yields_ret;
      [apply explained_failedWith|apply explained_succeeded].
  - intros e. apply yields_ret, explained_failedWith.
Qed.

Lemma yields_typePostMessage (text : string) : yields explained (typePostMessage env text).
Proof.
  unfold typePostMessage. yield;
    first [apply explained_failedWith|apply explained_succeeded].
Qed.

Lemma yields_missingImage (paths : list string) :
  yields (fun missing => missing = None \/ exists why, missing = Some (failedWith why))
         (missingImage env paths).
Proof.
  induction paths as [|p rest IH]; cbn [missingImage].
  - apply yields_ret. left. reflexivity.
  - apply yields_bind. intros found. destruct found; cbn [negb]; [exact IH|].
    apply yields_ret. right. eexists. reflexivity.
Qed.

Lemma yields_uploadImages (paths : list string) : yields explained (uploadImages env paths).
Proof.
  unfold uploadImages. apply yields_tryCatch.
  - apply (yields_bind_with _ _ _ _ (yields_missingImage paths)).
    intros missing [-> | [why ->]].
    + yield; first [apply explained_failedWith|apply explained_succeeded].
    + apply yields_ret, explained_failedWith.
  - intros e. apply yields_ret, explained_failedWith.
Qed.

Lemma yields_post_submitLoop (selectors : list string) :
  yields (fun found => found = None \/ found = Some succeeded)
         (PostManager.submitLoop env selectors).
Proof.
  induction selectors as [|selector rest IH]; cbn [PostManager.submitLoop].
  - apply yields_ret. left. reflexivity.
  - apply (yields_bind_with (fun found => found = None \/ found = Some succeeded)).
    + yield; tauto.
    + intros found [-> | ->]; [exact IH|]. apply yields_ret. right. reflexivity.
Qed.

Lemma yields_submitPost : yields explained (submitPost env).
Proof.
  unfold submitPost. apply yields_tryCatch.
  - apply (yields_bind_with _ _ _ _ (yields_post_submitLoop postButtonSelectors)).
    intros found [-> | ->]; apply yields_ret;
      [apply explained_failedWith|apply explained_succeeded].
  - intros e. apply yields_ret, explained_failedWith.
Qed.

(** [X25] Every result of [createPost] carries the post data it was
    called with and the time of the call.  A success has no error and
    one of the three success messages; a failure has an empty message
    and always says why: its error field holds a text. *)
Theorem createPost_result_shape (data : PostData) (s s' : State) (r : PostResult) :
  createPost env data s = (Ok r, s') ->
  postData r = data /\
  timestamp r = clock (world s) /\
  ((success r = true /\ error r = None /\ message r ∈ createdMessages) \/
   (success r = false /\ message r = EmptyString /\ exists why, error r = Some why)).
Proof.
  destruct s as [fields h w]. cbn [world]. unfold createPost.
  set (s := {| this := fields; heap := h; world := w |}).
  rewrite (bind_run (onPage dateNow) _ s s (clock w) eq_refl).
  intros Hrun.
  match type of Hrun with
  | ?m s = _ =>
      assert (Hshape :
        yields (fun r =>
                  postData r = data /\ timestamp r = clock w /\
                  ((success r = true /\ error r = None /\ message r ∈ createdMessages) \/
                   (success r = false /\ message r = EmptyString /\
                    exists why, error r = Some why))) m)
  end.
  { assert (Hfail : forall step : ClickResult,
               explained step -> clickSuccess step = false ->
               exists why, clickError step = Some why).
    { intros step [Hok|Hwhy] Hno; [congruence|exact Hwhy]. }
    cbv zeta. apply yields_tryCatch.
    - apply yields_bind. intros _.
      apply (yields_bind_with explained); [apply yields_onPage, yields_findAndClickPostButton|].
      intros step1 Hstep1. destruct (clickSuccess step1) eqn:Hok1; cbn [negb].
      2:{ yield. split; [reflexivity|]. split; [reflexivity|]. right.
          split; [reflexivity|]. split; [reflexivity|]. apply Hfail; assumption. }
      apply yields_bind. intros _.
      apply (yields_bind_with explained).
      { destruct (default EmptyString (postMessage data));
          [apply yields_ret, explained_succeeded|apply yields_onPage, yields_typePostMessage]. }
      intros step2 Hstep2. destruct (clickSuccess step2) eqn:Hok2; cbn [negb].
      2:{ yield. split; [reflexivity|]. split; [reflexivity|]. right.
          split; [reflexivity|]. split; [reflexivity|]. apply Hfail; assumption. }
      apply (yields_bind_with explained).
      { destruct (default [] (imagePaths data));
          [apply yields_ret, explained_succeeded|apply yields_onPage, yields_uploadImages]. }
      intros step3 Hstep3. destruct (clickSuccess step3) eqn:Hok3; cbn [negb].
      2:{ yield. split; [reflexivity|]. split; [reflexivity|]. right.
          split; [reflexivity|]. split; [reflexivity|]. apply Hfail; assumption. }
      apply yields_bind. intros _.
      apply (yields_bind_with explained); [apply yields_onPage, yields_submitPost|].
      intros step4 Hstep4. destruct (clickSuccess step4) eqn:Hok4; cbn [negb].
      2:{ yield. split; [reflexivity|]. split; [reflexivity|]. right.
          split; [reflexivity|]. split; [reflexivity|]. apply Hfail; assumption. }
      apply (yields_bind_with
               (fun r => postData r = data /\ timestamp r = clock w /\
                         success r = true /\ error r = None /\
                         message r ∈ createdMessages)).
      + yield; (split; [reflexivity|]; split; [reflexivity|]; split; [reflexivity|];
                split; [reflexivity|]); unfold createdMessages; cbn [message withSuccess];
          rewrite !elem_of_cons; tauto.
      + intros final (Hd & Ht & Hs & He & Hm). yield. tauto.
    - intros e. yield. split; [reflexivity|]. split; [reflexivity|]. right.
      split; [reflexivity|]. split; [reflexivity|]. eexists. reflexivity. }
  exact (Hshape _ _ _ Hrun).
Qed.

End PostResults.

Section UploadFacts.
Import JsString Effects Utils Arrays Outcome PostManager Login.
Context (env : Env).

(** The validation loop stops at the first path whose check says that
    the file does not exist, after checking the paths before it in
    order, each found to exist. *)
Lemma missingImage_first (paths : list string) (p : string) (w : World) :
  (forall h path, fails env (PathExists path :: h) = None) ->
  (forall h, saysBool env (PathExists p :: h) = false) ->
  p ∈ paths ->
  exists before q after w',
    paths = before ++ q :: after /\
    missingImage env paths w = (Ok (Some (failedWith ("Image not found: " +:+ q))), w') /\
    trace w' = PathExists q :: rev (map PathExists before) ++ trace w /\
    saysBool env (trace w') = false /\
    (forall done x rest,
        before = done ++ x :: rest ->
        saysBool env (PathExists x :: rev (map PathExists done) ++ trace w) = true).
Proof.
  intros Hfs Hp. revert w. induction paths as [|x rest IH]; intros w Hin.
  - inversion Hin.
  - cbn [missingImage]. unfold bind at 1, perform at 1. cbn [trace step]. rewrite Hfs.
    destruct (saysBool env (PathExists x :: trace w)) eqn:Hx; cbn [negb].
    + assert (Hrest : p ∈ rest).
      { apply elem_of_cons in Hin. destruct Hin as [->|Hin]; [|exact Hin].
        rewrite Hp in Hx. discriminate. }
      destruct (IH (step env (PathExists x) w) Hrest)
        as (before & q & after & w' & Hpaths & Hrun & Htr & Hq & Hbefore).
      cbn [trace step] in Htr, Hbefore.
      exists (x :: before), q, after, w'. split; [rewrite Hpaths; reflexivity|].
      split; [exact Hrun|]. split; [|split; [exact Hq|]].
      * rewrite Htr. cbn [map rev]. rewrite <- app_assoc. reflexivity.
      * intros [|y done] x' rest' Hsplit; inversion Hsplit; subst.
        -- exact Hx.
        -- cbn [map rev]. rewrite <- app_assoc. eapply Hbefore. reflexivity.
    + exists [], x, rest, (step env (PathExists x) w). split; [reflexivity|].
      split; [reflexivity|]. split; [reflexivity|]. split; [exact Hx|].
      intros [|y done] x' rest' Hsplit; inversion Hsplit.
Qed.

(** [X26] When the file system answers every existence check and one
    of the image paths does not exist, [uploadImages] fails with the
    message that names a missing path of the list: the first path whose
    check answers that the file does not exist, every path before it
    having been checked and found.  It has done nothing but these
    checks, in the order of the list: nothing was clicked and no file
    was set on an input. *)
Theorem uploadImages_missing_file (paths : list string) (p : string) (w : World) :
  (forall h path, fails env (PathExists path :: h) = None) ->
  (forall h, saysBool env (PathExists p :: h) = false) ->
  p ∈ paths ->
  exists before q after w',
    paths = before ++ q :: after /\
    uploadImages env paths w = (Ok (failedWith ("Image not found: " +:+ q)), w') /\
    trace w' = PathExists q :: rev (map PathExists before) ++ trace w /\
    saysBool env (trace w') = false /\
    (forall done x rest,
        before = done ++ x :: rest ->
        saysBool env (PathExists x :: rev (map PathExists done) ++ trace w) = true) /\
    adds isFileCheck w w'.
Proof.
  intros Hfs Hp Hin.
  destruct (missingImage_first paths p w Hfs Hp Hin)
    as (before & q & after & w' & Hpaths & Hrun & Htr & Hq & Hbefore).
  exists before, q, after, w'. split; [exact Hpaths|]. split.
  { unfold uploadImages, tryCatch. rewrite (bind_run _ _ _ _ _ Hrun). reflexivity. }
  split; [exact Htr|]. split; [exact Hq|]. split; [exact Hbefore|].
  exists (PathExists q :: rev (map PathExists before)). split; [exact Htr|].
  constructor; [exact I|].
  apply Forall_forall. intros a Ha.
  apply list_elem_of_In, in_rev, in_map_iff in Ha. destruct Ha as (path & <- & _). exact I.
Qed.

End UploadFacts.

Section PostWitnesses.
Import JsString Effects Utils Arrays Outcome PostManager Records Login Scenarios
       MoreScenarios.

Lemma createPost_always_records_witness :
  exists r s',
    createPost envJoinable textPost postStart = (Ok r, s') /\
    wellFormed s' /\
    ((success r = true /\ created s' = created postStart ++ [r]
      /\ failed s' = failed postStart) \/
     (success r = false /\ created s' = created postStart
      /\ failed s' = failed postStart ++ [r])).
Proof.
  apply (createPost_always_records envJoinable textPost postStart).
  exact postStart_wellFormed.
Defined.

Lemma createPost_result_shape_witness :
  exists r s',
    createPost envJoinable textPost postStart = (Ok r, s') /\
    postData r = textPost /\
    timestamp r = 1700000000000 /\
    ((success r = true /\ error r = None /\ message r ∈ createdMessages) \/
     (success r = false /\ message r = EmptyString /\ exists why, error r = Some why)).
Proof.
  eexists _, _. split; [vm_compute; reflexivity|].
  eapply (createPost_result_shape envJoinable textPost postStart).
  vm_compute. reflexivity.
Defined.

Lemma uploadImages_missing_file_witness :
  exists w',
    uploadImages envSecondMissing ["post1.jpeg"; "post2.jpeg"; "post3.jpeg"] start
    = (Ok (failedWith "Image not found: post2.jpeg"), w') /\
    trace w' = [PathExists "post2.jpeg"; PathExists "post1.jpeg"].
Proof.
  destruct (uploadImages_missing_file envSecondMissing
                                      ["post1.jpeg"; "post2.jpeg"; "post3.jpeg"]
                                      "post2.jpeg" start)
    as (before & q & after & w' & _ & Hrun & _).
  - intros h path. reflexivity.
  - intros h. reflexivity.
  - apply list_elem_of_further, list_elem_of_here.
  - exists w'. pose proof Hrun as Hvalue. vm_compute in Hvalue.
    inversion Hvalue. subst. split; [exact Hrun|reflexivity].
Defined.

End PostWitnesses.

(** ** The batch loops *)

Section TallyFacts.
Import Effects Utils Arrays Outcome Orchestrator Tally.
Context (env : Env).

Lemma onWorld_tally {A} (m : Eff World A) (s s' : State) (r : Res A) :
  onWorld m s = (r, s') ->
  stats s' = stats s /\
  groupManager s' = groupManager s /\ groupHeap s' = groupHeap s /\
  postManager s' = postManager s /\ postHeap s' = postHeap s.
Proof.
  unfold onWorld. destruct (m (world s)) as [r0 w0]. intros H. inversion H. auto.
Qed.

Lemma surplus_frame (s s' : State) :
  stats s' = stats s ->
  groupManager s' = groupManager s -> groupHeap s' = groupHeap s ->
  postManager s' = postManager s -> postHeap s' = postHeap s ->
  surplus s' = surplus s /\ (wellFormed s -> wellFormed s').
Proof.
  intros E0 E1 E2 E3 E4.
  unfold surplus, wellFormed, groupView, postView, GroupManager.joined, GroupManager.failed,
    PostManager.created, PostManager.failed, GroupManager.wellFormed, PostManager.wellFormed.
  cbn [GroupManager.this GroupManager.heap PostManager.this PostManager.heap].
  rewrite E0, E1, E2, E3, E4. tauto.
Qed.

Lemma joinItem_tally (fuel : nat) (options : GroupManager.JoinGroupOptions)
      (n i : nat) (groupUrl : string) (s s1 : State) (r : Res unit) :
  wellFormed s ->
  joinItem env fuel options n i groupUrl s = (r, s1) ->
  surplus s1 = surplus s /\ wellFormed s1.
Proof.
  unfold joinItem. intros Hwf Hrun.
  destruct (onWorld (interventionWait env fuel) s) as [r0 s0] eqn:Hwait.
  pose proof (onWorld_tally _ _ _ _ Hwait) as (E0 & E1 & E2 & E3 & E4).
  destruct (surplus_frame s s0 E0 E1 E2 E3 E4) as [Hs0 Hwf0]. specialize (Hwf0 Hwf).
  unfold bind at 1 in Hrun. rewrite Hwait in Hrun.
  rewrite <- Hs0. clear Hwait E0 E1 E2 E3 E4 Hs0 Hwf s.
  destruct r0 as [[]|e|]; [|inversion Hrun; subst; tauto..].
  destruct Hwf0 as [Hg Hp].
  destruct (joinGroup_run env groupUrl options (groupView s0) Hg)
    as (res & g' & Hjoin & Hg' & Hgrow).
  unfold tryCatch, bind at 1, withGroupManager in Hrun.
  fold (groupView s0) in Hrun. rewrite Hjoin in Hrun.
  destruct g' as [fields heap' world'].
  assert (Hend : forall f : AutomationStats -> AutomationStats,
    exists w2,
      bind (setStats f)
           (fun _ => if Z.of_nat i <? Z.of_nat n - 1
                     then onWorld (DELAYS_random env 3000 8000) else ret tt)
           {| stats := stats s0; groupManager := fields; groupHeap := heap';
              postManager := postManager s0; postHeap := postHeap s0; world := world' |}
      = (Ok tt,
         {| stats := f (stats s0); groupManager := fields; groupHeap := heap';
            postManager := postManager s0; postHeap := postHeap s0; world := w2 |})).
  { intros f. unfold bind, setStats. destruct (Z.of_nat i <? Z.of_nat n - 1).
    - unfold onWorld. cbn [world]. rewrite DELAYS_random_run. eexists. reflexivity.
    - eexists. reflexivity. }
  cbn [GroupManager.this GroupManager.heap GroupManager.world] in Hrun.
  unfold GroupManager.joined, GroupManager.failed in Hgrow.
  cbn [GroupManager.this GroupManager.heap groupView] in Hgrow.
  destruct Hgrow as [(Hok & Hj & Hf)|(Hok & Hj & Hf)]; rewrite Hok in Hrun.
  - destruct (Hend countGroupJoined) as [w2 Hdone]. rewrite Hdone in Hrun.
    inversion Hrun. subst r s1. split.
    + unfold surplus, groupView, postView, GroupManager.joined, GroupManager.failed,
        PostManager.created, PostManager.failed.
      cbn [GroupManager.this GroupManager.heap PostManager.this PostManager.heap
           stats groupManager groupHeap postManager postHeap countGroupJoined
           groupsJoined postsCreated errors].
      rewrite Hj, Hf, length_app. cbn [length].
      apply (f_equal2 pair); [apply (f_equal2 pair)|]; lia.
    + split; [exact Hg'|exact Hp].
  - destruct (Hend countError) as [w2 Hdone]. rewrite Hdone in Hrun.
    inversion Hrun. subst r s1. split.
    + unfold surplus, groupView, postView, GroupManager.joined, GroupManager.failed,
        PostManager.created, PostManager.failed.
      cbn [GroupManager.this GroupManager.heap PostManager.this PostManager.heap
           stats groupManager groupHeap postManager postHeap countError
           groupsJoined postsCreated errors].
      rewrite Hj, Hf, length_app. cbn [length].
      apply (f_equal2 pair); [apply (f_equal2 pair)|]; lia.
    + split; [exact Hg'|exact Hp].
Qed.

Lemma postItem_tally (fuel : nat) (postTemplate : PostManager.PostData)
      (n i : nat) (groupUrl : string) (s s1 : State) (r : Res unit) :
  wellFormed s ->
  postItem env fuel postTemplate n i groupUrl s = (r, s1) ->
  surplus s1 = surplus s /\ wellFormed s1.
Proof.
  unfold postItem. intros Hwf Hrun.
  destruct (onWorld (interventionWait env fuel) s) as [r0 s0] eqn:Hwait.
  pose proof (onWorld_tally _ _ _ _ Hwait) as (E0 & E1 & E2 & E3 & E4).
  destruct (surplus_frame s s0 E0 E1 E2 E3 E4) as [Hs0 Hwf0]. specialize (Hwf0 Hwf).
  unfold bind at 1 in Hrun. rewrite Hwait in Hrun.
  rewrite <- Hs0. clear Hwait E0 E1 E2 E3 E4 Hs0 Hwf s.
  destruct r0 as [[]|e|]; [|inversion Hrun; subst; tauto..].
  destruct Hwf0 as [Hg Hp].
  destruct (createPost_run env (preparePost postTemplate groupUrl) (postView s0) Hp)
    as (res & p' & Hpost & Hp' & Hgrow).
  cbv zeta in Hrun.
  unfold tryCatch, bind at 1, withPostManager in Hrun.
  fold (postView s0) in Hrun. rewrite Hpost in Hrun.
  destruct p' as [fields heap' world'].
  assert (Hend : forall f : AutomationStats -> AutomationStats,
    exists w2,
      bind (setStats f)
           (fun _ => if Z.of_nat i <? Z.of_nat n - 1
                     then onWorld (DELAYS_random env 5000 12000) else ret tt)
           {| stats := stats s0; groupManager := groupManager s0;
              groupHeap := groupHeap s0;
              postManager := fields; postHeap := heap'; world := world' |}
      = (Ok tt,
         {| stats := f (stats s0); groupManager := groupManager s0;
            groupHeap := groupHeap s0;
            postManager := fields; postHeap := heap'; world := w2 |})).
  { intros f. unfold bind, setStats. destruct (Z.of_nat i <? Z.of_nat n - 1).
    - unfold onWorld. cbn [world]. rewrite DELAYS_random_run. eexists. reflexivity.
    - eexists. reflexivity. }
  cbn [PostManager.this PostManager.heap PostManager.world] in Hrun.
  unfold PostManager.created, PostManager.failed in Hgrow.
  cbn [PostManager.this PostManager.heap postView] in Hgrow.
  destruct Hgrow as [(Hok & Hc & Hf)|(Hok & Hc & Hf)]; rewrite Hok in Hrun.
  - destruct (Hend countPostCreated) as [w2 Hdone]. rewrite Hdone in Hrun.
    inversion Hrun. subst r s1. split.
    + unfold surplus, groupView, postView, GroupManager.joined, GroupManager.failed,
        PostManager.created, PostManager.failed.
      cbn [GroupManager.this GroupManager.heap PostManager.this PostManager.heap
           stats groupManager groupHeap postManager postHeap countPostCreated
           groupsJoined postsCreated errors].
      rewrite Hc, Hf, length_app. cbn [length].
      apply (f_equal2 pair); [apply (f_equal2 pair)|]; lia.
    + split; [exact Hg|exact Hp'].
  - destruct (Hend countError) as [w2 Hdone]. rewrite Hdone in Hrun.
    inversion Hrun. subst r s1. split.
    + unfold surplus, groupView, postView, GroupManager.joined, GroupManager.failed,
        PostManager.created, PostManager.failed.
      cbn [GroupManager.this GroupManager.heap PostManager.this PostManager.heap
           stats groupManager groupHeap postManager postHeap countError
           groupsJoined postsCreated errors].
      rewrite Hc, Hf, length_app. cbn [length].
      apply (f_equal2 pair); [apply (f_equal2 pair)|]; lia.
    + split; [exact Hg|exact Hp'].
Qed.

Lemma joinLoop_tally (fuel : nat) (options : GroupManager.JoinGroupOptions)
      (n i : nat) (rest : list string) (s s' : State) (r : Res unit) :
  wellFormed s ->
  joinLoop env fuel options n i rest s = (r, s') ->
  surplus s' = surplus s /\ wellFormed s'.
Proof.
  revert i s. induction rest as [|groupUrl rest IH]; intros i s Hwf; cbn [joinLoop].
  - intros H. inversion H. subst. tauto.
  - unfold bind at 1, readShouldStop. destruct (shouldStop (world s)).
    + intros H. inversion H. subst. tauto.
    + unfold bind at 1.
      destruct (joinItem env fuel options n i groupUrl s) as [r1 s1] eqn:Hitem.
      destruct (joinItem_tally _ _ _ _ _ _ _ _ Hwf Hitem) as [Hs1 Hwf1].
      destruct r1 as [[]|e|].
      * intros Hrest. destruct (IH _ _ Hwf1 Hrest) as [Hs' Hwf']. rewrite Hs', Hs1. tauto.
      * intros H. inversion H. subst. tauto.
      * intros H. inversion H. subst. tauto.
Qed.

Lemma postLoop_tally (fuel : nat) (postTemplate : PostManager.PostData)
      (n i : nat) (rest : list string) (s s' : State) (r : Res unit) :
  wellFormed s ->
  postLoop env fuel postTemplate n i rest s = (r, s') ->
  surplus s' = surplus s /\ wellFormed s'.
Proof.
  revert i s. induction rest as [|groupUrl rest IH]; intros i s Hwf; cbn [postLoop].
  - intros H. inversion H. subst. tauto.
  - unfold bind at 1, readShouldStop. destruct (shouldStop (world s)).
    + intros H. inversion H. subst. tauto.
    + unfold bind at 1.
      destruct (postItem env fuel postTemplate n i groupUrl s) as [r1 s1] eqn:Hitem.
      destruct (postItem_tally _ _ _ _ _ _ _ _ Hwf Hitem) as [Hs1 Hwf1].
      destruct r1 as [[]|e|].
      * intros Hrest. destruct (IH _ _ Hwf1 Hrest) as [Hs' Hwf']. rewrite Hs', Hs1. tauto.
      * intros H. inversion H. subst. tauto.
      * intros H. inversion H. subst. tauto.
Qed.

(** [X27] The statistics stay in step with the result lists: however
    [joinGroups] or [createPosts] ends, the counter of joined groups has
    grown by the number of results added to the joined list, the counter
    of created posts by the number added to the created list, and the
    error counter by the number added to the two failure lists; the
    error branch of an item, which would count an error without a
    result, is never taken. *)
Theorem stats_agree_with_lists (fuel : nat) (groupUrls : list string) (s s' : State) :
  wellFormed s ->
  (forall options r,
      joinGroups env fuel groupUrls options s = (r, s') ->
      surplus s' = surplus s /\ wellFormed s') /\
  (forall postTemplate r,
      createPosts env fuel groupUrls postTemplate s = (r, s') ->
      surplus s' = surplus s /\ wellFormed s').
Proof.
  intros Hwf. split.
  - intros options r. unfold joinGroups, tryCatch.
    destruct (joinLoop env fuel options (length groupUrls) 0 groupUrls s)
      as [r1 s1] eqn:Hloop.
    destruct (joinLoop_tally _ _ _ _ _ _ _ _ Hwf Hloop) as [Hs1 Hwf1].
    destruct r1; intros H; inversion H; subst; tauto.
  - intros postTemplate r. unfold createPosts, tryCatch.
    destruct (postLoop env fuel postTemplate (length groupUrls) 0 groupUrls s)
      as [r1 s1] eqn:Hloop.
    destruct (postLoop_tally _ _ _ _ _ _ _ _ Hwf Hloop) as [Hs1 Hwf1].
    destruct r1; intros H; inversion H; subst; tauto.
Qed.

End TallyFacts.

Section GateFacts.
Import Effects Utils Arrays Outcome Orchestrator.
Context (env : Env).

Lemma interventionWait_idle (fuel : nat) (w : World) :
  interventionRequired w = false -> interventionWait env fuel w = (Ok tt, w).
Proof.
  intros Hclear. destruct fuel; cbn [interventionWait];
    unfold bind, isWaitingForIntervention; rewrite Hclear; reflexivity.
Qed.

(** [X28] An item of a batch is started only after the wait loop has
    read the intervention flag as clear: whenever a round of
    [joinGroups] or [createPosts] completes, its wait ended in a state
    with the flag down, from which the join or the post was then made;
    and when the flag is down to begin with, the wait changes nothing
    and takes no time. *)
Theorem items_wait_for_intervention (fuel : nat) (n i : nat) (groupUrl : string)
        (s s1 : State) :
  (forall options,
      joinItem env fuel options n i groupUrl s = (Ok tt, s1) ->
      exists s0 result s2,
        onWorld (interventionWait env fuel) s = (Ok tt, s0) /\
        interventionRequired (world s0) = false /\
        (interventionRequired (world s) = false -> s0 = s) /\
        withGroupManager (GroupManager.joinGroup env groupUrl options) s0
        = (Ok result, s2)) /\
  (forall postTemplate,
      postItem env fuel postTemplate n i groupUrl s = (Ok tt, s1) ->
      exists s0 result s2,
        onWorld (interventionWait env fuel) s = (Ok tt, s0) /\
        interventionRequired (world s0) = false /\
        (interventionRequired (world s) = false -> s0 = s) /\
        withPostManager (PostManager.createPost env (preparePost postTemplate groupUrl)) s0
        = (Ok result, s2)).
Proof.
  assert (Hwait : forall s0,
             onWorld (interventionWait env fuel) s = (Ok tt, s0) ->
             interventionRequired (world s0) = false /\
             (interventionRequired (world s) = false -> s0 = s)).
  { intros s0 H0. unfold onWorld in H0.
    destruct (interventionWait env fuel (world s)) as [r0 w0] eqn:Hw.
    inversion H0. subst r0 s0. cbn [world]. split.
    - eapply interventionWait_clear, Hw.
    - intros Hclear. rewrite (interventionWait_idle fuel _ Hclear) in Hw.
      inversion Hw. destruct s. reflexivity. }
  split.
  - intros options Hrun. unfold joinItem in Hrun. apply bind_inv in Hrun.
    destruct Hrun as [([] & s0 & H0 & Hround)|[(e & _ & He)|(_ & He)]]; [|discriminate..].
    destruct (Hwait s0 H0) as [Hclear Hsame].
    destruct (returns_joinGroup env groupUrl options (groupView s0)) as (result & g' & Hjoin).
    exists s0, result. eexists. split; [exact H0|]. split; [exact Hclear|].
    split; [exact Hsame|].
    unfold withGroupManager. fold (groupView s0). rewrite Hjoin. reflexivity.
  - intros postTemplate Hrun. unfold postItem in Hrun. apply bind_inv in Hrun.
    destruct Hrun as [([] & s0 & H0 & Hround)|[(e & _ & He)|(_ & He)]]; [|discriminate..].
    destruct (Hwait s0 H0) as [Hclear Hsame].
    destruct (returns_createPost env (preparePost postTemplate groupUrl) (postView s0))
      as (result & p' & Hpost).
    exists s0, result. eexists. split; [exact H0|]. split; [exact Hclear|].
    split; [exact Hsame|].
    unfold withPostManager. fold (postView s0). rewrite Hpost. reflexivity.
Qed.

End GateFacts.

Section ResolutionFacts.
Import Effects AlertSystem.
Context (env : Env).

(** [X29] [waitForManualResolution] never waits: for every priority it
    resolves with the action continue at its first check, after at most
    one look for the overlay, with the intervention flag cleared and the
    monitoring flag untouched; the actions stop and timeout are never
    produced. *)
Theorem waitForManualResolution_never_waits (fuel : nat) (priority : AlertPriority)
        (s : State) :
  exists s' new,
    waitForManualResolution env fuel priority s = (Ok continue, s') /\
    interventionRequired s' = false /\
    isMonitoring s' = isMonitoring s /\
    trace (world s') = new ++ trace (world s) /\
    (new = [] \/ new = [OverlayExists]).
Proof. apply waitForManualResolution_continues. Qed.

End ResolutionFacts.

Section BatchWitnesses.
Import Effects Utils Arrays Outcome Orchestrator Tally Scenarios.

Lemma stats_agree_with_lists_witness :
  exists sk,
    joinGroups envStopped 10 ["a"; "b"; "c"; "d"; "e"] noOptions batchStart = (Ok tt, sk) /\
    surplus sk = (0, 0, 0).
Proof.
  eexists. split; [vm_compute; reflexivity|].
  transitivity (surplus batchStart); [|vm_compute; reflexivity].
  eapply (proj1 (stats_agree_with_lists envStopped 10 ["a"; "b"; "c"; "d"; "e"]
                                        batchStart _ batchStart_wellFormed)
                noOptions (Ok tt)).
  vm_compute. reflexivity.
Defined.

Lemma items_wait_for_intervention_witness :
  exists s0,
    onWorld (interventionWait envBlocked 10) batchStart = (Ok tt, s0) /\
    interventionRequired (world s0) = false.
Proof.
  eassert (Hitem : joinItem envBlocked 10 noOptions 1 0 "a" batchStart = (Ok tt, _)).
  { vm_compute. reflexivity. }
  destruct (proj1 (items_wait_for_intervention envBlocked 10 1 0 "a" batchStart _)
                  noOptions Hitem)
    as (s0 & result & s2 & Hwait & Hclear & _).
  exists s0. split; [exact Hwait|exact Hclear].
Defined.

End BatchWitnesses.

(** ** Searching for groups *)

Section SearchFacts.
Import JsString Discovery Effects Utils Outcome Search.
Context (env : Env) (extractGroupsFromSearchPage : Eff World (list GroupInfo)).













End SearchFacts.

Section SearchWitnesses.
Import Effects Outcome Search Scenarios MoreScenarios.


End SearchWitnesses.

(** ** Selection parsing: which tokens count *)

Section SelectionTokens.
Import JsString Selection GroupSelector.

(** A token that stands for an index is not one of those that are
    malformed, zero, negative or out of range. *)
Lemma selects_not_rejected (maxIndex : Z) (part : string) (i : Z) :
  selects maxIndex part i -> ~ rejected maxIndex part.
Proof.
  unfold selects, rejected. destruct (isRange part).
  - intros (s & e & -> & -> & Hs & Hi & He). cbn [unusable]. lia.
  - intros (-> & Hi). cbn [unusable]. lia.
Qed.

(** [C10] For every input and every [maxIndex], [parseSelection] returns
    a strictly ascending list (hence without duplicates) of integers
    between 1 and [maxIndex], and no token makes it fail: the function
    is total.  Every index of the result comes from a comma-separated
    token that stands for it; a token from which [parseInt] reads no
    integer, zero, a negative number or a number above [maxIndex] (for
    a range: such a start or end) is never that token, so an input made
    of such tokens selects nothing.  What counts is the integer that
    [parseInt] reads from the start of the token, whatever follows
    it. *)
Theorem parseSelection_ascending_in_range (input : string) (maxIndex : Z) :
  StronglySorted Z.lt (parseSelection input maxIndex) /\
  Forall (fun i => 1 <= i <= maxIndex) (parseSelection input maxIndex) /\
  (forall i,
      i ∈ parseSelection input maxIndex ->
      exists part,
        part ∈ map trim (split ","%char input) /\
        ~ rejected maxIndex part /\
        selects maxIndex part i) /\
  ((forall part, part ∈ map trim (split ","%char input) -> rejected maxIndex part) ->
   parseSelection input maxIndex = []).
Proof.
  destruct (parseSelection_sorted input maxIndex) as [Hsorted Hrange].
  assert (Hfrom : forall i,
             i ∈ parseSelection input maxIndex ->
             exists part,
               part ∈ map trim (split ","%char input) /\
               ~ rejected maxIndex part /\
               selects maxIndex part i).
  { intros i Hi. unfold parseSelection in Hi.
    rewrite (merge_sort_Permutation Z.le _), parts_elem in Hi.
    destruct Hi as [Hi|(part & Hpart & Hselects)]; [inversion Hi|].
    exists part. split; [exact Hpart|]. split; [|exact Hselects].
    eapply selects_not_rejected, Hselects. }
  split; [exact Hsorted|]. split; [exact Hrange|]. split; [exact Hfrom|].
  intros Hall. destruct (parseSelection input maxIndex) as [|i rest] eqn:Hresult;
    [reflexivity|].
  destruct (Hfrom i) as (part & Hpart & Hnot & _); [apply list_elem_of_here|].
  destruct (Hnot (Hall part Hpart)).
Qed.

(** Zero, a word, a number above the maximum, a range from zero, a range
    beyond the maximum, a range without a start and a negative number
    select nothing. *)
Lemma parseSelection_ascending_in_range_witness :
  parseSelection "0, abc, 9, 0-3, 2-9, x-3, -2" 5 = [].
Proof.
  apply (parseSelection_ascending_in_range "0, abc, 9, 0-3, 2-9, x-3, -2" 5).
  intros part Hin.
  change (part ∈ ["0"; "abc"; "9"; "0-3"; "2-9"; "x-3"; "-2"]) in Hin.
  repeat (apply elem_of_cons in Hin; destruct Hin as [->|Hin]).
  - left. reflexivity.
  - exact I.
  - right. right. reflexivity.
  - left. left. reflexivity.
  - right. right. right. reflexivity.
  - left. exact I.
  - left. exact I.
  - inversion Hin.
Defined.

(** Tokens that are not numbers or ranges and yet select: [parseInt]
    reads the 2 of 2x and the 1 of 1.9, and of the three numbers of
    1-2-3 the first two make a range. *)
Lemma parseSelection_malformed_counterexample :
  parseSelection "2x" 5 = [2] /\
  parseSelection "1.9" 5 = [1] /\
  parseSelection "1-2-3" 5 = [1; 2].
Proof. split; [|split]; vm_compute; reflexivity. Qed.

End SelectionTokens.

(** ** The wait for an intervention before a batch item *)

Section GatingFacts.
Import Effects Utils Arrays Outcome Orchestrator Intervention.
Context (env : Env).

Lemma polled_next (polls : nat) (w : World) :
  polled env (S polls) w = polled env polls (afterDelay env 1500 3500 w).
Proof. unfold polled. apply Nat.iter_succ_r. Qed.

Lemma afterDelay_poll (w : World) :
  exists d, 1500 <= d <= 3500 /\
            trace (afterDelay env 1500 3500 w) = SetTimeout d :: MathRandom :: trace w.
Proof.
  destruct (randomBelow_range env (3500 - 1500 + 1) w) as (r & Hr & Hrun); [lia|].
  exists (r + 1500). split; [lia|].
  unfold afterDelay, DELAYS_random. rewrite (bind_run _ _ _ _ _ Hrun). reflexivity.
Qed.

(** Rounds of the wait take at least 1500 ms each and do nothing but
    draw a number and set a timer. *)
Lemma polled_elapsed (polls : nat) (w : World) :
  1500 * Z.of_nat polls <= clock (polled env polls w) - clock w /\
  exists rounds,
    trace (polled env polls w) = rounds ++ trace w /\
    Forall (fun a => isPoll a = true) rounds.
Proof.
  induction polls as [|polls (Htime & rounds & Htrace & Hrounds)].
  - split; [cbn; lia|]. exists []. split; [reflexivity|constructor].
  - change (polled env (S polls) w) with (afterDelay env 1500 3500 (polled env polls w)).
    split.
    + pose proof (afterDelay_clock env 1500 3500 (polled env polls w)). lia.
    + destruct (afterDelay_poll (polled env polls w)) as (d & Hd & Hstep).
      exists (SetTimeout d :: MathRandom :: rounds). split.
      * rewrite Hstep, Htrace. reflexivity.
      * constructor; [|constructor; [reflexivity|exact Hrounds]].
        cbn [isPoll]. apply andb_true_intro. split; apply Z.leb_le; lia.
Qed.

(** The loop either ends after the first round that leaves the flag
    clear, or uses up its rounds with the flag set at each reading. *)
Lemma interventionWait_polls (fuel : nat) (w : World) :
  (exists polls,
      (polls <= fuel)%nat /\ clearsAt env polls w /\
      interventionWait env fuel w = (Ok tt, polled env polls w)) \/
  ((forall polls, (polls <= fuel)%nat -> interventionRequired (polled env polls w) = true) /\
   interventionWait env fuel w = (OutOfFuel, polled env fuel w)).
Proof.
  revert w. induction fuel as [|fuel IH]; intros w.
  - destruct (interventionRequired w) eqn:Hflag.
    + right. split.
      * intros polls Hle. replace polls with 0%nat by lia. exact Hflag.
      * cbn [interventionWait]. unfold bind, isWaitingForIntervention.
        rewrite Hflag. reflexivity.
    + left. exists 0%nat. split; [lia|]. split.
      * split; [intros earlier Hlt; lia|exact Hflag].
      * cbn [interventionWait]. unfold bind, isWaitingForIntervention.
        rewrite Hflag. reflexivity.
  - destruct (interventionRequired w) eqn:Hflag.
    + assert (Hstep : interventionWait env (S fuel) w
                      = interventionWait env fuel (afterDelay env 1500 3500 w)).
      { cbn [interventionWait]. unfold bind at 1, isWaitingForIntervention at 1.
        rewrite Hflag. unfold DELAYS_medium.
        rewrite (bind_run _ _ _ _ _ (DELAYS_random_run env 1500 3500 w)). reflexivity. }
      destruct (IH (afterDelay env 1500 3500 w))
        as [(polls & Hle & [Hheld Hclear] & Hrun)|[Hheld Hrun]].
      * left. exists (S polls). split; [lia|]. split; [split|].
        -- intros [|earlier] Hlt; [exact Hflag|].
           rewrite polled_next. apply Hheld. lia.
        -- rewrite polled_next. exact Hclear.
        -- rewrite Hstep, polled_next. exact Hrun.
      * right. split.
        -- intros [|polls] Hle; [exact Hflag|].
           rewrite polled_next. apply Hheld. lia.
        -- rewrite Hstep, polled_next. exact Hrun.
    + left. exists 0%nat. split; [lia|]. split.
      * split; [intros earlier Hlt; lia|exact Hflag].
      * cbn [interventionWait]. unfold bind, isWaitingForIntervention.
        rewrite Hflag. reflexivity.
Qed.

Lemma clearsAt_unique (polls polls' : nat) (w : World) :
  clearsAt env polls w -> clearsAt env polls' w -> polls = polls'.
Proof.
  intros [Hheld Hclear] [Hheld' Hclear'].
  destruct (Nat.lt_trichotomy polls polls') as [Hlt|[Heq|Hgt]]; [|exact Heq|].
  - rewrite (Hheld' polls Hlt) in Hclear. discriminate.
  - rewrite (Hheld polls' Hgt) in Hclear'. discriminate.
Qed.

(** [C8] The wait of a batch item ends exactly when it reads the
    intervention flag as clear: it returns after [polls] rounds if and
    only if the flag was set before each of these rounds and is clear
    after them, and until then it only draws delays and sets timers.  A
    join or a post is made from the state in which the flag was read as
    clear, and none is made while the flag is read as set.  The wait has
    no deadline: each round takes at least 1500 ms, whatever the
    intervention timeout of the monitor is.  The monitor for its part
    clears the flag at the first check of every resolution, with the
    action continue and never by timeout. *)
Theorem intervention_wait_until_clear (fuel n i : nat) (groupUrl : string) (s : State) :
  (forall w',
      interventionWait env fuel (world s) = (Ok tt, w') <->
      exists polls,
        (polls <= fuel)%nat /\ clearsAt env polls (world s) /\
        w' = polled env polls (world s)) /\
  (forall polls,
      1500 * Z.of_nat polls <= clock (polled env polls (world s)) - clock (world s) /\
      exists rounds,
        trace (polled env polls (world s)) = rounds ++ trace (world s) /\
        Forall (fun a => isPoll a = true) rounds) /\
  (forall options res s1,
      joinItem env fuel options n i groupUrl s = (res, s1) ->
      (res = OutOfFuel /\ world s1 = polled env fuel (world s) /\
       forall polls, (polls <= fuel)%nat ->
                     interventionRequired (polled env polls (world s)) = true) \/
      (exists polls s0 result s2,
          (polls <= fuel)%nat /\ clearsAt env polls (world s) /\
          onWorld (interventionWait env fuel) s = (Ok tt, s0) /\
          world s0 = polled env polls (world s) /\
          withGroupManager (GroupManager.joinGroup env groupUrl options) s0
          = (Ok result, s2))) /\
  (forall postTemplate res s1,
      postItem env fuel postTemplate n i groupUrl s = (res, s1) ->
      (res = OutOfFuel /\ world s1 = polled env fuel (world s) /\
       forall polls, (polls <= fuel)%nat ->
                     interventionRequired (polled env polls (world s)) = true) \/
      (exists polls s0 result s2,
          (polls <= fuel)%nat /\ clearsAt env polls (world s) /\
          onWorld (interventionWait env fuel) s = (Ok tt, s0) /\
          world s0 = polled env polls (world s) /\
          withPostManager (PostManager.createPost env (preparePost postTemplate groupUrl)) s0
          = (Ok result, s2))) /\
  (forall checks priority monitor,
      exists monitor',
        AlertSystem.waitForManualResolution env checks priority monitor
        = (Ok AlertSystem.continue, monitor') /\
        AlertSystem.interventionRequired monitor' = false).
Proof.
  pose proof (interventionWait_polls fuel (world s)) as Hwait.
  split; [|split; [|split; [|split]]].
  - intros w'. split.
    + intros Hrun.
      destruct Hwait as [(polls & Hle & Hclears & Hrun')|[_ Hrun']];
        rewrite Hrun in Hrun'; inversion Hrun'.
      exists polls. split; [exact Hle|]. split; [exact Hclears|reflexivity].
    + intros (polls & Hle & Hclears & ->).
      destruct Hwait as [(polls' & Hle' & Hclears' & Hrun')|[Hheld _]].
      * rewrite (clearsAt_unique _ _ _ Hclears Hclears'). exact Hrun'.
      * destruct Hclears as [_ Hclear]. rewrite (Hheld polls Hle) in Hclear. discriminate.
  - intros polls. apply polled_elapsed.
  - intros options res s1 Hitem. unfold joinItem, bind at 1, onWorld at 1 in Hitem.
    destruct Hwait as [(polls & Hle & Hclears & Hrun)|[Hheld Hrun]]; rewrite Hrun in Hitem.
    + right.
      destruct (returns_joinGroup env groupUrl options
                  (groupView {| stats := stats s;
                                groupManager := groupManager s; groupHeap := groupHeap s;
                                postManager := postManager s; postHeap := postHeap s;
                                world := polled env polls (world s) |}))
        as (result & g' & Hjoin).
      exists polls. eexists _, result, _. split; [exact Hle|]. split; [exact Hclears|].
      split; [unfold onWorld; rewrite Hrun; reflexivity|]. split; [reflexivity|].
      unfold withGroupManager. unfold groupView in Hjoin. rewrite Hjoin. reflexivity.
    + left. inversion Hitem. split; [reflexivity|]. split; [reflexivity|exact Hheld].
  - intros postTemplate res s1 Hitem. unfold postItem, bind at 1, onWorld at 1 in Hitem.
    destruct Hwait as [(polls & Hle & Hclears & Hrun)|[Hheld Hrun]]; rewrite Hrun in Hitem.
    + right.
      destruct (returns_createPost env (preparePost postTemplate groupUrl)
                  (postView {| stats := stats s;
                               groupManager := groupManager s; groupHeap := groupHeap s;
                               postManager := postManager s; postHeap := postHeap s;
                               world := polled env polls (world s) |}))
        as (result & p' & Hpost).
      exists polls. eexists _, result, _. split; [exact Hle|]. split; [exact Hclears|].
      split; [unfold onWorld; rewrite Hrun; reflexivity|]. split; [reflexivity|].
      unfold withPostManager. unfold postView in Hpost. rewrite Hpost. reflexivity.
    + left. inversion Hitem. split; [reflexivity|]. split; [reflexivity|exact Hheld].
  - intros checks priority monitor.
    destruct (waitForManualResolution_continues env checks priority monitor)
      as (monitor' & new & Hrun & Hclear & _).
    exists monitor'. split; [exact Hrun|exact Hclear].
Qed.

End GatingFacts.

Section GatingScenarios.
Import Effects Utils Orchestrator Intervention Scenarios MoreScenarios.

(** The flag is found set twice: the wait takes two rounds, at least
    3000 ms. *)
Lemma intervention_wait_until_clear_witness :
  interventionWait (envHeld 2) 5 raised = (Ok tt, polled (envHeld 2) 2 raised) /\
  3000 <= clock (polled (envHeld 2) 2 raised) - clock raised.
Proof.
  destruct (intervention_wait_until_clear (envHeld 2) 5 1 0
                                          "https://www.facebook.com/groups/1" batchRaised)
    as (Hwait & Htime & _).
  split.
  - apply Hwait. exists 2%nat. split; [lia|]. split; [|reflexivity]. split.
    + intros [|[|earlier]] Hlt; [reflexivity|reflexivity|lia].
    + reflexivity.
  - apply (Htime 2%nat).
Defined.

(** The monitor is created with the default timeout of 300000 ms; the
    flag is found set at 201 readings in a row, and the item waits
    301500 ms for it. *)
Lemma intervention_wait_counterexample :
  exists w',
    interventionRequired raised = true /\
    interventionWait (envHeld 201) 201 raised = (Ok tt, w') /\
    clock w' - clock raised = 301500 /\
    AlertSystem.interventionTimeout (create None raised) = 300000 /\
    AlertSystem.interventionTimeout (create None raised) < clock w' - clock raised.
Proof.
  eexists. split; [reflexivity|]. split; [vm_compute; reflexivity|].
  split; [vm_compute; reflexivity|]. split; vm_compute; reflexivity.
Qed.

End GatingScenarios.
